(** * Statefulia: State, StateElement and StateComponent

    A shallow embedding of the three classes of the library
    (src/State.ts, src/StateElement.ts, src/StateComponent.ts) together
    with the part of the JavaScript host they call: [typeof], the string
    conversions of the primitive values, [Number], [Number.parseFloat],
    [Boolean], [Symbol], [JSON.stringify], [JSON.parse], [localStorage],
    the [EventTarget] dispatcher and [console].

    Conventions of the model.
    - A JavaScript string is a [string]: a sequence of code units below
      256.  Code units above U+00FF are outside the model.
    - A Number is modelled by the decimal numeral that [Number::toString]
      prints for it: sign, significant digits and decimal exponent.
      Reading a numeral is exact: the rounding of a numeral to the
      nearest binary64 value, overflow to Infinity and underflow to zero
      are outside the model.
    - Objects and arrays are finite trees of own data properties listed
      in property enumeration order; object identity, prototypes,
      accessors, [toJSON] methods and cyclic structures are outside the
      model, and equality of objects is equality of these trees.
    - The object [states] of a component is modelled with its
      prototype: an assignment to its property ["__proto__"] replaces
      the prototype by a StateElement, whose getters then stand in the
      way of later assignments.
    - A method is a function in the monad [M]: it takes the [World] (the
      State instance and the host objects it touches) and returns a
      completion, normal or abrupt, with the world it leaves behind. *)

From Stdlib Require Import ZArith NArith Ascii String List Lia Bool.
From Stdlib Require Import DecimalN DecimalPos.
From stdpp Require Import base option list gmap strings.

Local Open Scope string_scope.
Local Open Scope list_scope.
Local Open Scope Z_scope.

(** ** Characters *)

Abbreviation chars := (list ascii) (only parsing).

Definition str (cs : chars) : string := string_of_list_ascii cs.
Definition unstr (s : string) : chars := list_ascii_of_string s.

Definition code (c : ascii) : N := N_of_ascii c.

Definition ch_quote : ascii := "034"%char.
Definition ch_backslash : ascii := "092"%char.
Definition ch_zero : ascii := "0"%char.

Definition is_digit (c : ascii) : bool :=
  ((48 <=? code c) && (code c <=? 57))%N.

Definition digit_value (c : ascii) : N := (code c - 48)%N.

(** [DecimalDigits] read as a natural number. *)
Definition N_of_digits (cs : chars) : N :=
  fold_left (fun acc c => (acc * 10 + digit_value c)%N) cs 0%N.

Fixpoint chars_of_uint (u : Decimal.uint) : chars :=
  match u with
  | Decimal.Nil => []
  | Decimal.D0 r => "0"%char :: chars_of_uint r
  | Decimal.D1 r => "1"%char :: chars_of_uint r
  | Decimal.D2 r => "2"%char :: chars_of_uint r
  | Decimal.D3 r => "3"%char :: chars_of_uint r
  | Decimal.D4 r => "4"%char :: chars_of_uint r
  | Decimal.D5 r => "5"%char :: chars_of_uint r
  | Decimal.D6 r => "6"%char :: chars_of_uint r
  | Decimal.D7 r => "7"%char :: chars_of_uint r
  | Decimal.D8 r => "8"%char :: chars_of_uint r
  | Decimal.D9 r => "9"%char :: chars_of_uint r
  end.

(** The decimal digits of a natural number, most significant first,
    ["0"] for zero. *)
Definition digits_of_N (n : N) : chars := chars_of_uint (N.to_uint n).

(** Longest prefix of decimal digits and what follows it. *)
Fixpoint span_digits (cs : chars) : chars * chars :=
  match cs with
  | c :: r =>
      if is_digit c then
        let '(ds, rest) := span_digits r in (c :: ds, rest)
      else ([], cs)
  | [] => ([], [])
  end.

(** Leading zeros removed, with their count. *)
Fixpoint strip_leading_zeros (ds : chars) : nat * chars :=
  match ds with
  | c :: r =>
      if Ascii.eqb c ch_zero then
        let '(k, r') := strip_leading_zeros r in (S k, r')
      else (O, ds)
  | [] => (O, [])
  end.

Definition strip_trailing_zeros (ds : chars) : chars :=
  rev (snd (strip_leading_zeros (rev ds))).

(** ** Number values *)

(** [Finite neg ds n] is the Number whose shortest numeral has the
    significant digits [ds] and the value [0.ds * 10^n] (the [n] of
    Number::toString, with [k = length ds]); [ds] is not empty and
    neither starts nor ends with the digit zero. *)
Inductive number :=
| NaN
| Infinity (neg : bool)
| Zero (neg : bool)
| Finite (neg : bool) (digits : chars) (n : Z).

Definition canonical_digits (ds : chars) : Prop :=
  ds <> [] /\ forallb is_digit ds = true /\
  head ds <> Some ch_zero /\ last ds <> Some ch_zero.

Definition wf_number (x : number) : Prop :=
  match x with
  | Finite _ ds _ => canonical_digits ds
  | _ => True
  end.

(** The Number denoted by a sign, a digit sequence and the position of
    the decimal point counted from its left end. *)
Definition mk_number (neg : bool) (ds : chars) (point : Z) : number :=
  let '(k, ds1) := strip_leading_zeros ds in
  match strip_trailing_zeros ds1 with
  | [] => Zero neg
  | ds2 => Finite neg ds2 (point - Z.of_nat k)
  end.

Definition number_of_N (n : N) : number :=
  let ds := digits_of_N n in mk_number false ds (Z.of_nat (length ds)).

(** Number::toString(x), radix 10. *)
Definition Number_toString (x : number) : chars :=
  match x with
  | NaN => unstr "NaN"
  | Infinity neg => (if neg then ["-"%char] else []) ++ unstr "Infinity"
  | Zero _ => ["0"%char]
  | Finite neg ds n =>
      let k := Z.of_nat (length ds) in
      let body :=
        if (k <=? n) && (n <=? 21) then
          ds ++ repeat "0"%char (Z.to_nat (n - k))
        else if (0 <? n) && (n <=? 21) then
          take (Z.to_nat n) ds ++ "."%char :: drop (Z.to_nat n) ds
        else if (-6 <? n) && (n <=? 0) then
          "0"%char :: "."%char :: repeat "0"%char (Z.to_nat (- n)) ++ ds
        else
          let e := n - 1 in
          let sign := if e <? 0 then "-"%char else "+"%char in
          let exponent := "e"%char :: sign :: digits_of_N (Z.abs_N e) in
          match ds with
          | [d] => d :: exponent
          | d :: rest => d :: "."%char :: rest ++ exponent
          | [] => exponent
          end
      in
      (if neg then ["-"%char] else []) ++ body
  end.

(** ** Reading numerals *)

(** [StrWhiteSpaceChar], restricted to the code units of the model. *)
Definition is_StrWhiteSpaceChar (c : ascii) : bool :=
  let n := code c in
  (((9 <=? n) && (n <=? 13)) || (n =? 32) || (n =? 160))%N.

Fixpoint trim_start (cs : chars) : chars :=
  match cs with
  | c :: r => if is_StrWhiteSpaceChar c then trim_start r else cs
  | [] => []
  end.

Definition trim_end (cs : chars) : chars := rev (trim_start (rev cs)).

Fixpoint strip_prefix (p cs : chars) : option chars :=
  match p, cs with
  | [], _ => Some cs
  | a :: p', c :: r => if Ascii.eqb a c then strip_prefix p' r else None
  | _ :: _, [] => None
  end.

(** [ExponentPart]: the exponent and what follows it. *)
Definition scan_ExponentPart (cs : chars) : option (Z * chars) :=
  match cs with
  | c :: r =>
      if Ascii.eqb c "e" || Ascii.eqb c "E" then
        let '(neg, r1) :=
          match r with
          | s :: r' =>
              if Ascii.eqb s "+" then (false, r')
              else if Ascii.eqb s "-" then (true, r')
              else (false, r)
          | [] => (false, r)
          end in
        let '(ds, rest) := span_digits r1 in
        match ds with
        | [] => None
        | _ :: _ =>
            let v := Z.of_N (N_of_digits ds) in
            Some (if neg then - v else v, rest)
        end
      else None
  | [] => None
  end.

(** The exponent after a mantissa with integer digits [int] and
    fraction digits [frac]: when no well-formed [ExponentPart] follows,
    the numeral ends before it. *)
Definition with_exponent (int frac rest : chars) : chars * Z * chars :=
  match scan_ExponentPart rest with
  | Some (e, rest') => (int ++ frac, Z.of_nat (length int) + e, rest')
  | None => (int ++ frac, Z.of_nat (length int), rest)
  end.

(** Longest prefix that is a [StrUnsignedDecimalLiteral] other than
    [Infinity]: its digits, the position of its decimal point, and the
    rest of the input. *)
Definition scan_StrUnsignedDecimalLiteral (cs : chars)
  : option (chars * Z * chars) :=
  let '(int, r1) := span_digits cs in
  match r1 with
  | c :: r =>
      if Ascii.eqb c "." then
        let '(frac, r2) := span_digits r in
        match int, frac with
        | [], [] => None
        | _, _ => Some (with_exponent int frac r2)
        end
      else
        match int with
        | [] => None
        | _ :: _ => Some (with_exponent int [] r1)
        end
  | [] =>
      match int with
      | [] => None
      | _ :: _ => Some (with_exponent int [] r1)
      end
  end.

Definition scan_sign (cs : chars) : bool * chars :=
  match cs with
  | c :: r =>
      if Ascii.eqb c "+" then (false, r)
      else if Ascii.eqb c "-" then (true, r)
      else (false, cs)
  | [] => (false, cs)
  end.

(** Longest prefix that is a [StrDecimalLiteral], as a Number. *)
Definition scan_StrDecimalLiteral (cs : chars) : option (number * chars) :=
  let '(neg, r) := scan_sign cs in
  match strip_prefix (unstr "Infinity") r with
  | Some rest => Some (Infinity neg, rest)
  | None =>
      match scan_StrUnsignedDecimalLiteral r with
      | Some (ds, point, rest) => Some (mk_number neg ds point, rest)
      | None => None
      end
  end.

(** Number.parseFloat(string). *)
Definition parseFloat (s : string) : number :=
  match scan_StrDecimalLiteral (trim_start (unstr s)) with
  | Some (x, _) => x
  | None => NaN
  end.

Definition radix_digit_value (c : ascii) : option N :=
  let n := code c in
  if ((48 <=? n) && (n <=? 57))%N then Some (n - 48)%N
  else if ((97 <=? n) && (n <=? 102))%N then Some (n - 87)%N
  else if ((65 <=? n) && (n <=? 70))%N then Some (n - 55)%N
  else None.

Fixpoint N_of_radix_digits (radix : N) (acc : N) (cs : chars) : option N :=
  match cs with
  | [] => Some acc
  | c :: r =>
      match radix_digit_value c with
      | Some d =>
          if (d <? radix)%N then N_of_radix_digits radix (acc * radix + d)%N r
          else None
      | None => None
      end
  end.

(** [NonDecimalIntegerLiteral]: 0x, 0o and 0b numerals. *)
Definition scan_NonDecimalIntegerLiteral (cs : chars) : option N :=
  match cs with
  | z :: p :: (d :: _) as ds =>
      if Ascii.eqb z "0" then
        if Ascii.eqb p "x" || Ascii.eqb p "X" then N_of_radix_digits 16 0 ds
        else if Ascii.eqb p "o" || Ascii.eqb p "O" then N_of_radix_digits 8 0 ds
        else if Ascii.eqb p "b" || Ascii.eqb p "B" then N_of_radix_digits 2 0 ds
        else None
      else None
  | _ => None
  end.

(** StringToNumber(str), the conversion behind [Number(value)] on a
    string argument. *)
Definition StringToNumber (s : string) : number :=
  match trim_end (trim_start (unstr s)) with
  | [] => Zero false
  | t =>
      match scan_NonDecimalIntegerLiteral t with
      | Some n => number_of_N n
      | None =>
          match scan_StrDecimalLiteral t with
          | Some (x, []) => x
          | _ => NaN
          end
      end
  end.

(** ** Values *)

#[local] Unset Elimination Schemes.
Inductive JsValue :=
| VUndefined
| VNull
| VBoolean (b : bool)
| VNumber (x : number)
| VBigInt (z : Z)
| VString (s : string)
| VSymbol (id : nat) (description : option string)
| VFunction (id : nat)
| VArray (elements : list JsValue)
| VObject (properties : list (string * JsValue)).
#[local] Set Elimination Schemes.

(** The results of the [typeof] operator. *)
Inductive JsType :=
| TUndefined | TObject | TBoolean | TNumber | TBigint | TString
| TSymbol | TFunction.

#[global] Instance JsType_eq_dec : EqDecision JsType.
Proof. solve_decision. Defined.

Definition typeof (v : JsValue) : JsType :=
  match v with
  | VUndefined => TUndefined
  | VNull => TObject
  | VBoolean _ => TBoolean
  | VNumber _ => TNumber
  | VBigInt _ => TBigint
  | VString _ => TString
  | VSymbol _ _ => TSymbol
  | VFunction _ => TFunction
  | VArray _ => TObject
  | VObject _ => TObject
  end.

Definition type_name (t : JsType) : string :=
  match t with
  | TUndefined => "undefined"
  | TObject => "object"
  | TBoolean => "boolean"
  | TNumber => "number"
  | TBigint => "bigint"
  | TString => "string"
  | TSymbol => "symbol"
  | TFunction => "function"
  end.

(** [StorageValueType]: the six kinds a slot can have. *)
Definition StorageValueType (t : JsType) : Prop :=
  t <> TUndefined /\ t <> TFunction.

(** Thrown values: [new Error(message)] of the library, and the
    TypeError and SyntaxError objects of the host. *)
Inductive JsError :=
| Error (message : string)
| TypeError
| SyntaxError.

Inductive Completion (A : Type) :=
| Normal (a : A)
| Throw (e : JsError).
Arguments Normal {A} a.
Arguments Throw {A} e.

(** [value.key] for a property name that no built-in prototype
    defines; reading a property of [null] or [undefined] throws. *)
Definition get_property (v : JsValue) (name : string) : Completion JsValue :=
  match v with
  | VUndefined | VNull => Throw TypeError
  | VObject props =>
      Normal (default VUndefined (snd <$> find (fun p => String.eqb (fst p) name) props))
  | _ => Normal VUndefined
  end.

(** ** Property order of ordinary objects *)

(** The array index a property name denotes, if it is one: a canonical
    numeral below 2^32 - 1. *)
Definition array_index (k : string) : option N :=
  let cs := unstr k in
  let n := N_of_digits cs in
  if forallb is_digit cs && String.eqb k (str (digits_of_N n))
     && (n <? 4294967295)%N
  then Some n else None.

(** Does a property named [k1] come before one named [k2] that is
    created later?  Array indices come first, in ascending order;
    other names keep creation order. *)
Definition stays_before (k1 k2 : string) : bool :=
  match array_index k1, array_index k2 with
  | Some i, Some j => (i <? j)%N
  | Some _, None => true
  | None, Some _ => false
  | None, None => true
  end.

Fixpoint insert_property {A} (k : string) (v : A)
    (props : list (string * A)) : list (string * A) :=
  match props with
  | [] => [(k, v)]
  | (k', v') :: r =>
      if stays_before k' k then (k', v') :: insert_property k v r
      else (k, v) :: props
  end.

Fixpoint update_property {A} (k : string) (v : A)
    (props : list (string * A)) : list (string * A) :=
  match props with
  | [] => []
  | (k', v') :: r =>
      if String.eqb k' k then (k', v) :: r
      else (k', v') :: update_property k v r
  end.

(** CreateDataProperty(O, k, v) on an ordinary object: [k] becomes or
    stays an own data property, whatever the prototype chain holds
    under that name. *)
Definition CreateDataProperty {A} (props : list (string * A))
    (k : string) (v : A) : list (string * A) :=
  if existsb (fun p => String.eqb (fst p) k) props
  then update_property k v props
  else insert_property k v props.

(** ** JSON.stringify *)

Definition hex_digit (n : N) : ascii :=
  if (n <? 10)%N then ascii_of_N (48 + n) else ascii_of_N (87 + n).

(** The escape of one code unit in QuoteJSONString. *)
Definition escape_char (c : ascii) : chars :=
  let n := code c in
  if (n =? 8)%N then [ch_backslash; "b"%char]
  else if (n =? 9)%N then [ch_backslash; "t"%char]
  else if (n =? 10)%N then [ch_backslash; "n"%char]
  else if (n =? 12)%N then [ch_backslash; "f"%char]
  else if (n =? 13)%N then [ch_backslash; "r"%char]
  else if (n =? 34)%N then [ch_backslash; ch_quote]
  else if (n =? 92)%N then [ch_backslash; ch_backslash]
  else if (n <? 32)%N then
    [ch_backslash; "u"%char; "0"%char; "0"%char;
     hex_digit (n / 16); hex_digit (n mod 16)]
  else [c].

Definition QuoteJSONString (s : string) : chars :=
  ch_quote :: concat (map escape_char (unstr s)) ++ [ch_quote].

Fixpoint join_comma (parts : list chars) : chars :=
  match parts with
  | [] => []
  | [p] => p
  | p :: r => p ++ ","%char :: join_comma r
  end.

Definition is_finite (x : number) : bool :=
  match x with
  | Zero _ | Finite _ _ _ => true
  | NaN | Infinity _ => false
  end.

(** SerializeJSONProperty without replacer, indentation or [toJSON]:
    [Normal None] is the result [undefined]. *)
Fixpoint SerializeJSONProperty (v : JsValue) : Completion (option chars) :=
  match v with
  | VNull => Normal (Some (unstr "null"))
  | VBoolean true => Normal (Some (unstr "true"))
  | VBoolean false => Normal (Some (unstr "false"))
  | VString s => Normal (Some (QuoteJSONString s))
  | VNumber x =>
      Normal (Some (if is_finite x then Number_toString x else unstr "null"))
  | VBigInt _ => Throw TypeError
  | VUndefined | VSymbol _ _ | VFunction _ => Normal None
  | VArray elements =>
      let fix SerializeJSONArray (l : list JsValue) : Completion (list chars) :=
        match l with
        | [] => Normal []
        | e :: r =>
            match SerializeJSONProperty e with
            | Throw err => Throw err
            | Normal o =>
                match SerializeJSONArray r with
                | Throw err => Throw err
                | Normal parts => Normal (default (unstr "null") o :: parts)
                end
            end
        end in
      match SerializeJSONArray elements with
      | Throw err => Throw err
      | Normal parts => Normal (Some ("["%char :: join_comma parts ++ ["]"%char]))
      end
  | VObject properties =>
      let fix SerializeJSONObject (l : list (string * JsValue))
          : Completion (list chars) :=
        match l with
        | [] => Normal []
        | (k, e) :: r =>
            match SerializeJSONProperty e with
            | Throw err => Throw err
            | Normal o =>
                match SerializeJSONObject r with
                | Throw err => Throw err
                | Normal parts =>
                    Normal match o with
                           | Some t => (QuoteJSONString k ++ ":"%char :: t) :: parts
                           | None => parts
                           end
                end
            end
        end in
      match SerializeJSONObject properties with
      | Throw err => Throw err
      | Normal parts => Normal (Some ("{"%char :: join_comma parts ++ ["}"%char]))
      end
  end.

(** JSON.stringify(value). *)
Definition JSON_stringify (v : JsValue) : Completion (option string) :=
  match SerializeJSONProperty v with
  | Throw err => Throw err
  | Normal o => Normal (str <$> o)
  end.

(** ** JSON.parse *)

(** JSON white space: tab, line feed, carriage return, space. *)
Definition is_json_ws (c : ascii) : bool :=
  let n := code c in ((n =? 9) || (n =? 10) || (n =? 13) || (n =? 32))%N.

Fixpoint skip_ws (cs : chars) : chars :=
  match cs with
  | c :: r => if is_json_ws c then skip_ws r else cs
  | [] => []
  end.

(** Four hexadecimal digits of a [\u] escape as a code unit of the
    model; escapes above U+00FF are outside the model and are not
    read. *)
Definition unicode_escape (h1 h2 h3 h4 : ascii) : option ascii :=
  match N_of_radix_digits 16 0 [h1; h2; h3; h4] with
  | Some n => if (n <? 256)%N then Some (ascii_of_N n) else None
  | None => None
  end.

(** The characters of a JSON string after its opening quote, up to and
    including the closing quote. *)
Fixpoint scan_JSONString (cs : chars) : option (chars * chars) :=
  match cs with
  | [] => None
  | c :: r =>
      if Ascii.eqb c ch_quote then Some ([], r)
      else if Ascii.eqb c ch_backslash then
        match r with
        | e :: r1 =>
            let simple (d : ascii) :=
              match scan_JSONString r1 with
              | Some (s, rest) => Some (d :: s, rest)
              | None => None
              end in
            if Ascii.eqb e ch_quote then simple ch_quote
            else if Ascii.eqb e ch_backslash then simple ch_backslash
            else if Ascii.eqb e "/" then simple "/"%char
            else if Ascii.eqb e "b" then simple "008"%char
            else if Ascii.eqb e "f" then simple "012"%char
            else if Ascii.eqb e "n" then simple "010"%char
            else if Ascii.eqb e "r" then simple "013"%char
            else if Ascii.eqb e "t" then simple "009"%char
            else if Ascii.eqb e "u" then
              match r1 with
              | h1 :: h2 :: h3 :: h4 :: r2 =>
                  match unicode_escape h1 h2 h3 h4, scan_JSONString r2 with
                  | Some d, Some (s, rest) => Some (d :: s, rest)
                  | _, _ => None
                  end
              | _ => None
              end
            else None
        | [] => None
        end
      else if (code c <? 32)%N then None
      else
        match scan_JSONString r with
        | Some (s, rest) => Some (c :: s, rest)
        | None => None
        end
  end.

(** A JSON number: [-? int frac? exp?]. *)
Definition scan_JSONNumber (cs : chars) : option (number * chars) :=
  let '(neg, r0) :=
    match cs with
    | c :: r => if Ascii.eqb c "-" then (true, r) else (false, cs)
    | [] => (false, cs)
    end in
  let '(int, r1) :=
    match r0 with
    | c :: r => if Ascii.eqb c "0" then (["0"%char], r) else span_digits r0
    | [] => ([], [])
    end in
  match int with
  | [] => None
  | _ :: _ =>
      let exponent (frac r2 : chars) :=
        match r2 with
        | c :: _ =>
            if Ascii.eqb c "e" || Ascii.eqb c "E" then
              match scan_ExponentPart r2 with
              | Some (e, r3) =>
                  Some (mk_number neg (int ++ frac) (Z.of_nat (length int) + e), r3)
              | None => None
              end
            else Some (mk_number neg (int ++ frac) (Z.of_nat (length int)), r2)
        | [] => Some (mk_number neg (int ++ frac) (Z.of_nat (length int)), r2)
        end in
      match r1 with
      | c :: r =>
          if Ascii.eqb c "." then
            let '(frac, r2) := span_digits r in
            match frac with
            | [] => None
            | _ :: _ => exponent frac r2
            end
          else exponent [] r1
      | [] => exponent [] r1
      end
  end.

(** The outcome of reading a JSON text with a bound on the number of
    nested calls. *)
Inductive parsed (A : Type) :=
| Parsed (a : A) (rest : chars)
| Malformed
| Exhausted.
Arguments Parsed {A} a rest.
Arguments Malformed {A}.
Arguments Exhausted {A}.

Fixpoint parse_value (fuel : nat) (cs : chars) : parsed JsValue :=
  match fuel with
  | O => Exhausted
  | S fuel' =>
      match skip_ws cs with
      | [] => Malformed
      | c :: r =>
          if Ascii.eqb c "n" then
            match strip_prefix (unstr "ull") r with
            | Some rest => Parsed VNull rest
            | None => Malformed
            end
          else if Ascii.eqb c "t" then
            match strip_prefix (unstr "rue") r with
            | Some rest => Parsed (VBoolean true) rest
            | None => Malformed
            end
          else if Ascii.eqb c "f" then
            match strip_prefix (unstr "alse") r with
            | Some rest => Parsed (VBoolean false) rest
            | None => Malformed
            end
          else if Ascii.eqb c ch_quote then
            match scan_JSONString r with
            | Some (s, rest) => Parsed (VString (str s)) rest
            | None => Malformed
            end
          else if Ascii.eqb c "[" then
            match skip_ws r with
            | c' :: r' =>
                if Ascii.eqb c' "]" then Parsed (VArray []) r'
                else
                  match parse_elements fuel' r with
                  | Parsed vs rest => Parsed (VArray vs) rest
                  | Malformed => Malformed
                  | Exhausted => Exhausted
                  end
            | [] => Malformed
            end
          else if Ascii.eqb c "{" then
            match skip_ws r with
            | c' :: r' =>
                if Ascii.eqb c' "}" then Parsed (VObject []) r'
                else
                  match parse_members fuel' r with
                  | Parsed ms rest =>
                      Parsed (VObject
                        (fold_left (fun o m => CreateDataProperty o (fst m) (snd m))
                                   ms [])) rest
                  | Malformed => Malformed
                  | Exhausted => Exhausted
                  end
            | [] => Malformed
            end
          else
            match scan_JSONNumber (c :: r) with
            | Some (x, rest) => Parsed (VNumber x) rest
            | None => Malformed
            end
      end
  end

with parse_elements (fuel : nat) (cs : chars) : parsed (list JsValue) :=
  match fuel with
  | O => Exhausted
  | S fuel' =>
      match parse_value fuel' cs with
      | Parsed v r =>
          match skip_ws r with
          | c :: r' =>
              if Ascii.eqb c "," then
                match parse_elements fuel' r' with
                | Parsed vs rest => Parsed (v :: vs) rest
                | Malformed => Malformed
                | Exhausted => Exhausted
                end
              else if Ascii.eqb c "]" then Parsed [v] r'
              else Malformed
          | [] => Malformed
          end
      | Malformed => Malformed
      | Exhausted => Exhausted
      end
  end

with parse_members (fuel : nat) (cs : chars) : parsed (list (string * JsValue)) :=
  match fuel with
  | O => Exhausted
  | S fuel' =>
      match skip_ws cs with
      | q :: r0 =>
          if Ascii.eqb q ch_quote then
            match scan_JSONString r0 with
            | Some (k, r1) =>
                match skip_ws r1 with
                | colon :: r2 =>
                    if Ascii.eqb colon ":" then
                      match parse_value fuel' r2 with
                      | Parsed v r =>
                          match skip_ws r with
                          | c :: r' =>
                              if Ascii.eqb c "," then
                                match parse_members fuel' r' with
                                | Parsed ms rest => Parsed ((str k, v) :: ms) rest
                                | Malformed => Malformed
                                | Exhausted => Exhausted
                                end
                              else if Ascii.eqb c "}" then Parsed [(str k, v)] r'
                              else Malformed
                          | [] => Malformed
                          end
                      | Malformed => Malformed
                      | Exhausted => Exhausted
                      end
                    else Malformed
                | [] => Malformed
                end
            | None => Malformed
            end
          else Malformed
      | [] => Malformed
      end
  end.

(** JSON.parse(text): the whole text must be one JSON value. *)
Definition JSON_parse (text : string) : Completion JsValue :=
  let cs := unstr text in
  match parse_value (2 * length cs + 2) cs with
  | Parsed v rest =>
      match skip_ws rest with
      | [] => Normal v
      | _ :: _ => Throw SyntaxError
      end
  | Malformed | Exhausted => Throw SyntaxError
  end.

(** ** Configuration and options *)

(** An optional boolean property: [None] when the property is absent.
    Only the truthiness of these properties is ever inspected. *)
Definition truthy (p : option bool) : bool := default false p.

(** [{...a, ...b}] on one property. *)
Definition spread {A} (a b : option A) : option A :=
  match b with
  | Some x => Some x
  | None => a
  end.

Module StateConfig.
Record t := {
  useChangeEvent : option bool;
  useLogs : option bool;
  prefix : option string;
  useRefetchOnFocus : option bool;
}.

Definition merge (a b : t) : t :=
  {| useChangeEvent := spread (useChangeEvent a) (useChangeEvent b);
     useLogs := spread (useLogs a) (useLogs b);
     prefix := spread (prefix a) (prefix b);
     useRefetchOnFocus := spread (useRefetchOnFocus a) (useRefetchOnFocus b) |}.

(** The initial value of [State._config]. *)
Definition defaults : t :=
  {| useChangeEvent := Some false;
     useLogs := Some false;
     prefix := Some ""%string;
     useRefetchOnFocus := Some true |}.

Definition empty : t :=
  {| useChangeEvent := None; useLogs := None; prefix := None;
     useRefetchOnFocus := None |}.
End StateConfig.

Module StateElementConfig.
Record t := {
  useLocalStorage : option bool;
  useEvents : option bool;
  onBeforeSet : option (JsValue -> Completion JsValue);
  useRefetchOnFocus : option bool;
}.

Definition merge (a b : t) : t :=
  {| useLocalStorage := spread (useLocalStorage a) (useLocalStorage b);
     useEvents := spread (useEvents a) (useEvents b);
     onBeforeSet := spread (onBeforeSet a) (onBeforeSet b);
     useRefetchOnFocus := spread (useRefetchOnFocus a) (useRefetchOnFocus b) |}.

(** The initial value of [StateElement._config]. *)
Definition defaults : t :=
  {| useLocalStorage := Some false;
     useEvents := Some false;
     onBeforeSet := None;
     useRefetchOnFocus := Some true |}.

Definition empty : t :=
  {| useLocalStorage := None; useEvents := None; onBeforeSet := None;
     useRefetchOnFocus := None |}.
End StateElementConfig.

Module StateElementOptions.
Record t := {
  defaultValue : JsValue;
  config : option StateElementConfig.t;
}.
End StateElementOptions.

(** ** The world: one State instance and its host *)

(** The fields of a StateElement; [state] is the State of the world. *)
Record StateElementData := {
  key : string;
  _defaultValue : JsValue;
  _type : JsType;
  element_config : StateElementConfig.t;
}.

(** What a callback given to [StateElement.addListener] does: the
    arrow function of a StateComponent, which calls the component's
    [$onStateChange] with a fixed key, or a function of the
    application. *)
Inductive Callback :=
| HookCallback (component : nat) (key : string)
| UserCallback (id : nat).

(** The event listeners the library registers on the State. *)
Inductive Listener :=
| ElementListener (listener : Callback)
| ChangeListener (component : nat).

(** Calls received by application code. *)
Inductive Call :=
| HookCall (component : nat) (key value : JsValue)
| UserCall (id : nat) (value : JsValue).

Inductive ConsoleEntry :=
| LogState (config : StateConfig.t)
| LogStateElement (key : string) (defaultValue : JsValue) (type : JsType)
    (config : StateElementConfig.t)
| LogStateComponent (stateElements : list string) (overrides : bool)
    (events : list string)
| LogError (error : JsError).

Record World := {
  (** State *)
  _storage : gmap string JsValue;
  _elements : list (string * StateElementData);
  _config : StateConfig.t;
  (** the listener list of the State as an EventTarget, and whether its
      focus listener is registered on the window *)
  listeners : list (string * Listener);
  focus_listener : bool;
  (** the host *)
  localStorage : gmap string string;
  symbols : nat;
  console : list ConsoleEntry;
  (** observations: events dispatched and calls made, oldest first *)
  dispatched : list (string * JsValue);
  calls : list Call;
}.

Definition with_storage (x : gmap string JsValue) (w : World) : World :=
  {| _storage := x; _elements := _elements w; _config := _config w;
     listeners := listeners w; focus_listener := focus_listener w;
     localStorage := localStorage w; symbols := symbols w;
     console := console w; dispatched := dispatched w; calls := calls w |}.

Definition with_elements (x : list (string * StateElementData)) (w : World) : World :=
  {| _storage := _storage w; _elements := x; _config := _config w;
     listeners := listeners w; focus_listener := focus_listener w;
     localStorage := localStorage w; symbols := symbols w;
     console := console w; dispatched := dispatched w; calls := calls w |}.

Definition with_config (x : StateConfig.t) (w : World) : World :=
  {| _storage := _storage w; _elements := _elements w; _config := x;
     listeners := listeners w; focus_listener := focus_listener w;
     localStorage := localStorage w; symbols := symbols w;
     console := console w; dispatched := dispatched w; calls := calls w |}.

Definition with_listeners (x : list (string * Listener)) (w : World) : World :=
  {| _storage := _storage w; _elements := _elements w; _config := _config w;
     listeners := x; focus_listener := focus_listener w;
     localStorage := localStorage w; symbols := symbols w;
     console := console w; dispatched := dispatched w; calls := calls w |}.

Definition with_focus_listener (x : bool) (w : World) : World :=
  {| _storage := _storage w; _elements := _elements w; _config := _config w;
     listeners := listeners w; focus_listener := x;
     localStorage := localStorage w; symbols := symbols w;
     console := console w; dispatched := dispatched w; calls := calls w |}.

Definition with_localStorage (x : gmap string string) (w : World) : World :=
  {| _storage := _storage w; _elements := _elements w; _config := _config w;
     listeners := listeners w; focus_listener := focus_listener w;
     localStorage := x; symbols := symbols w;
     console := console w; dispatched := dispatched w; calls := calls w |}.

Definition with_symbols (x : nat) (w : World) : World :=
  {| _storage := _storage w; _elements := _elements w; _config := _config w;
     listeners := listeners w; focus_listener := focus_listener w;
     localStorage := localStorage w; symbols := x;
     console := console w; dispatched := dispatched w; calls := calls w |}.

Definition with_console (x : list ConsoleEntry) (w : World) : World :=
  {| _storage := _storage w; _elements := _elements w; _config := _config w;
     listeners := listeners w; focus_listener := focus_listener w;
     localStorage := localStorage w; symbols := symbols w;
     console := x; dispatched := dispatched w; calls := calls w |}.

Definition with_dispatched (x : list (string * JsValue)) (w : World) : World :=
  {| _storage := _storage w; _elements := _elements w; _config := _config w;
     listeners := listeners w; focus_listener := focus_listener w;
     localStorage := localStorage w; symbols := symbols w;
     console := console w; dispatched := x; calls := calls w |}.

Definition with_calls (x : list Call) (w : World) : World :=
  {| _storage := _storage w; _elements := _elements w; _config := _config w;
     listeners := listeners w; focus_listener := focus_listener w;
     localStorage := localStorage w; symbols := symbols w;
     console := console w; dispatched := dispatched w; calls := x |}.

(** ** The monad of methods *)

Definition M (A : Type) : Type := World -> Completion A * World.

Definition ret {A} (a : A) : M A := fun w => (Normal a, w).

Definition throw {A} (e : JsError) : M A := fun w => (Throw e, w).

Definition bind {A B} (m : M A) (k : A -> M B) : M B :=
  fun w =>
    match m w with
    | (Normal a, w') => k a w'
    | (Throw e, w') => (Throw e, w')
    end.

(** [try { m } catch (error) { handler(error) }]. *)
Definition try_catch {A} (m : M A) (handler : JsError -> M A) : M A :=
  fun w =>
    match m w with
    | (Normal a, w') => (Normal a, w')
    | (Throw e, w') => handler e w'
    end.

Definition lift {A} (c : Completion A) : M A := fun w => (c, w).

Definition modify (f : World -> World) : M unit := fun w => (Normal tt, f w).

Definition when (b : bool) (m : M unit) : M unit := if b then m else ret tt.

Notation "x <- m ;; k" := (bind m (fun x => k))
  (at level 100, m at next level, right associativity).
Notation "m ;; k" := (bind m (fun _ => k))
  (at level 100, right associativity).

(** [for (const x of l) body(x)] and [l.forEach(body)]. *)
Fixpoint for_each {A} (l : list A) (body : A -> M unit) : M unit :=
  match l with
  | [] => ret tt
  | x :: r => body x ;; for_each r body
  end.

(** Reading [this._config] and [this._elements]. *)
Definition get_config : M StateConfig.t := fun w => (Normal (_config w), w).
Definition get_elements : M (list (string * StateElementData)) :=
  fun w => (Normal (_elements w), w).

Definition console_log (entry : ConsoleEntry) : M unit :=
  modify (fun w => with_console (console w ++ [entry]) w).

(** [console.error(error)]. *)
Definition console_error (e : JsError) : M unit := console_log (LogError e).

(** ** Host functions on primitive values *)

Definition quoted (s : string) : string :=
  String ch_quote (s +:+ String ch_quote "").

(** [value.toString()] of a primitive value, and the value itself for
    a string.  It is only applied to these kinds. *)
Definition toString (value : JsValue) : string :=
  match value with
  | VBigInt z =>
      str ((if z <? 0 then ["-"%char] else []) ++ digits_of_N (Z.abs_N z))
  | VBoolean b => if b then "true" else "false"
  | VSymbol _ description => "Symbol(" +:+ default "" description +:+ ")"
  | VNumber x => str (Number_toString x)
  | VString s => s
  | _ => ""
  end.

(** [Boolean(value)] on a string: true unless the string is empty. *)
Definition Boolean (value : string) : bool :=
  negb (String.eqb value "").

(** [Symbol(description)]: a symbol that did not exist before. *)
Definition Symbol (description : string) : M JsValue :=
  fun w => (Normal (VSymbol (symbols w) (Some description)),
            with_symbols (S (symbols w)) w).

(** [localStorage.getItem(key)]: [None] is [null]. *)
Definition localStorage_getItem (k : string) : M (option string) :=
  fun w => (Normal (localStorage w !! k), w).

Definition localStorage_setItem (k value : string) : M unit :=
  modify (fun w => with_localStorage (<[k := value]> (localStorage w)) w).

(** ** EventTarget *)

(** Running one listener on an event with the given [detail].  The
    body of [$onStateChange] and of an application callback is the
    application's; the model records the call.  An exception raised
    inside a listener is reported by the dispatcher and does not reach
    the caller of [dispatchEvent].  Every event of the model is a
    CustomEvent dispatched by [State.set], so the listeners never take
    their "Invalid event." branch. *)
Definition invoke (l : Listener) (detail : JsValue) (w : World) : World :=
  match l with
  | ElementListener (HookCallback c k) =>
      with_calls (calls w ++ [HookCall c (VString k) detail]) w
  | ElementListener (UserCallback id) =>
      with_calls (calls w ++ [UserCall id detail]) w
  | ChangeListener c =>
      match get_property detail "key", get_property detail "value" with
      | Normal k, Normal v => with_calls (calls w ++ [HookCall c k v]) w
      | _, _ => w
      end
  end.

Definition deliver (type : string) (detail : JsValue)
    (ls : list (string * Listener)) (w : World) : World :=
  fold_left (fun w' l => if String.eqb (fst l) type then invoke (snd l) detail w'
                         else w') ls w.

(** The world after an event of the given type and detail has been
    dispatched on the State. *)
Definition dispatch (type : string) (detail : JsValue) (w : World) : World :=
  deliver type detail (listeners w)
    (with_dispatched (dispatched w ++ [(type, detail)]) w).

(** The [detail] of the event [new CustomEvent(type, { detail })]: a
    member of the init dictionary whose value is [undefined] counts as
    absent, and the detail of the event is then its default,
    [null]. *)
Definition CustomEvent_detail (detail : JsValue) : JsValue :=
  match detail with
  | VUndefined => VNull
  | _ => detail
  end.

(** [this.dispatchEvent(new CustomEvent(type, { detail }))]. *)
Definition dispatchEvent (type : string) (detail : JsValue) : M unit :=
  modify (dispatch type (CustomEvent_detail detail)).

Definition addEventListener (type : string) (l : Listener) : M unit :=
  modify (fun w => with_listeners (listeners w ++ [(type, l)]) w).

(** ** State *)

Definition unsupported (t : JsType) : JsError :=
  Error ("Value type " +:+ quoted (type_name t) +:+ " is not supported").

(** State.prefixKey *)
Definition prefixKey (cfg : StateConfig.t) (key : string) : string :=
  match StateConfig.prefix cfg with
  | None => key
  | Some p => if String.eqb p "" then key else p +:+ "-" +:+ key
  end.

(** State.valueToString *)
Definition valueToString (value : JsValue) : Completion string :=
  match typeof value with
  | TBigint | TBoolean | TSymbol | TNumber => Normal (toString value)
  | TObject =>
      match JSON_stringify value with
      | Normal (Some s) => Normal s
      | Normal None => Normal "undefined"
      | Throw e => Throw e
      end
  | TString => Normal (toString value)
  | TUndefined | TFunction => Throw (unsupported (typeof value))
  end.

(** State.valueFromString *)
Definition valueFromString (value : string) (type : JsType) : M JsValue :=
  match type with
  | TBigint => ret (VNumber (StringToNumber value))
  | TBoolean => ret (VBoolean (Boolean value))
  | TSymbol => Symbol value
  | TNumber => ret (VNumber (parseFloat value))
  | TObject => lift (JSON_parse value)
  | TString => ret (VString value)
  | TUndefined | TFunction => throw (unsupported TString)
  end.

(** The detail [{ key, value }] of the aggregate event. *)
Definition change_detail (key : string) (value : JsValue) : JsValue :=
  VObject [("key"%string, VString key); ("value"%string, value)].

(** State.set *)
Definition State_set (key : string) (value : JsValue)
    (config : StateElementConfig.t) : M unit :=
  modify (fun w => with_storage (<[key := value]> (_storage w)) w) ;;
  when (truthy (StateElementConfig.useLocalStorage config))
    (cfg <- get_config ;;
     s <- lift (valueToString value) ;;
     localStorage_setItem (prefixKey cfg key) s) ;;
  when (truthy (StateElementConfig.useEvents config))
    (dispatchEvent key value ;;
     cfg <- get_config ;;
     when (truthy (StateConfig.useChangeEvent cfg))
       (dispatchEvent "change" (change_detail key value))).

(** State.get: the stored value, [undefined] when there is none. *)
Definition State_get (key : string) : M JsValue :=
  fun w => (Normal (default VUndefined (_storage w !! key)), w).

(** ** StateElement *)

(** The fields the constructor of StateElement assigns. *)
Definition StateElement_fields (key : string) (opts : StateElementOptions.t)
    : StateElementData :=
  {| key := key;
     _defaultValue := StateElementOptions.defaultValue opts;
     _type := typeof (StateElementOptions.defaultValue opts);
     element_config :=
       match StateElementOptions.config opts with
       | Some c => StateElementConfig.merge StateElementConfig.defaults c
       | None => StateElementConfig.defaults
       end |}.

(** The constructor of StateElement. *)
Definition StateElement_new (key : string) (opts : StateElementOptions.t)
    : M StateElementData :=
  let element := StateElement_fields key opts in
  cfg <- get_config ;;
  when (truthy (StateConfig.useLogs cfg))
    (console_log (LogStateElement key (_defaultValue element) (_type element)
                    (element_config element))) ;;
  ret element.

(** StateElement.get *)
Definition StateElement_get (this : StateElementData) : M JsValue :=
  State_get (key this).

Definition type_mismatch (expected got : JsType) : JsError :=
  Error ("Expected value type " +:+ quoted (type_name expected)
         +:+ " but got " +:+ quoted (type_name got)).

(** StateElement.set *)
Definition StateElement_set (this : StateElementData) (value : JsValue) : M unit :=
  if decide (typeof value <> _type this) then
    throw (type_mismatch (_type this) (typeof value))
  else
    value' <- match StateElementConfig.onBeforeSet (element_config this) with
              | Some onBeforeSet => lift (onBeforeSet value)
              | None => ret value
              end ;;
    State_set (key this) value' (element_config this).

(** StateElement.reset *)
Definition StateElement_reset (this : StateElementData) : M unit :=
  StateElement_set this (_defaultValue this).

(** StateElement.addListener *)
Definition StateElement_addListener (this : StateElementData)
    (listener : Callback) : M StateElementData :=
  addEventListener (key this) (ElementListener listener) ;;
  ret this.

(** ** Map, as used for [State._elements] *)

(** [map.get(key)] on the entries in insertion order. *)
Definition Map_get {A} (k : string) (entries : list (string * A)) : option A :=
  snd <$> find (fun e => String.eqb (fst e) k) entries.

(** [map.set(key, value)]: an existing entry keeps its place. *)
Definition Map_set {A} (k : string) (v : A) (entries : list (string * A))
    : list (string * A) :=
  match Map_get k entries with
  | Some _ => update_property k v entries
  | None => entries ++ [(k, v)]
  end.

(** ** State: registration *)

(** State.init *)
Definition State_init (key : string) (opts : StateElementOptions.t)
    : M StateElementData :=
  elements <- get_elements ;;
  match Map_get key elements with
  | Some _ => throw (Error "Element already initialized")
  | None =>
      let type := typeof (StateElementOptions.defaultValue opts) in
      if decide (type = TFunction \/ type = TUndefined) then
        throw (unsupported type)
      else
        let config :=
          default StateElementConfig.empty (StateElementOptions.config opts) in
        value <-
          (if truthy (StateElementConfig.useLocalStorage config) then
             cfg <- get_config ;;
             localValue <- localStorage_getItem (prefixKey cfg key) ;;
             match localValue with
             | Some s => valueFromString s type
             | None => ret (StateElementOptions.defaultValue opts)
             end
           else ret (StateElementOptions.defaultValue opts)) ;;
        State_set key value
          (StateElementConfig.merge config
             {| StateElementConfig.useLocalStorage := None;
                StateElementConfig.useEvents := Some false;
                StateElementConfig.onBeforeSet := None;
                StateElementConfig.useRefetchOnFocus := None |}) ;;
        element <- StateElement_new key opts ;;
        modify (fun w => with_elements (Map_set key element (_elements w)) w) ;;
        ret element
  end.

(** State.attach *)
Definition State_attach (key : string) : M StateElementData :=
  elements <- get_elements ;;
  match Map_get key elements with
  | Some element => ret element
  | None => throw (Error "Element not initialized")
  end.

(** ** State: focus resynchronization *)

(** The body of the [forEach] in the focus listener, for one entry of
    [_elements]. *)
Definition refetch (entry : string * StateElementData) : M unit :=
  let '(key, element) := entry in
  when (truthy (StateElementConfig.useLocalStorage (element_config element))
        && truthy (StateElementConfig.useRefetchOnFocus (element_config element)))
    (cfg <- get_config ;;
     localValue <- localStorage_getItem (prefixKey cfg key) ;;
     match localValue with
     | Some s =>
         try_catch
           (value <- valueFromString s (_type element) ;;
            StateElement_set element value)
           console_error
     | None => ret tt
     end).

(** The listener the constructor registers for the window's focus
    event. *)
Definition onFocus : M unit :=
  elements <- get_elements ;;
  for_each elements refetch.

(** The window gains focus. *)
Definition window_focus : M unit :=
  fun w => if focus_listener w then onFocus w else (Normal tt, w).

(** ** State: construction *)

(** The world before [new State(...)] runs: the field initializers of
    the class, over a host with the given local storage and number of
    symbols already created. *)
Definition new_world (stored : gmap string string) (symbols : nat) : World :=
  {| _storage := ∅; _elements := []; _config := StateConfig.defaults;
     listeners := []; focus_listener := false;
     localStorage := stored; symbols := symbols; console := [];
     dispatched := []; calls := [] |}.

(** The constructor of State.  [initElements] lists the own properties
    of the record in enumeration order. *)
Definition State_new (config : option StateConfig.t)
    (initElements : option (list (string * StateElementOptions.t))) : M unit :=
  match config with
  | Some c => modify (fun w => with_config (StateConfig.merge (_config w) c) w)
  | None => ret tt
  end ;;
  cfg <- get_config ;;
  when (truthy (StateConfig.useLogs cfg)) (console_log (LogState cfg)) ;;
  match initElements with
  | Some l => for_each l (fun e => State_init (fst e) (snd e) ;; ret tt)
  | None => ret tt
  end ;;
  cfg <- get_config ;;
  when (truthy (StateConfig.useRefetchOnFocus cfg))
    (modify (with_focus_listener true)).

(** ** StateComponent *)

(** The second argument of the constructor: [string[] | boolean], or
    absent. *)
Inductive ElementsArg :=
| ElementsAbsent
| ElementsBoolean (b : bool)
| ElementsKeys (keys : list string).

(** A component: [states] lists the own properties of [this.states],
    which is what [Object.keys] enumerates. *)
Record StateComponentData := {
  component : nat;
  states : list (string * StateElementData);
}.

(** The object [this.states] while the constructor fills it: its own
    properties in property order, and its prototype, where [None] is
    [Object.prototype], with which it is created, and [Some e] is the
    element that an assignment to ["__proto__"] has put in its
    place. *)
Record StatesObject := {
  own_states : list (string * StateElementData);
  states_prototype : option StateElementData;
}.

(** The accessors of StateElement, which have a getter and no
    setter. *)
Definition is_StateElement_getter (k : string) : bool :=
  String.eqb k "defaultValue" || String.eqb k "type" || String.eqb k "config".

(** [this.states[key] = element], in the strict code of a class.  An
    own property is overwritten.  Otherwise the prototype chain
    decides: ["__proto__"] is found as the accessor of
    [Object.prototype], whose setter replaces the prototype of
    [this.states] by the element and creates no property; a name that
    is inherited from an element as an accessor without setter makes
    the assignment throw a TypeError; under any other name, also one
    inherited as a writable data property, an own property is
    created. *)
Definition assign_state (o : StatesObject) (k : string)
    (element : StateElementData) : Completion StatesObject :=
  if existsb (fun p => String.eqb (fst p) k) (own_states o) then
    Normal {| own_states := update_property k element (own_states o);
              states_prototype := states_prototype o |}
  else if String.eqb k "__proto__" then
    Normal {| own_states := own_states o; states_prototype := Some element |}
  else
    match states_prototype o with
    | Some _ =>
        if is_StateElement_getter k then Throw TypeError
        else Normal {| own_states := insert_property k element (own_states o);
                       states_prototype := states_prototype o |}
    | None =>
        Normal {| own_states := insert_property k element (own_states o);
                  states_prototype := states_prototype o |}
    end.

(** [{}], the initial value of [this.states]. *)
Definition empty_states : StatesObject :=
  {| own_states := []; states_prototype := None |}.

(** The loop of the branch [elements === true].  After the assignment,
    [this.states[key]] reads the element back, as an own property or,
    for ["__proto__"], through the getter of [Object.prototype]. *)
Fixpoint bind_all (this : nat) (overrides : bool)
    (elements : list StateElementData)
    (states : StatesObject) (events : list string)
    : M (StatesObject * list string) :=
  match elements with
  | [] => ret (states, events)
  | element :: rest =>
      let k := key element in
      let events := events ++ [k] in
      states <- lift (assign_state states k element) ;;
      (if overrides
       then StateElement_addListener element (HookCallback this k) ;; ret tt
       else ret tt) ;;
      bind_all this overrides rest states events
  end.

(** The [forEach] of the branch for a list of keys. *)
Fixpoint bind_keys (this : nat) (overrides : bool) (keys : list string)
    (states : StatesObject) : M StatesObject :=
  match keys with
  | [] => ret states
  | k :: rest =>
      element <- State_attach k ;;
      states <- lift (assign_state states k element) ;;
      (if overrides
       then StateElement_addListener element (HookCallback this k) ;; ret tt
       else ret tt) ;;
      bind_keys this overrides rest states
  end.

(** The constructor of StateComponent, for the component [this] whose
    class does ([overrides = true]) or does not define its own
    [$onStateChange]. *)
Definition StateComponent_new (this : nat) (overrides : bool)
    (elements : ElementsArg) : M StateComponentData :=
  bound <-
    match elements with
    | ElementsBoolean true =>
        registered <- get_elements ;;
        bound <- bind_all this overrides (map snd registered) empty_states [] ;;
        ret (own_states (fst bound), snd bound)
    | ElementsKeys keys =>
        states <- bind_keys this overrides keys empty_states ;;
        ret (own_states states, keys)
    | ElementsAbsent | ElementsBoolean false =>
        if overrides then
          addEventListener "change" (ChangeListener this) ;;
          ret ([], ["change"%string])
        else ret ([], [])
    end ;;
  cfg <- get_config ;;
  when (truthy (StateConfig.useLogs cfg))
    (console_log (LogStateComponent (map fst (fst bound)) overrides (snd bound))) ;;
  ret {| component := this; states := fst bound |}.

(** StateComponent.$resetAll *)
Definition StateComponent_resetAll (this : StateComponentData) : M unit :=
  for_each (states this) (fun s => StateElement_reset (snd s)).

(** ** Programs over the library *)

(** The calls an application can make on a State, its elements and its
    components, and the focus event of the window. *)
Inductive Op :=
| OpInit (key : string) (opts : StateElementOptions.t)
| OpAttach (key : string)
| OpStateSet (key : string) (value : JsValue) (config : StateElementConfig.t)
| OpStateGet (key : string)
| OpSet (element : StateElementData) (value : JsValue)
| OpReset (element : StateElementData)
| OpGet (element : StateElementData)
| OpAddListener (element : StateElementData) (id : nat)
| OpNewComponent (this : nat) (overrides : bool) (elements : ElementsArg)
| OpResetAll (c : StateComponentData)
| OpFocus.

Definition discard {A} (m : M A) : M unit := m ;; ret tt.

Definition op_method (op : Op) : M unit :=
  match op with
  | OpInit key opts => discard (State_init key opts)
  | OpAttach key => discard (State_attach key)
  | OpStateSet key value config => State_set key value config
  | OpStateGet key => discard (State_get key)
  | OpSet element value => StateElement_set element value
  | OpReset element => StateElement_reset element
  | OpGet element => discard (StateElement_get element)
  | OpAddListener element id =>
      discard (StateElement_addListener element (UserCallback id))
  | OpNewComponent this overrides elements =>
      discard (StateComponent_new this overrides elements)
  | OpResetAll c => StateComponent_resetAll c
  | OpFocus => window_focus
  end.

(** The world after a call, whether it returns or throws, and after a
    sequence of calls. *)
Definition run_op (op : Op) (w : World) : World := snd (op_method op w).

Definition run (ops : list Op) (w : World) : World :=
  fold_left (fun w' op => run_op op w') ops w.

(** Component identities are object identities: a program constructs
    the component [c] at most once. *)
Definition constructs (c : nat) (op : Op) : bool :=
  match op with
  | OpNewComponent this _ _ => Nat.eqb this c
  | _ => false
  end.

(** A program that does not construct component [c]. *)
Definition leaves_alone (c : nat) (ops : list Op) : bool :=
  forallb (fun op => negb (constructs c op)) ops.

(** [this.set(v)] for each value of a list in turn, whatever each call
    returns or throws. *)
Definition run_sets (this : StateElementData) (values : list JsValue)
    (w : World) : World :=
  fold_left (fun w' v => snd (StateElement_set this v w')) values w.

(** ** The steps of [set], [init] and the focus pass *)

(** Does [opts] ask for persistence, as [State.init] reads it. *)
Definition requests_persistence (opts : StateElementOptions.t) : bool :=
  truthy (StateElementConfig.useLocalStorage
            (default StateElementConfig.empty (StateElementOptions.config opts))).

(** The events of one [State.set] that gets past its persistence
    step. *)
Definition announce (key : string) (value : JsValue)
    (config : StateElementConfig.t) (w : World) : World :=
  if truthy (StateElementConfig.useEvents config) then
    if truthy (StateConfig.useChangeEvent (_config w)) then
      dispatch "change" (change_detail key value)
        (dispatch key (CustomEvent_detail value) w)
    else dispatch key (CustomEvent_detail value) w
  else w.

(** The events of one successful [State.set], as a list: the per-key
    event carries the value, or [null] when the value is [undefined];
    the aggregate event carries the object [{ key, value }]. *)
Definition events_of_set (key : string) (value : JsValue)
    (config : StateElementConfig.t) (cfg : StateConfig.t)
    : list (string * JsValue) :=
  if truthy (StateElementConfig.useEvents config) then
    if truthy (StateConfig.useChangeEvent cfg)
    then [(key, CustomEvent_detail value);
          ("change"%string, change_detail key value)]
    else [(key, CustomEvent_detail value)]
  else [].

(** The configuration [{ ...opts.config, useEvents: false }] that
    [State.init] passes to [State.set]. *)
Definition init_config (opts : StateElementOptions.t) : StateElementConfig.t :=
  StateElementConfig.merge
    (default StateElementConfig.empty (StateElementOptions.config opts))
    {| StateElementConfig.useLocalStorage := None;
       StateElementConfig.useEvents := Some false;
       StateElementConfig.onBeforeSet := None;
       StateElementConfig.useRefetchOnFocus := None |}.

(** The value [State.init] starts a slot with: the decoding of the
    persisted string when persistence is requested and there is one,
    the default value otherwise. *)
Definition initial_value (key : string) (opts : StateElementOptions.t) : M JsValue :=
  fun w =>
    if requests_persistence opts then
      match localStorage w !! prefixKey (_config w) key with
      | Some s =>
          valueFromString s (typeof (StateElementOptions.defaultValue opts)) w
      | None => (Normal (StateElementOptions.defaultValue opts), w)
      end
    else (Normal (StateElementOptions.defaultValue opts), w).

(** What the constructor of StateElement and [_elements.set] add to the
    world at the end of [State.init]. *)
Definition register (key : string) (opts : StateElementOptions.t) (w : World) : World :=
  let element := StateElement_fields key opts in
  with_elements (Map_set key element (_elements w))
    (if truthy (StateConfig.useLogs (_config w)) then
       with_console
         (console w ++ [LogStateElement key (_defaultValue element)
                          (_type element) (element_config element)]) w
     else w).

(** Is a slot opted into the focus resynchronization. *)
Definition refetches (element : StateElementData) : bool :=
  truthy (StateElementConfig.useLocalStorage (element_config element))
  && truthy (StateElementConfig.useRefetchOnFocus (element_config element)).

(** Decoding a persisted string under the kind of a slot and applying
    the result through [StateElement.set]. *)
Definition apply_persisted (element : StateElementData) (s : string) : M unit :=
  value <- valueFromString s (_type element) ;;
  StateElement_set element value.

(** Since [w], [console.error] has logged [e]: in [w'] an entry for [e]
    follows the entries the console had in [w]. *)
Definition logged_since (e : JsError) (w w' : World) : Prop :=
  exists entries later,
    console w' = console w ++ entries ++ LogError e :: later.

(** Since [w], the events [events] have been dispatched, in this order
    and one after the other. *)
Definition dispatched_since (events : list (string * JsValue)) (w w' : World)
    : Prop :=
  exists earlier later,
    dispatched w' = dispatched w ++ earlier ++ events ++ later.

(** From [w] to [w'] the persisted string [s] of a slot has been given
    up with the error [err]: the value in memory and the entry in local
    storage are those of [w], and the error has been logged. *)
Definition resync_dropped (element : StateElementData) (s : string)
    (err : JsError) (w w' : World) : Prop :=
  _storage w' !! key element = _storage w !! key element
  /\ localStorage w' !! prefixKey (_config w) (key element) = Some s
  /\ logged_since err w w'.

(** From [w] to [w'] the value [v], decoded from the persisted string
    [s] of a slot, has gone through [element.set].  A value of another
    kind than the slot's is given up with the error of the kind check,
    and so is a value on which [onBeforeSet] throws.  Otherwise what
    [onBeforeSet] returns, or [v] itself without hook, is the value in
    memory; when it can be encoded, the encoding is the entry in local
    storage and the events of the slot have been dispatched; when it
    cannot, the entry is still [s] and the error has been logged. *)
Definition resync_applied (element : StateElementData) (s : string)
    (v : JsValue) (w w' : World) : Prop :=
  if decide (typeof v <> _type element) then
    resync_dropped element s (type_mismatch (_type element) (typeof v)) w w'
  else
    match match StateElementConfig.onBeforeSet (element_config element) with
          | Some onBeforeSet => onBeforeSet v
          | None => Normal v
          end with
    | Normal v' =>
        _storage w' !! key element = Some v'
        /\ match valueToString v' with
           | Normal s' =>
               localStorage w' !! prefixKey (_config w) (key element) = Some s'
               /\ dispatched_since
                    (events_of_set (key element) v' (element_config element)
                       (_config w)) w w'
           | Throw err =>
               localStorage w' !! prefixKey (_config w) (key element) = Some s
               /\ logged_since err w w'
           end
    | Throw err => resync_dropped element s err w w'
    end.

(** Persisting a value and reloading it: [valueToString] followed by
    [valueFromString] under the kind of the value, which is the kind
    its slot records. *)
Definition reload (value : JsValue) : M JsValue :=
  s <- lift (valueToString value) ;;
  valueFromString s (typeof value).

(** ** Components and the calls they receive *)

(** The listeners that call the hook of component [c], and the calls
    its hook has received. *)
Definition owned (c : nat) (l : string * Listener) : bool :=
  match snd l with
  | ElementListener (HookCallback c' _) => Nat.eqb c' c
  | ElementListener (UserCallback _) => false
  | ChangeListener c' => Nat.eqb c' c
  end.

Definition owned_listeners (c : nat) (w : World) : list (string * Listener) :=
  List.filter (owned c) (listeners w).

Definition is_hook_call (c : nat) (x : Call) : bool :=
  match x with
  | HookCall c' _ _ => Nat.eqb c' c
  | UserCall _ _ => false
  end.

Definition received (c : nat) (w : World) : list Call :=
  List.filter (is_hook_call c) (calls w).

(** The calls one listener makes on an event with the given detail,
    and the calls made when an event is delivered to a list of
    listeners. *)
Definition listener_calls (l : Listener) (detail : JsValue) : list Call :=
  match l with
  | ElementListener (HookCallback c k) => [HookCall c (VString k) detail]
  | ElementListener (UserCallback id) => [UserCall id detail]
  | ChangeListener c =>
      match get_property detail "key", get_property detail "value" with
      | Normal k, Normal v => [HookCall c k v]
      | _, _ => []
      end
  end.

Definition delivered (type : string) (detail : JsValue)
    (ls : list (string * Listener)) : list Call :=
  flat_map (fun l => if String.eqb (fst l) type
                     then listener_calls (snd l) detail else []) ls.

(** The per-key listeners a component attaches for a list of keys. *)
Definition hook_listeners (c : nat) (keys : list string) : list (string * Listener) :=
  map (fun k => (k, ElementListener (HookCallback c k))) keys.

(** [element.set(v)] returns, on a slot whose config enables events. *)
Definition announced_set (element : StateElementData) (v : JsValue) (w : World) : Prop :=
  fst (StateElement_set element v w) = Normal tt
  /\ truthy (StateElementConfig.useEvents (element_config element)) = true.

(** During [element.set(v)] the hook of component [c] is called exactly
    once, with the key of the slot and what the listener [passed] it of
    the value the call stored: the detail of the per-key event for a
    per-key listener, the [value] of the aggregate detail for the
    aggregate listener. *)
Definition hook_called_once (passed : JsValue -> JsValue) (c : nat)
    (element : StateElementData) (v : JsValue) (w : World) : Prop :=
  let w' := snd (StateElement_set element v w) in
  exists stored,
    _storage w' !! key element = Some stored
    /\ received c w'
       = received c w ++ [HookCall c (VString (key element)) (passed stored)].

(** ** Relations between the world before and after a method *)

(** Every run of [m] relates the world it starts in to the world it
    leaves, whether it returns or throws. *)
Definition preserves {A} (R : World -> World -> Prop) (m : M A) : Prop :=
  forall w, R w (snd (m w)).

(** Nothing that concerns component [c] happens: its listeners stay
    the same and, when it has none, its hook receives no call. *)
Definition quiet (c : nat) (w w' : World) : Prop :=
  owned_listeners c w' = owned_listeners c w
  /\ (owned_listeners c w = [] -> received c w' = received c w).

(** The entries of [_elements] are as [State.init] makes them: one per
    key, each holding the element constructed for that key. *)
Definition consistent (w : World) : Prop :=
  NoDup (map fst (_elements w))
  /\ Forall (fun entry => key (snd entry) = fst entry) (_elements w).

(** Consistency of [_elements] is kept from one world to the next. *)
Definition stays_consistent (w w' : World) : Prop :=
  consistent w -> consistent w'.

(** ** Statements about the codec *)

(** The values JSON.parse builds: no [undefined], BigInt, symbol or
    function anywhere. *)
Fixpoint json_value (v : JsValue) : Prop :=
  match v with
  | VNull | VBoolean _ | VNumber _ | VString _ => True
  | VUndefined | VBigInt _ | VSymbol _ _ | VFunction _ => False
  | VArray elements =>
      (fix all (l : list JsValue) : Prop :=
         match l with
         | [] => True
         | e :: r => json_value e /\ all r
         end) elements
  | VObject properties =>
      (fix all (l : list (string * JsValue)) : Prop :=
         match l with
         | [] => True
         | p :: r => json_value (snd p) /\ all r
         end) properties
  end.

(** The loops of SerializeJSONProperty over the elements of an array
    and the properties of an object, by name. *)
Fixpoint SerializeJSONArray (l : list JsValue) : Completion (list chars) :=
  match l with
  | [] => Normal []
  | e :: r =>
      match SerializeJSONProperty e with
      | Throw err => Throw err
      | Normal o =>
          match SerializeJSONArray r with
          | Throw err => Throw err
          | Normal parts => Normal (default (unstr "null") o :: parts)
          end
      end
  end.

Fixpoint SerializeJSONObject (l : list (string * JsValue)) : Completion (list chars) :=
  match l with
  | [] => Normal []
  | (k, e) :: r =>
      match SerializeJSONProperty e with
      | Throw err => Throw err
      | Normal o =>
          match SerializeJSONObject r with
          | Throw err => Throw err
          | Normal parts =>
              Normal match o with
                     | Some t => (QuoteJSONString k ++ ":"%char :: t) :: parts
                     | None => parts
                     end
          end
      end
  end.

(** What may follow a numeral inside a JSON text: not a character that
    would continue it. *)
Definition ends_number (rest : chars) : Prop :=
  match rest with
  | [] => True
  | c :: _ =>
      is_digit c = false /\ c <> "."%char /\ c <> "e"%char /\ c <> "E"%char
  end.

(** No character of [rest] continues a run of digits. *)
Definition ends_digits (rest : chars) : Prop :=
  match rest with
  | [] => True
  | c :: _ => is_digit c = false
  end.

(** The numeral Number::toString prints for a positive finite Number,
    and the exponent part of its scientific form. *)
Definition numeral (ds : chars) (n : Z) : chars :=
  Number_toString (Finite false ds n).

Definition printed_exponent (e : Z) : chars :=
  "e"%char :: (if e <? 0 then "-"%char else "+"%char) :: digits_of_N (Z.abs_N e).

Definition sign_chars (neg : bool) : chars := if neg then ["-"%char] else [].

(** A JSON numeral assembled from its parts: integer digits, optional
    fraction digits, optional exponent. *)
Definition json_numeral (int : chars) (frac : option chars) (e : option Z) : chars :=
  int ++ from_option (fun f => "."%char :: f) [] frac
      ++ from_option printed_exponent [] e.

(** The order in which an ordinary object lists its own properties:
    every name stays before the names after it. *)
Fixpoint property_order (ks : list string) : Prop :=
  match ks with
  | [] => True
  | k :: r => Forall (fun k2 => stays_before k k2 = true) r /\ property_order r
  end.

(** The values that JSON represents exactly: null, booleans, strings,
    finite Numbers other than negative zero, arrays of such values, and
    objects with distinct property names, listed in property order,
    whose values are such values. *)
Fixpoint json_data (v : JsValue) : Prop :=
  match v with
  | VNull | VBoolean _ | VString _ => True
  | VNumber x => is_finite x = true /\ wf_number x /\ x <> Zero true
  | VUndefined | VBigInt _ | VSymbol _ _ | VFunction _ => False
  | VArray elements =>
      (fix all (l : list JsValue) : Prop :=
         match l with
         | [] => True
         | e :: r => json_data e /\ all r
         end) elements
  | VObject properties =>
      NoDup (map fst properties) /\ property_order (map fst properties)
      /\ (fix all (l : list (string * JsValue)) : Prop :=
            match l with
            | [] => True
            | p :: r => json_data (snd p) /\ all r
            end) properties
  end.

(** The number of nested calls JSON.parse needs for a value. *)
Fixpoint size (v : JsValue) : nat :=
  match v with
  | VArray elements =>
      S ((fix sum (l : list JsValue) : nat :=
            match l with
            | [] => O
            | e :: r => (S (size e) + sum r)%nat
            end) elements)
  | VObject properties =>
      S ((fix sum (l : list (string * JsValue)) : nat :=
            match l with
            | [] => O
            | p :: r => (S (size (snd p)) + sum r)%nat
            end) properties)
  | _ => 1%nat
  end.

Definition sizes (l : list JsValue) : nat :=
  list_sum (map (fun e => S (size e)) l).

(** A text that begins like a JSON value. *)
Definition starts_value (t : chars) : Prop :=
  match t with
  | [] => False
  | c :: _ => is_json_ws c = false /\ c <> "]"%char /\ c <> "}"%char
  end.

(** JSON.stringify prints [v] as a text that JSON.parse reads back as
    [v], with what follows the text left over. *)
Definition reads_back (v : JsValue) : Prop :=
  exists t,
    SerializeJSONProperty v = Normal (Some t)
    /\ starts_value t
    /\ (size v <= length t)%nat
    /\ forall fuel rest,
         (size v < fuel)%nat -> ends_number rest ->
         parse_value fuel (t ++ rest) = Parsed v rest.

(** ** Sample values, options and worlds *)

Definition num (n : N) : JsValue := VNumber (number_of_N n).

Definition plain (defaultValue : JsValue) : StateElementOptions.t :=
  {| StateElementOptions.defaultValue := defaultValue;
     StateElementOptions.config := None |}.

Definition element_options (defaultValue : JsValue)
    (useLocalStorage useEvents : bool)
    (onBeforeSet : option (JsValue -> Completion JsValue))
    : StateElementOptions.t :=
  {| StateElementOptions.defaultValue := defaultValue;
     StateElementOptions.config :=
       Some {| StateElementConfig.useLocalStorage := Some useLocalStorage;
               StateElementConfig.useEvents := Some useEvents;
               StateElementConfig.onBeforeSet := onBeforeSet;
               StateElementConfig.useRefetchOnFocus := None |} |}.

Definition state_options (useChangeEvent : bool) (prefix : string) : StateConfig.t :=
  {| StateConfig.useChangeEvent := Some useChangeEvent;
     StateConfig.useLogs := None;
     StateConfig.prefix := Some prefix;
     StateConfig.useRefetchOnFocus := None |}.

(** The world a program reaches by running [m] after [new State(config,
    initElements)] on a host with the given local storage. *)
Definition world_after {A} (stored : gmap string string)
    (config : option StateConfig.t)
    (initElements : option (list (string * StateElementOptions.t)))
    (m : M A) : World :=
  snd ((State_new config initElements ;; m) (new_world stored 0)).

(** [new State({}, { test: { defaultValue: 123 } })], as in the tests. *)
Definition world_test : World :=
  world_after ∅ (Some StateConfig.empty) (Some [("test"%string, plain (num 123))])
    (ret tt).

(** A State whose prefix is ["app"], and the configuration of a slot
    that only asks for persistence. *)
Definition world_app (stored : gmap string string) : World :=
  world_after stored (Some (state_options false "app")) None (ret tt).

Definition persistent : StateElementConfig.t :=
  {| StateElementConfig.useLocalStorage := Some true;
     StateElementConfig.useEvents := None;
     StateElementConfig.onBeforeSet := None;
     StateElementConfig.useRefetchOnFocus := None |}.

(** A persisted slot of kind object and an object that JSON.stringify
    rejects. *)
Definition object_slot : StateElementData :=
  StateElement_fields "o" (element_options (VObject []) true false None).

Definition object_with_bigint : JsValue :=
  VObject [("a"%string, VBigInt 1)].

Definition world_object : World :=
  world_after ∅ None
    (Some [("o"%string, element_options (VObject []) true false None)]) (ret tt).

(** A slot with default 0 whose [onBeforeSet] returns 1 for every
    value. *)
Definition always_one : JsValue -> Completion JsValue := fun _ => Normal (num 1).

Definition hooked_options : StateElementOptions.t :=
  element_options (num 0) false false (Some always_one).

Definition world_hooked : World :=
  world_after ∅ None (Some [("n"%string, hooked_options)]) (ret tt).

(** [new State({ useChangeEvent: true }, { test: { defaultValue: 123,
    config: { useEvents: true } } })] and the element it registers. *)
Definition events_options : StateElementOptions.t :=
  element_options (num 123) false true None.

Definition world_events : World :=
  world_after ∅ (Some (state_options true ""))
    (Some [("test"%string, events_options)]) (ret tt).

Definition test_element : StateElementData :=
  StateElement_fields "test" events_options.

(** Two persisted slots, and the local storage as another tab left it:
    a malformed text for the first slot, a new value for the second. *)
Definition world_two_slots : World :=
  world_after ∅ None
    (Some [("a"%string, element_options (VObject []) true false None);
           ("b"%string, element_options (num 1) true false None)]) (ret tt).

Definition world_other_tab : World :=
  with_localStorage (<["a"%string := "{oops"%string]>
                       (<["b"%string := "2"%string]> (localStorage world_two_slots)))
    world_two_slots.

(** A persisted slot whose default is the BigInt 1, on a host where
    the string ["7"] is stored for it. *)
Definition bigint_options : StateElementOptions.t :=
  element_options (VBigInt 1) true false None.

Definition world_stored_7 : World := new_world {[ "b"%string := "7"%string ]} 0.

(** A sample of JSON data:
    [{ "1": [1.5, "x"], "name": null, "ok": true }]. *)
Definition sample_object : JsValue :=
  VObject [("1"%string, VArray [VNumber (Finite false (unstr "15") 1); VString "x"]);
           ("name"%string, VNull);
           ("ok"%string, VBoolean true)].

(** ** Further statements about the library *)


(** Every registered key has an entry in [_storage]. *)
Definition registered_stored (w : World) : Prop :=
  forall k, is_Some (Map_get k (_elements w)) -> is_Some (_storage w !! k).

(** From [w] to [w'] nothing is taken back: the configuration and the
    registration of the focus listener are the same; elements,
    listeners, console entries, dispatched events and calls are only
    added, after those that were there; no key disappears from the
    in-memory map or from local storage; no symbol is forgotten. *)
Definition extends (w w' : World) : Prop :=
  _config w' = _config w
  /\ focus_listener w' = focus_listener w
  /\ _elements w `prefix_of` _elements w'
  /\ listeners w `prefix_of` listeners w'
  /\ dom (_storage w) ⊆ dom (_storage w')
  /\ dom (localStorage w) ⊆ dom (localStorage w')
  /\ (symbols w <= symbols w')%nat
  /\ console w `prefix_of` console w'
  /\ dispatched w `prefix_of` dispatched w'
  /\ calls w `prefix_of` calls w'.

(** Every registered key keeps having a stored value from one world to
    the next. *)
Definition stays_stored (w w' : World) : Prop :=
  registered_stored w -> registered_stored w'.

(** The slot [k] is left alone from [w] to [w']: its value in memory
    and its entry in local storage are the same, and so is the
    configuration of the State. *)
Definition slot_untouched (k : string) (w w' : World) : Prop :=
  _storage w' !! k = _storage w !! k
  /\ localStorage w' !! prefixKey (_config w) k
     = localStorage w !! prefixKey (_config w) k
  /\ _config w' = _config w.

(** How many times a key is listed. *)
Definition occurrences (k : string) (keys : list string) : nat :=
  length (List.filter (fun k' => String.eqb k' k) keys).

(** Is [k] registered in the State. *)
Definition registered (w : World) (k : string) : Prop :=
  is_Some (Map_get k (_elements w)).

(** [reset()] on this element cannot throw: there is no hook, the
    default value has the recorded kind, and when the slot is persisted
    the default value can be encoded. *)
Definition resets_cleanly (e : StateElementData) : bool :=
  match StateElementConfig.onBeforeSet (element_config e) with
  | Some _ => false
  | None =>
      bool_decide (typeof (_defaultValue e) = _type e)
      && (negb (truthy (StateElementConfig.useLocalStorage (element_config e)))
          || match valueToString (_defaultValue e) with
             | Normal _ => true
             | Throw _ => false
             end)
  end.


(** Keys whose assignments to [this.states] cannot throw: ["__proto__"]
    is not among them, or none of them names a getter of
    StateElement. *)
Definition assignable (keys : list string) : bool :=
  negb (existsb (String.eqb "__proto__") keys)
  || forallb (fun k => negb (is_StateElement_getter k)) keys.

(** A State in which the keys ["__proto__"] and ["config"] have been
    registered with [init]. *)
Definition world_proto : World :=
  world_after ∅ None None
    (State_init "__proto__" (plain (num 0)) ;; State_init "config" (plain (num 0))).

(** A slot with events on whose [onBeforeSet] returns [undefined], in a
    State with aggregate events on. *)
Definition undefined_options : StateElementOptions.t :=
  element_options (num 0) false true (Some (fun _ => Normal VUndefined)).

Definition world_undefined : World :=
  world_after ∅ (Some (state_options true ""))
    (Some [("u"%string, undefined_options)]) (ret tt).
(** * Properties *)

(** ** Number::toString on sample values *)

Example toString_123 :
  str (Number_toString (Finite false (unstr "123") 3)) = "123".
Proof. reflexivity. Qed.
Example toString_1e21 :
  str (Number_toString (Finite false (unstr "1") 22)) = "1e+21".
Proof. reflexivity. Qed.
Example toString_small :
  str (Number_toString (Finite true (unstr "15") (-6))) = "-1.5e-7".
Proof. reflexivity. Qed.
Example toString_frac :
  str (Number_toString (Finite false (unstr "12345") 3)) = "123.45".
Proof. reflexivity. Qed.
Example toString_micro :
  str (Number_toString (Finite false (unstr "1") (-5))) = "0.000001".
Proof. reflexivity. Qed.
Example toString_big :
  str (Number_toString (Finite false (unstr "12") 21)) = "120000000000000000000".
Proof. reflexivity. Qed.

(** ** The readers of numerals and JSON texts on sample inputs *)

Example parseFloat_samples :
  parseFloat "  -1.5e-7xyz" = Finite true (unstr "15") (-6)
  /\ parseFloat "0012.3400" = Finite false (unstr "1234") 2
  /\ parseFloat ".5" = Finite false (unstr "5") 0
  /\ parseFloat "5." = Finite false (unstr "5") 1
  /\ parseFloat "1e" = Finite false (unstr "1") 1
  /\ parseFloat "-0" = Zero true
  /\ parseFloat "-Infinityx" = Infinity true
  /\ parseFloat "." = NaN
  /\ parseFloat "abc" = NaN.
Proof. repeat split; reflexivity. Qed.

Example StringToNumber_samples :
  StringToNumber "" = Zero false
  /\ StringToNumber " 12 " = Finite false (unstr "12") 2
  /\ StringToNumber "0x1F" = Finite false (unstr "31") 2
  /\ StringToNumber "0b101" = Finite false (unstr "5") 1
  /\ StringToNumber "-0x1" = NaN
  /\ StringToNumber "12px" = NaN.
Proof. repeat split; reflexivity. Qed.

Example JSON_stringify_sample :
  JSON_stringify
    (VObject [("a"%string, VNumber (Finite false (unstr "15") 1));
              ("b"%string, VUndefined);
              ("c"%string, VArray [VUndefined; VNull; VNumber NaN]);
              ("d"%string, VObject [])])
  = Normal (Some (str (unstr "{" ++ QuoteJSONString "a" ++ unstr ":1.5,"
                       ++ QuoteJSONString "c" ++ unstr ":[null,null,null],"
                       ++ QuoteJSONString "d" ++ unstr ":{}}"))).
Proof. reflexivity. Qed.

Example JSON_parse_samples :
  JSON_parse " [1 , -0, 1e3 ] "
    = Normal (VArray [VNumber (Finite false (unstr "1") 1); VNumber (Zero true);
                      VNumber (Finite false (unstr "1") 4)])
  /\ JSON_parse (str (unstr "{" ++ QuoteJSONString "b" ++ unstr ":1,"
                       ++ QuoteJSONString "2" ++ unstr ":[],"
                       ++ QuoteJSONString "b" ++ unstr ":null}"))
     = Normal (VObject [("2"%string, VArray []); ("b"%string, VNull)])
  /\ JSON_parse "01" = Throw SyntaxError
  /\ JSON_parse "1." = Throw SyntaxError
  /\ JSON_parse "[1,]" = Throw SyntaxError
  /\ JSON_parse "" = Throw SyntaxError
  /\ JSON_parse "{}x" = Throw SyntaxError.
Proof. repeat split; vm_compute; reflexivity. Qed.

(** ** Tactics for the monad *)

Ltac unfold_monad :=
  unfold console_error in *;
  unfold console_log, localStorage_getItem, localStorage_setItem,
    addEventListener, dispatchEvent, get_config, get_elements in *;
  unfold bind, ret, throw, lift, modify, when, try_catch in *.

(** ** C8: duplicate and unknown keys *)

(** C8.  On every State, [init] with a key that is already registered
    throws the duplicate-key error ("Element already initialized") and
    [attach] with a key that was never registered throws the
    unknown-key error ("Element not initialized"); in both cases the
    world, and with it the map of elements, is left as it was. *)
Theorem C8_init_registered_attach_unregistered (w : World) :
  (forall key opts,
     is_Some (Map_get key (_elements w)) ->
     State_init key opts w = (Throw (Error "Element already initialized"), w)
     /\ _elements (snd (State_init key opts w)) = _elements w)
  /\
  (forall key,
     Map_get key (_elements w) = None ->
     State_attach key w = (Throw (Error "Element not initialized"), w)
     /\ _elements (snd (State_attach key w)) = _elements w).
Proof.
  split.
  - intros k opts [element Hreg].
    assert (State_init k opts w = (Throw (Error "Element already initialized"), w)) as ->.
    { unfold State_init. unfold_monad. by rewrite Hreg. }
    done.
  - intros k Hnone.
    assert (State_attach k w = (Throw (Error "Element not initialized"), w)) as ->.
    { unfold State_attach. unfold_monad. by rewrite Hnone. }
    done.
Qed.

Lemma C8_witness :
  (State_init "test" (plain (num 7)) world_test
     = (Throw (Error "Element already initialized"), world_test)
   /\ _elements (snd (State_init "test" (plain (num 7)) world_test))
      = _elements world_test)
  /\
  (State_attach "other" world_test
     = (Throw (Error "Element not initialized"), world_test)
   /\ _elements (snd (State_attach "other" world_test)) = _elements world_test).
Proof.
  split.
  - apply (proj1 (C8_init_registered_attach_unregistered world_test)).
    vm_compute. eauto.
  - apply (proj2 (C8_init_registered_attach_unregistered world_test)).
    vm_compute. reflexivity.
Defined.

(** ** What the methods leave untouched *)

Lemma invoke_frame l detail w :
  invoke l detail w = with_calls (calls (invoke l detail w)) w.
Proof.
  destruct w, l as [[c k|id]|c]; simpl; try reflexivity.
  destruct (get_property detail "key"), (get_property detail "value"); reflexivity.
Qed.

Lemma deliver_frame type detail ls w :
  deliver type detail ls w = with_calls (calls (deliver type detail ls w)) w.
Proof.
  unfold deliver. revert w. induction ls as [|l ls IH]; intros w; simpl.
  - by destruct w.
  - rewrite IH. destruct (String.eqb (fst l) type); [|done].
    generalize (invoke_frame (snd l) detail w).
    generalize (invoke (snd l) detail w). intros w' ->. reflexivity.
Qed.

Lemma dispatch_frame type detail w :
  dispatch type detail w =
  with_calls (calls (dispatch type detail w))
    (with_dispatched (dispatched w ++ [(type, detail)]) w).
Proof. unfold dispatch. by rewrite deliver_frame at 1. Qed.

Lemma dispatch_fields type detail w :
  _storage (dispatch type detail w) = _storage w
  /\ _elements (dispatch type detail w) = _elements w
  /\ _config (dispatch type detail w) = _config w
  /\ listeners (dispatch type detail w) = listeners w
  /\ focus_listener (dispatch type detail w) = focus_listener w
  /\ localStorage (dispatch type detail w) = localStorage w
  /\ symbols (dispatch type detail w) = symbols w
  /\ console (dispatch type detail w) = console w
  /\ dispatched (dispatch type detail w) = dispatched w ++ [(type, detail)].
Proof. rewrite dispatch_frame. by destruct w. Qed.

Lemma State_set_unfold key value config w :
  State_set key value config w =
  let w1 := with_storage (<[key := value]> (_storage w)) w in
  if truthy (StateElementConfig.useLocalStorage config) then
    match valueToString value with
    | Normal s =>
        (Normal tt,
         announce key value config
           (with_localStorage (<[prefixKey (_config w) key := s]> (localStorage w)) w1))
    | Throw e => (Throw e, w1)
    end
  else (Normal tt, announce key value config w1).
Proof.
  unfold State_set, announce. unfold_monad. simpl.
  destruct (truthy (StateElementConfig.useLocalStorage config)).
  - destruct (valueToString value) as [s|e]; simpl; [|done].
    destruct (truthy (StateElementConfig.useEvents config)); simpl; [|done].
    destruct (dispatch_fields key (CustomEvent_detail value)
      (with_localStorage (<[prefixKey (_config w) key:=s]> (localStorage w))
         (with_storage (<[key:=value]> (_storage w)) w))) as (_ & _ & -> & _).
    simpl. by destruct (truthy (StateConfig.useChangeEvent (_config w))).
  - destruct (truthy (StateElementConfig.useEvents config)); simpl; [|done].
    destruct (dispatch_fields key (CustomEvent_detail value)
         (with_storage (<[key:=value]> (_storage w)) w)) as (_ & _ & -> & _).
    simpl. by destruct (truthy (StateConfig.useChangeEvent (_config w))).
Qed.

Lemma announce_init_config key value opts w :
  announce key value (init_config opts) w = w.
Proof. reflexivity. Qed.

Lemma init_config_useLocalStorage opts :
  truthy (StateElementConfig.useLocalStorage (init_config opts))
  = requests_persistence opts.
Proof.
  unfold init_config, requests_persistence. simpl.
  by destruct (StateElementConfig.useLocalStorage _).
Qed.

(** [State.init] on an unregistered key with a default of a supported
    kind: resolve the initial value, store it, register the element. *)
Lemma State_init_unfold key opts w :
  Map_get key (_elements w) = None ->
  StorageValueType (typeof (StateElementOptions.defaultValue opts)) ->
  State_init key opts w =
  match initial_value key opts w with
  | (Normal value, w1) =>
      match State_set key value (init_config opts) w1 with
      | (Normal _, w2) => (Normal (StateElement_fields key opts), register key opts w2)
      | (Throw e, w2) => (Throw e, w2)
      end
  | (Throw e, w1) => (Throw e, w1)
  end.
Proof.
  intros Hnone [Hu Hf]. unfold State_init, initial_value, requests_persistence.
  unfold bind at 1. unfold get_elements at 1. rewrite Hnone.
  destruct (decide _) as [[?|?]|_]; [done..|].
  fold (init_config opts).
  unfold bind at 1.
  set (start := if truthy _ then _ else _).
  assert (start w =
    (if truthy (StateElementConfig.useLocalStorage
         (default StateElementConfig.empty (StateElementOptions.config opts)))
     then match localStorage w !! prefixKey (_config w) key with
          | Some s => valueFromString s (typeof (StateElementOptions.defaultValue opts)) w
          | None => (Normal (StateElementOptions.defaultValue opts), w)
          end
     else (Normal (StateElementOptions.defaultValue opts), w))) as ->.
  { subst start. destruct (truthy _); [|done]. unfold_monad.
    by destruct (localStorage w !! prefixKey (_config w) key). }
  match goal with |- context [if ?b then ?x else ?y] => destruct (if b then x else y) as [[value|e] w1] end; [|done].
  unfold bind at 1.
  destruct (State_set key value (init_config opts) w1) as [[[]|e] w2]; [|done].
  unfold StateElement_new, register. unfold_monad.
  by destruct (truthy (StateConfig.useLogs (_config w2))).
Qed.

(** ** C9: the key under which a slot is persisted *)

(** C9 as stated does not hold: with the prefix ["app"] the slot ["k"]
    is not persisted under the concatenation ["appk"] but under
    ["app-k"], and a string stored under ["appk"] is not loaded by
    [init] while one stored under ["app-k"] is. *)
Lemma C9_counterexample :
  let stored := localStorage (snd (State_set "k" (VString "v") persistent (world_app ∅))) in
  let loaded (host : gmap string string) :=
    _storage (snd (State_init "k" (element_options (VString "d") true false None)
                     (world_app host))) !! "k" in
  stored !! ("app" +:+ "k") = None
  /\ stored !! "app-k" = Some "v"
  /\ loaded {[ "app" +:+ "k" := "old" ]} = Some (VString "d")
  /\ loaded {[ "app-k" := "old" ]} = Some (VString "old").
Proof. vm_compute. done. Qed.

(** C9, amended.  Persisted values are stored to and loaded from local
    storage under [prefixKey key]: the slot key itself when the prefix
    is empty (the default) or absent, and otherwise the prefix, a
    hyphen and the slot key.  [State.set] with persistence writes the
    encoding of the value there, and [State.init] with persistence
    requested starts the slot from the decoding of the string found
    there, or from the default value when there is none. *)
Theorem C9_persisted_under_prefixKey (w : World) (key : string) :
  let cfg := _config w in
  (* the storage key *)
  (StateConfig.prefix cfg = None \/ StateConfig.prefix cfg = Some "" ->
     prefixKey cfg key = key)
  /\ (forall p, StateConfig.prefix cfg = Some p -> p <> "" ->
        prefixKey cfg key = p +:+ "-" +:+ key)
  /\ prefixKey StateConfig.defaults key = key
  (* storing *)
  /\ (forall value config s,
        truthy (StateElementConfig.useLocalStorage config) = true ->
        valueToString value = Normal s ->
        localStorage (snd (State_set key value config w))
        = <[prefixKey cfg key := s]> (localStorage w))
  (* loading *)
  /\ (forall opts,
        Map_get key (_elements w) = None ->
        StorageValueType (typeof (StateElementOptions.defaultValue opts)) ->
        requests_persistence opts = true ->
        match localStorage w !! prefixKey cfg key with
        | Some s =>
            forall value w1,
              valueFromString s (typeof (StateElementOptions.defaultValue opts)) w
              = (Normal value, w1) ->
              _storage (snd (State_init key opts w)) !! key = Some value
        | None =>
            _storage (snd (State_init key opts w)) !! key
            = Some (StateElementOptions.defaultValue opts)
        end).
Proof.
  simpl. repeat split.
  - unfold prefixKey. by intros [-> | ->].
  - intros p Hp Hne. unfold prefixKey. rewrite Hp.
    destruct (String.eqb_spec p ""); done.
  - intros value config s Hls Hs. rewrite State_set_unfold. simpl.
    rewrite Hls, Hs. simpl. unfold announce.
    destruct (truthy (StateElementConfig.useEvents config)); [|done].
    simpl. destruct (truthy (StateConfig.useChangeEvent (_config w))).
    + destruct (dispatch_fields "change" (change_detail key value)
        (dispatch key (CustomEvent_detail value)
          (with_localStorage (<[prefixKey (_config w) key:=s]> (localStorage w))
             (with_storage (<[key:=value]> (_storage w)) w))))
        as (_ & _ & _ & _ & _ & -> & _).
      by destruct (dispatch_fields key (CustomEvent_detail value)
          (with_localStorage (<[prefixKey (_config w) key:=s]> (localStorage w))
             (with_storage (<[key:=value]> (_storage w)) w)))
        as (_ & _ & _ & _ & _ & -> & _).
    + by destruct (dispatch_fields key (CustomEvent_detail value)
          (with_localStorage (<[prefixKey (_config w) key:=s]> (localStorage w))
             (with_storage (<[key:=value]> (_storage w)) w)))
        as (_ & _ & _ & _ & _ & -> & _).
  - intros opts Hnone Hty Hreq.
    rewrite (State_init_unfold _ _ _ Hnone Hty).
    unfold initial_value. rewrite Hreq.
    assert (forall value w1,
      _storage (snd (match State_set key value (init_config opts) w1 with
                     | (Normal _, w2) =>
                         (Normal (StateElement_fields key opts), register key opts w2)
                     | (Throw e, w2) => (Throw e, w2)
                     end)) !! key = Some value) as Hstored.
    { intros value w1. rewrite State_set_unfold. cbv zeta.
      rewrite init_config_useLocalStorage, Hreq.
      destruct (valueToString value).
      - rewrite announce_init_config. unfold register.
        destruct (truthy (StateConfig.useLogs _)); simpl; apply lookup_insert_eq.
      - apply lookup_insert_eq. }
    destruct (localStorage w !! prefixKey (_config w) key) as [s|].
    + intros value w1 ->. apply Hstored.
    + apply Hstored.
Qed.

Lemma C9_witness :
  prefixKey (_config (world_app {[ "app-k" := "old" ]})) "k" = "app" +:+ "-" +:+ "k"
  /\ localStorage (snd (State_set "k" (VString "v") persistent
                          (world_app {[ "app-k" := "old" ]})))
     = <[prefixKey (_config (world_app {[ "app-k" := "old" ]})) "k" := "v"]>
         (localStorage (world_app {[ "app-k" := "old" ]}))
  /\ _storage (snd (State_init "k" (element_options (VString "d") true false None)
                      (world_app {[ "app-k" := "old" ]}))) !! "k"
     = Some (VString "old").
Proof.
  destruct (C9_persisted_under_prefixKey (world_app {[ "app-k" := "old" ]}) "k")
    as (_ & Hprefix & _ & Hstore & Hload).
  split; [|split].
  - apply (Hprefix "app"); [reflexivity | discriminate].
  - apply Hstore; reflexivity.
  - specialize (Hload (element_options (VString "d") true false None)).
    assert (localStorage (world_app {[ "app-k" := "old" ]})
              !! prefixKey (_config (world_app {[ "app-k" := "old" ]})) "k"
            = Some "old") as Hfound by (vm_compute; reflexivity).
    rewrite Hfound in Hload.
    assert (Map_get "k" (_elements (world_app {[ "app-k" := "old" ]})) = None)
      as Hnew by (vm_compute; reflexivity).
    assert (StorageValueType
              (typeof (StateElementOptions.defaultValue
                         (element_options (VString "d") true false None))))
      as Hkind by (split; discriminate).
    specialize (Hload Hnew Hkind eq_refl (VString "old")
                  (world_app {[ "app-k" := "old" ]})).
    apply Hload. reflexivity.
Defined.

(** ** Events and the calls they cause *)

Lemma invoke_calls l detail w :
  calls (invoke l detail w) = calls w ++ listener_calls l detail.
Proof.
  destruct l as [[c k|id]|c]; simpl; try done.
  destruct (get_property detail "key"), (get_property detail "value");
    simpl; by rewrite ?app_nil_r.
Qed.

Lemma deliver_calls type detail ls w :
  calls (deliver type detail ls w) = calls w ++ delivered type detail ls.
Proof.
  unfold deliver, delivered. revert w.
  induction ls as [|l ls IH]; intros w; simpl.
  - by rewrite app_nil_r.
  - rewrite IH. destruct (String.eqb (fst l) type).
    + by rewrite invoke_calls, <- app_assoc.
    + done.
Qed.

Lemma dispatch_eq type detail w :
  dispatch type detail w =
  with_calls (calls w ++ delivered type detail (listeners w))
    (with_dispatched (dispatched w ++ [(type, detail)]) w).
Proof.
  rewrite dispatch_frame. unfold dispatch at 1. by rewrite deliver_calls.
Qed.

Lemma announce_eq key value config w :
  announce key value config w =
  let events := events_of_set key value config (_config w) in
  with_calls
    (calls w ++ flat_map (fun ev => delivered (fst ev) (snd ev) (listeners w)) events)
    (with_dispatched (dispatched w ++ events) w).
Proof.
  unfold announce, events_of_set.
  destruct (truthy (StateElementConfig.useEvents config)).
  - destruct (truthy (StateConfig.useChangeEvent (_config w))).
    + rewrite !dispatch_eq. destruct w; simpl.
      by rewrite app_nil_r, <- !app_assoc.
    + rewrite dispatch_eq. destruct w; simpl. by rewrite app_nil_r.
  - destruct w; simpl. by rewrite !app_nil_r.
Qed.

(** ** C5: the events of [State.set] *)

(** C5 as stated does not hold: a call with [useEvents] enabled whose
    persistence step throws dispatches no event.  Here the value is a
    function, which [valueToString] rejects. *)
Lemma C5_counterexample :
  let config := {| StateElementConfig.useLocalStorage := Some true;
                   StateElementConfig.useEvents := Some true;
                   StateElementConfig.onBeforeSet := None;
                   StateElementConfig.useRefetchOnFocus := None |} in
  let result := State_set "k" (VFunction 0) config world_test in
  truthy (StateElementConfig.useEvents config) = true
  /\ fst result = Throw (unsupported TFunction)
  /\ dispatched (snd result) = dispatched world_test
  /\ dispatched world_test = [].
Proof. vm_compute. done. Qed.

(** C5, amended.  A call [State.set(key, value, config)] throws exactly
    when its persistence step does ([config.useLocalStorage] is set and
    [valueToString(value)] throws).  When it returns with
    [config.useEvents] enabled it has dispatched the per-key event
    first and then, if and only if the State-level [useChangeEvent]
    flag is set, one aggregate "change" event carrying [{key, value}].
    The per-key event carries the value as its detail, except that for
    the value [undefined] the detail is [null], the default of
    CustomEvent.  When [config.useEvents] is disabled, or when the call
    throws, it has dispatched no event. *)
Theorem C5_set_dispatches_in_order (w : World) (key : string) (value : JsValue)
    (config : StateElementConfig.t) :
  let result := State_set key value config w in
  fst result =
    (if truthy (StateElementConfig.useLocalStorage config) then
       match valueToString value with
       | Normal _ => Normal tt
       | Throw e => Throw e
       end
     else Normal tt)
  /\ match fst result with
     | Normal _ =>
         dispatched (snd result) =
         dispatched w ++
           (if truthy (StateElementConfig.useEvents config) then
              if truthy (StateConfig.useChangeEvent (_config w))
              then [(key, CustomEvent_detail value);
                    ("change", change_detail key value)]
              else [(key, CustomEvent_detail value)]
            else [])
     | Throw _ => dispatched (snd result) = dispatched w
     end
  /\ (typeof value <> TUndefined -> CustomEvent_detail value = value)
  /\ (typeof value = TUndefined -> CustomEvent_detail value = VNull).
Proof.
  cbv zeta. rewrite State_set_unfold. cbv zeta.
  assert ((typeof value <> TUndefined -> CustomEvent_detail value = value)
          /\ (typeof value = TUndefined -> CustomEvent_detail value = VNull))
    as Hdetail by (by destruct value).
  destruct (truthy (StateElementConfig.useLocalStorage config)).
  - destruct (valueToString value) as [s|e]; simpl; [|done].
    split; [done|]. split; [|done]. by rewrite announce_eq.
  - simpl. split; [done|]. split; [|done]. by rewrite announce_eq.
Qed.

(** A set of the number 456 with events and aggregate events on, and a
    set of [undefined], which the per-key event carries as [null]. *)
Lemma C5_witness :
  let config := element_config test_element in
  (dispatched (snd (State_set "test" (num 456) config world_events))
   = dispatched world_events
       ++ [("test"%string, num 456); ("change"%string, change_detail "test" (num 456))])
  /\ CustomEvent_detail (num 456) = num 456
  /\ (dispatched (snd (State_set "test" VUndefined config world_events))
      = dispatched world_events
          ++ [("test"%string, VNull);
              ("change"%string, change_detail "test" VUndefined)]).
Proof.
  cbv zeta.
  destruct (C5_set_dispatches_in_order world_events "test" (num 456)
              (element_config test_element)) as (_ & Hevents & Hvalue & _).
  destruct (C5_set_dispatches_in_order world_events "test" VUndefined
              (element_config test_element)) as (_ & Hevents' & _ & Hnull).
  split; [|split].
  - rewrite (Hvalue ltac:(discriminate)) in Hevents. exact Hevents.
  - apply Hvalue. discriminate.
  - rewrite (Hnull eq_refl) in Hevents'. exact Hevents'.
Defined.

(** ** C2: [StateElement.set] checks the kind *)

Lemma valueToString_primitive value :
  typeof value <> TObject -> typeof value <> TUndefined ->
  typeof value <> TFunction ->
  valueToString value = Normal (toString value).
Proof. by destruct value. Qed.

Lemma StateElement_set_unfold this value w :
  StateElement_set this value w =
  if decide (typeof value <> _type this) then
    (Throw (type_mismatch (_type this) (typeof value)), w)
  else
    match StateElementConfig.onBeforeSet (element_config this) with
    | Some onBeforeSet =>
        match onBeforeSet value with
        | Normal value' => State_set (key this) value' (element_config this) w
        | Throw e => (Throw e, w)
        end
    | None => State_set (key this) value (element_config this) w
    end.
Proof.
  unfold StateElement_set. destruct (decide _); [done|].
  unfold_monad. destruct (StateElementConfig.onBeforeSet _) as [h|]; [|done].
  by destruct (h value).
Qed.

Lemma State_set_storage key value config w :
  _storage (snd (State_set key value config w)) = <[key := value]> (_storage w).
Proof.
  rewrite State_set_unfold. cbv zeta.
  destruct (truthy _); [destruct (valueToString value)|]; simpl;
    rewrite ?announce_eq; done.
Qed.

Lemma State_set_outcome key value config w :
  fst (State_set key value config w) =
  if truthy (StateElementConfig.useLocalStorage config) then
    match valueToString value with
    | Normal _ => Normal tt
    | Throw e => Throw e
    end
  else Normal tt.
Proof.
  rewrite State_set_unfold. cbv zeta.
  destruct (truthy _); [destruct (valueToString value)|]; done.
Qed.

(** C2 as stated does not hold: on a persisted slot of kind object,
    [set] of an object holding a BigInt passes the kind check, stores
    the object in memory and then throws the TypeError of
    JSON.stringify. *)
Lemma C2_counterexample :
  StateElementConfig.onBeforeSet (element_config object_slot) = None
  /\ typeof object_with_bigint = _type object_slot
  /\ fst (StateElement_set object_slot object_with_bigint world_object)
     = Throw TypeError
  /\ _storage (snd (StateElement_set object_slot object_with_bigint world_object))
       !! "o" = Some object_with_bigint.
Proof. vm_compute. done. Qed.

(** C2, amended.  For a StateElement of recorded kind K with no
    [onBeforeSet] hook: when [typeof v] equals K, [set(v)] stores [v]
    and returns, except that on a slot with persistence enabled a value
    whose encoding throws makes [set] throw that error after [v] has
    been stored in memory, which can only happen when K is object; when
    [typeof v] differs from K, [set(v)] throws the TypeMismatch error
    and leaves the world, and so the stored value, unchanged. *)
Theorem C2_set_checks_kind (this : StateElementData) (v : JsValue) (w : World) :
  StateElementConfig.onBeforeSet (element_config this) = None ->
  StorageValueType (_type this) ->
  let result := StateElement_set this v w in
  (typeof v = _type this ->
     _storage (snd result) !! key this = Some v
     /\ fst result =
        (if truthy (StateElementConfig.useLocalStorage (element_config this)) then
           match valueToString v with
           | Normal _ => Normal tt
           | Throw e => Throw e
           end
         else Normal tt)
     /\ (_type this <> TObject -> fst result = Normal tt))
  /\ (typeof v <> _type this ->
        result = (Throw (type_mismatch (_type this) (typeof v)), w)
        /\ _storage (snd result) = _storage w).
Proof.
  intros Hhook [Hu Hf]. cbv zeta. rewrite StateElement_set_unfold, Hhook. split.
  - intros Hty. destruct (decide _) as [Hne|_]; [done|].
    rewrite State_set_storage, State_set_outcome. split; [apply lookup_insert_eq|].
    split; [done|]. intros Hobj. rewrite valueToString_primitive by congruence.
    by destruct (truthy _).
  - intros Hty. destruct (decide _) as [_|Heq]; [done|].
    by destruct Heq.
Qed.

Lemma C2_witness :
  let this := StateElement_fields "test" (plain (num 123)) in
  (_storage (snd (StateElement_set this (num 456) world_test)) !! "test"
     = Some (num 456)
   /\ fst (StateElement_set this (num 456) world_test) = Normal tt)
  /\ StateElement_set this (VString "456") world_test
     = (Throw (type_mismatch TNumber TString), world_test).
Proof.
  cbv zeta.
  pose proof (C2_set_checks_kind (StateElement_fields "test" (plain (num 123))))
    as Hset.
  split.
  - destruct (Hset (num 456) world_test) as [(Hstored & _ & Hreturns) _];
      [reflexivity | split; discriminate | reflexivity |].
    split; [exact Hstored | apply Hreturns; discriminate].
  - destruct (Hset (VString "456") world_test) as [_ Hthrows];
      [reflexivity | split; discriminate |].
    apply Hthrows. discriminate.
Defined.

(** ** C3: [reset] *)

(** C3 as stated does not hold: [reset] runs the default value through
    the [onBeforeSet] hook.  With a hook that returns 1 and the default
    0, [get()] returns 1 after [reset()]. *)
Lemma C3_counterexample :
  let this := StateElement_fields "n" hooked_options in
  Map_get "n" (_elements world_hooked) = Some this
  /\ _defaultValue this = num 0
  /\ fst (StateElement_reset this world_hooked) = Normal tt
  /\ fst (StateElement_get this (snd (StateElement_reset this world_hooked)))
     = Normal (num 1)
  /\ num 1 <> num 0.
Proof. vm_compute. repeat split; discriminate. Qed.

(** C3, amended.  For the StateElement constructed from [(key, opts)],
    after any finite sequence of [set] calls, [reset()] makes [get()]
    return the [defaultValue] supplied at init when no [onBeforeSet]
    hook is configured, and the result of the hook on [defaultValue]
    when one is configured and returns. *)
Theorem C3_reset_restores_default (key : string) (opts : StateElementOptions.t)
    (values : list JsValue) (w : World) :
  let this := StateElement_fields key opts in
  let w1 := run_sets this values w in
  let w2 := snd (StateElement_reset this w1) in
  match StateElementConfig.onBeforeSet (element_config this) with
  | None =>
      fst (StateElement_get this w2) = Normal (StateElementOptions.defaultValue opts)
  | Some onBeforeSet =>
      forall value',
        onBeforeSet (StateElementOptions.defaultValue opts) = Normal value' ->
        fst (StateElement_get this w2) = Normal value'
  end.
Proof.
  cbv zeta. generalize (run_sets (StateElement_fields key opts) values w).
  intros w1. unfold StateElement_reset. rewrite StateElement_set_unfold.
  destruct (decide _) as [Hne|_]; [by destruct Hne|].
  destruct (StateElementConfig.onBeforeSet _) as [h|].
  - intros value' Hh. simpl in Hh. simpl (_defaultValue _). rewrite Hh.
    unfold StateElement_get, State_get. simpl.
    by rewrite State_set_storage, lookup_insert_eq.
  - unfold StateElement_get, State_get. simpl.
    by rewrite State_set_storage, lookup_insert_eq.
Qed.

Lemma C3_witness :
  let this := StateElement_fields "n" hooked_options in
  fst (StateElement_get this
         (snd (StateElement_reset this (run_sets this [num 5; num 7] world_hooked))))
  = Normal (num 1).
Proof.
  apply (C3_reset_restores_default "n" hooked_options [num 5; num 7] world_hooked).
  reflexivity.
Defined.

(** ** Composing relations along the monad *)

Section Preserves.
Variable R : World -> World -> Prop.
Hypothesis R_refl : forall w, R w w.
Hypothesis R_trans : forall w1 w2 w3, R w1 w2 -> R w2 w3 -> R w1 w3.

Lemma preserves_ret {A} (a : A) : preserves R (ret a).
Proof. intros w. apply R_refl. Qed.

Lemma preserves_throw {A} e : preserves R (@throw A e).
Proof. intros w. apply R_refl. Qed.

Lemma preserves_lift {A} (c : Completion A) : preserves R (lift c).
Proof. intros w. apply R_refl. Qed.

Lemma preserves_read {A} (f : World -> Completion A) :
  preserves R (fun w => (f w, w)).
Proof. intros w. apply R_refl. Qed.

Lemma preserves_bind {A B} (m : M A) (k : A -> M B) :
  preserves R m -> (forall a, preserves R (k a)) -> preserves R (bind m k).
Proof.
  intros Hm Hk w. unfold bind. specialize (Hm w).
  destruct (m w) as [[a|e] w1]; simpl in *; [|done].
  eapply R_trans; [exact Hm | apply Hk].
Qed.

Lemma preserves_when b (m : M unit) : preserves R m -> preserves R (when b m).
Proof. intros Hm. destruct b; [done | apply preserves_ret]. Qed.

Lemma preserves_try_catch {A} (m : M A) handler :
  preserves R m -> (forall e, preserves R (handler e)) ->
  preserves R (try_catch m handler).
Proof.
  intros Hm Hh w. unfold try_catch. specialize (Hm w).
  destruct (m w) as [[a|e] w1]; simpl in *; [done|].
  eapply R_trans; [exact Hm | apply Hh].
Qed.

Lemma preserves_for_each {A} (l : list A) body :
  (forall x, preserves R (body x)) -> preserves R (for_each l body).
Proof.
  intros Hbody. induction l as [|x l IH]; simpl.
  - apply preserves_ret.
  - by apply preserves_bind.
Qed.

Lemma preserves_discard {A} (m : M A) : preserves R m -> preserves R (discard m).
Proof. intros Hm. apply preserves_bind; [done | intros; apply preserves_ret]. Qed.

End Preserves.

(** One step of a proof that a method preserves a reflexive and
    transitive relation, given the lemmas about the steps that change
    the world. *)
Ltac preserves_step Hrefl Htrans :=
  lazymatch goal with
  | |- preserves _ (bind _ _) =>
      apply (preserves_bind _ Htrans); [|intros ?]
  | |- preserves _ (ret _) => apply (preserves_ret _ Hrefl)
  | |- preserves _ (throw _) => apply (preserves_throw _ Hrefl)
  | |- preserves _ (lift _) => apply (preserves_lift _ Hrefl)
  | |- preserves _ get_config => apply (preserves_read _ Hrefl)
  | |- preserves _ get_elements => apply (preserves_read _ Hrefl)
  | |- preserves _ (localStorage_getItem _) => apply (preserves_read _ Hrefl)
  | |- preserves _ (State_get _) => apply (preserves_read _ Hrefl)
  | |- preserves _ (when _ _) => apply (preserves_when _ Hrefl)
  | |- preserves _ (discard _) => apply (preserves_discard _ Hrefl Htrans)
  | |- preserves _ (try_catch _ _) =>
      apply (preserves_try_catch _ Htrans); [|intros ?]
  | |- preserves _ (for_each _ _) =>
      apply (preserves_for_each _ Hrefl Htrans); intros ?
  | |- preserves _ (if ?b then _ else _) => destruct b
  | |- preserves _ (match ?x with _ => _ end) => destruct x
  | |- preserves _ (let '(_, _) := ?x in _) => destruct x
  end.

(** ** Listeners and calls of one component *)

Lemma quiet_refl c w : quiet c w w.
Proof. by split. Qed.

Lemma quiet_trans c w1 w2 w3 : quiet c w1 w2 -> quiet c w2 w3 -> quiet c w1 w3.
Proof.
  intros [Hl1 Hc1] [Hl2 Hc2]. split; [congruence|].
  intros Hnone. rewrite Hc2, Hc1; [done..|congruence].
Qed.

Lemma quiet_same_listeners_calls c w w' :
  listeners w' = listeners w -> calls w' = calls w -> quiet c w w'.
Proof. intros Hl Hc. unfold quiet, owned_listeners, received. by rewrite Hl, Hc. Qed.

Lemma received_delivered c type detail ls :
  List.filter (is_hook_call c) (delivered type detail ls)
  = delivered type detail (List.filter (owned c) ls).
Proof.
  unfold delivered. induction ls as [|[t l] ls IH]; [done|].
  simpl. rewrite List.filter_app, IH. unfold owned at 2. simpl.
  destruct l as [[c' k|id]|c']; simpl.
  - destruct (String.eqb t type) eqn:Ht, (Nat.eqb c' c) eqn:Hc; simpl;
      rewrite ?Ht, ?Hc; simpl; rewrite ?Hc; done.
  - destruct (String.eqb t type); done.
  - destruct (String.eqb t type) eqn:Ht, (Nat.eqb c' c) eqn:Hc; simpl;
      rewrite ?Ht; try done;
      destruct (get_property detail "key"), (get_property detail "value");
      simpl; rewrite ?Hc; done.
Qed.

Lemma quiet_dispatchEvent c type detail : preserves (quiet c) (dispatchEvent type detail).
Proof.
  intros w. unfold dispatchEvent, modify. simpl. rewrite dispatch_eq.
  split; [done|]. unfold received, owned_listeners. simpl. intros Hnone.
  by rewrite List.filter_app, received_delivered, Hnone, app_nil_r.
Qed.

Lemma quiet_modify c f :
  (forall w, listeners (f w) = listeners w /\ calls (f w) = calls w) ->
  preserves (quiet c) (modify f).
Proof. intros Hf w. apply quiet_same_listeners_calls; apply Hf. Qed.

Lemma quiet_addEventListener c type l :
  owned c (type, l) = false -> preserves (quiet c) (addEventListener type l).
Proof.
  intros Hl w. unfold addEventListener, modify, quiet, owned_listeners, received.
  simpl. rewrite List.filter_app. simpl. rewrite Hl. by rewrite app_nil_r.
Qed.

Ltac quiet_step :=
  first
    [ lazymatch goal with
      | |- preserves (quiet ?c) _ => preserves_step (quiet_refl c) (quiet_trans c)
      end
    | apply quiet_dispatchEvent
    | apply quiet_modify; intros ?; split; reflexivity
    | apply quiet_addEventListener; assumption ].

Lemma quiet_State_set c key value config : preserves (quiet c) (State_set key value config).
Proof.
  unfold State_set, localStorage_setItem. repeat quiet_step.
Qed.

Lemma quiet_valueFromString c value type : preserves (quiet c) (valueFromString value type).
Proof.
  unfold valueFromString. destruct type; repeat quiet_step.
Qed.

Lemma quiet_StateElement_set c this value : preserves (quiet c) (StateElement_set this value).
Proof.
  unfold StateElement_set. repeat quiet_step. apply quiet_State_set.
Qed.

Lemma quiet_State_init c key opts : preserves (quiet c) (State_init key opts).
Proof.
  unfold State_init, StateElement_new, console_log.
  repeat first [ apply quiet_valueFromString | apply quiet_State_set | quiet_step ].
Qed.

Lemma quiet_onFocus c : preserves (quiet c) onFocus.
Proof.
  unfold onFocus, refetch, console_error, console_log.
  repeat first [ apply quiet_valueFromString | apply quiet_StateElement_set | quiet_step ].
Qed.

Lemma quiet_bind_all c this overrides elements states events :
  Nat.eqb this c = false ->
  preserves (quiet c) (bind_all this overrides elements states events).
Proof.
  intros Hother. revert states events.
  induction elements as [|element rest IH]; intros states events; simpl.
  - quiet_step.
  - unfold StateElement_addListener. repeat quiet_step; apply IH.
Qed.

Lemma quiet_bind_keys c this overrides keys states :
  Nat.eqb this c = false ->
  preserves (quiet c) (bind_keys this overrides keys states).
Proof.
  intros Hother. revert states.
  induction keys as [|k rest IH]; intros states; simpl.
  - quiet_step.
  - unfold State_attach, StateElement_addListener. repeat quiet_step; apply IH.
Qed.

Lemma quiet_StateComponent_new c this overrides elements :
  Nat.eqb this c = false ->
  preserves (quiet c) (StateComponent_new this overrides elements).
Proof.
  intros Hother. unfold StateComponent_new, console_log.
  repeat first [ apply quiet_bind_all | apply quiet_bind_keys | quiet_step ];
    assumption.
Qed.

Lemma quiet_op c op : constructs c op = false -> preserves (quiet c) (op_method op).
Proof.
  intros Hop. destruct op; simpl in *;
    unfold StateElement_get, StateElement_reset, StateElement_addListener,
      State_attach, StateComponent_resetAll;
    repeat first
      [ apply quiet_State_init | apply quiet_State_set
      | apply quiet_StateElement_set | apply quiet_StateComponent_new
      | quiet_step ]; try assumption.
  intros w. unfold window_focus. destruct (focus_listener w).
  - apply quiet_onFocus.
  - apply quiet_refl.
Qed.

Lemma quiet_run c ops w :
  forallb (fun op => negb (constructs c op)) ops = true -> quiet c w (run ops w).
Proof.
  revert w. induction ops as [|op ops IH]; intros w Hops; simpl in *.
  - apply quiet_refl.
  - apply andb_prop in Hops as [Hop Hops].
    eapply quiet_trans; [|by apply IH].
    apply quiet_op. by destruct (constructs c op).
Qed.

(** ** C10: a component constructed with an empty list of keys *)

(** C10.  Constructing a StateComponent with the empty array takes the
    branch of a key list: the constructor returns a component with no
    bound slot and leaves the listeners of the State exactly as they
    were, whether or not the subclass overrides [$onStateChange]; so
    whatever the program does afterwards, the hook of this component is
    never called.  A component constructed with a falsy argument by a
    subclass that overrides the hook has the aggregate listener
    attached instead. *)
Theorem C10_empty_key_list (this : nat) (overrides : bool) (w : World) :
  let result := StateComponent_new this overrides (ElementsKeys []) w in
  fst result = Normal {| component := this; states := [] |}
  /\ listeners (snd result) = listeners w
  /\ (owned_listeners this w = [] ->
      forall ops,
        forallb (fun op => negb (constructs this op)) ops = true ->
        owned_listeners this (run ops (snd result)) = []
        /\ received this (run ops (snd result)) = received this w)
  /\ (forall falsy,
        falsy = ElementsAbsent \/ falsy = ElementsBoolean false ->
        listeners (snd (StateComponent_new this true falsy w))
        = listeners w ++ [("change", ChangeListener this)]).
Proof.
  cbv zeta.
  assert (forall w0,
    StateComponent_new this overrides (ElementsKeys []) w0 =
    (Normal {| component := this; states := [] |},
     if truthy (StateConfig.useLogs (_config w0))
     then with_console (console w0 ++ [LogStateComponent [] overrides []]) w0
     else w0)) as Hnew.
  { intros w0. unfold StateComponent_new. unfold_monad. simpl.
    by destruct (truthy (StateConfig.useLogs (_config w0))). }
  rewrite Hnew. simpl.
  set (w' := if truthy _ then _ else _).
  assert (listeners w' = listeners w /\ calls w' = calls w) as [Hl Hc].
  { subst w'. by destruct (truthy _). }
  split; [done|]. split; [done|]. split.
  - intros Hnone ops Hops.
    destruct (quiet_run this ops w' Hops) as [Hl' Hc'].
    unfold owned_listeners, received in *. rewrite Hl in Hl', Hc'.
    rewrite Hc in Hc'. rewrite Hl', Hc' by done. done.
  - intros falsy [-> | ->]; unfold StateComponent_new; unfold_monad; simpl;
      by destruct (truthy (StateConfig.useLogs (_config w))).
Qed.

Lemma C10_witness :
  let ops := [OpSet test_element (num 456); OpFocus; OpReset test_element] in
  (owned_listeners 0
     (run ops (snd (StateComponent_new 0 true (ElementsKeys []) world_events))) = []
   /\ received 0
        (run ops (snd (StateComponent_new 0 true (ElementsKeys []) world_events)))
      = received 0 world_events)
  /\ listeners (snd (StateComponent_new 0 true ElementsAbsent world_events))
     = listeners world_events ++ [("change", ChangeListener 0)].
Proof.
  cbv zeta.
  destruct (C10_empty_key_list 0 true world_events) as (_ & _ & Hnever & Hfalsy).
  split.
  - apply Hnever; vm_compute; reflexivity.
  - apply Hfalsy. left. reflexivity.
Defined.

(** The same program with an overriding component constructed with no
    argument: the hook is called for each of the two sets. *)
Example falsy_component_receives :
  let ops := [OpSet test_element (num 456); OpFocus; OpReset test_element] in
  received 0 (run ops (snd (StateComponent_new 0 true ElementsAbsent world_events)))
  = [HookCall 0 (VString "test") (num 456); HookCall 0 (VString "test") (num 123)]
  /\ received 0 (run ops (snd (StateComponent_new 0 true (ElementsKeys []) world_events)))
     = [].
Proof. vm_compute. done. Qed.

(** ** C7: the focus resynchronization pass *)

Lemma for_each_total {A} (body : A -> M unit) (l : list A) w :
  (forall x w', fst (body x w') = Normal tt) ->
  for_each l body w = (Normal tt, fold_left (fun w' x => snd (body x w')) l w).
Proof.
  intros Hbody. revert w. induction l as [|x l IH]; intros w; simpl; [done|].
  unfold bind. specialize (Hbody x w).
  destruct (body x w) as [[[]|e] w1]; simpl in *; [apply IH | done].
Qed.

Lemma refetch_unfold key element w :
  refetch (key, element) w =
  if refetches element then
    match localStorage w !! prefixKey (_config w) key with
    | Some s =>
        match apply_persisted element s w with
        | (Normal _, w1) => (Normal tt, w1)
        | (Throw e, w1) => (Normal tt, with_console (console w1 ++ [LogError e]) w1)
        end
    | None => (Normal tt, w)
    end
  else (Normal tt, w).
Proof.
  unfold refetch, refetches, apply_persisted.
  destruct (_ && _); [|done]. unfold_monad.
  destruct (localStorage w !! prefixKey (_config w) key) as [s|]; [|done].
  destruct (valueFromString s (_type element) w) as [[value|e] w1]; [|done].
  by destruct (StateElement_set element value w1) as [[[]|e] w2].
Qed.

Lemma refetch_total entry w : fst (refetch entry w) = Normal tt.
Proof.
  destruct entry as [key element]. rewrite refetch_unfold.
  destruct (refetches element); [|done].
  destruct (localStorage w !! _); [|done].
  by destruct (apply_persisted element _ w) as [[[]|e] w1].
Qed.

(** A malformed persisted text for one slot is logged and does not keep
    the next slot from being resynchronized. *)
Example focus_pass_continues :
  let w := snd (window_focus world_other_tab) in
  fst (window_focus world_other_tab) = Normal tt
  /\ console w = [LogError SyntaxError]
  /\ _storage w !! "a" = Some (VObject [])
  /\ _storage w !! "b" = Some (num 2).
Proof. vm_compute. done. Qed.

(** On a persisted slot of kind bigint the focus pass decodes a Number,
    which [set] rejects: the mismatch is logged and the stored value
    stays. *)
Example focus_pass_bigint_slot :
  let w0 := world_after {[ "b" := "7" ]} None
              (Some [("b"%string, bigint_options)]) (ret tt) in
  let w := snd (window_focus w0) in
  fst (window_focus w0) = Normal tt
  /\ console w = [LogError (type_mismatch TBigint TNumber)]
  /\ _storage w = _storage w0.
Proof. vm_compute. done. Qed.

(** ** Induction on values *)

Lemma JsValue_ind (P : JsValue -> Prop) :
  P VUndefined -> P VNull -> (forall b, P (VBoolean b)) ->
  (forall x, P (VNumber x)) -> (forall z, P (VBigInt z)) ->
  (forall s, P (VString s)) -> (forall id d, P (VSymbol id d)) ->
  (forall id, P (VFunction id)) ->
  (forall elements, Forall P elements -> P (VArray elements)) ->
  (forall properties, Forall (fun p => P (snd p)) properties ->
                      P (VObject properties)) ->
  forall v, P v.
Proof.
  intros Hu Hn Hb Hx Hz Hs Hy Hf Ha Ho.
  fix IH 1. intros [| |b|x|z|s|id d|id|elements|properties];
    [done..| |].
  - apply Ha. induction elements as [|e r IHr]; constructor; [apply IH | apply IHr].
  - apply Ho. induction properties as [|[k e] r IHr]; constructor;
      [apply IH | apply IHr].
Qed.

Lemma json_value_array elements :
  json_value (VArray elements) <-> Forall json_value elements.
Proof.
  induction elements as [|e r IH]; simpl.
  - split; [constructor | done].
  - rewrite Forall_cons. simpl in IH. by rewrite IH.
Qed.

Lemma json_value_object properties :
  json_value (VObject properties)
  <-> Forall (fun p => json_value (snd p)) properties.
Proof.
  induction properties as [|p r IH]; simpl.
  - split; [constructor | done].
  - rewrite Forall_cons. simpl in IH. by rewrite IH.
Qed.

(** ** JSON.stringify on the values JSON.parse builds *)

Lemma SerializeJSONProperty_array elements :
  SerializeJSONProperty (VArray elements) =
  match SerializeJSONArray elements with
  | Throw err => Throw err
  | Normal parts => Normal (Some ("["%char :: join_comma parts ++ ["]"%char]))
  end.
Proof.
  simpl. match goal with |- match ?f elements with _ => _ end = _ =>
    assert (forall l, f l = SerializeJSONArray l) as ->; [|done] end.
  induction l as [|e r IH]; simpl; [done|]. by rewrite IH.
Qed.

Lemma SerializeJSONProperty_object properties :
  SerializeJSONProperty (VObject properties) =
  match SerializeJSONObject properties with
  | Throw err => Throw err
  | Normal parts => Normal (Some ("{"%char :: join_comma parts ++ ["}"%char]))
  end.
Proof.
  simpl. match goal with |- match ?f properties with _ => _ end = _ =>
    assert (forall l, f l = SerializeJSONObject l) as ->; [|done] end.
  induction l as [|[k e] r IH]; simpl; [done|]. by rewrite IH.
Qed.

Lemma json_value_serializable v :
  json_value v -> exists t, SerializeJSONProperty v = Normal (Some t).
Proof.
  induction v as [| |b|x|z|s|id d|id|elements IH|properties IH]
    using JsValue_ind; intros Hv; try done; try (simpl; eauto; fail).
  - destruct b; simpl; eauto.
  - rewrite SerializeJSONProperty_array.
    apply json_value_array in Hv.
    assert (exists parts, SerializeJSONArray elements = Normal parts) as [parts ->];
      [|eauto].
    induction elements as [|e r IHr]; simpl; [eauto|].
    apply Forall_cons in IH as [He Hr]. apply Forall_cons in Hv as [Hve Hvr].
    destruct (He Hve) as [t ->]. destruct (IHr Hr Hvr) as [parts ->]. eauto.
  - rewrite SerializeJSONProperty_object.
    apply json_value_object in Hv.
    assert (exists parts, SerializeJSONObject properties = Normal parts) as [parts ->];
      [|eauto].
    induction properties as [|[k e] r IHr]; simpl; [eauto|].
    apply Forall_cons in IH as [He Hr]. apply Forall_cons in Hv as [Hve Hvr].
    simpl in He, Hve.
    destruct (He Hve) as [t ->]. destruct (IHr Hr Hvr) as [parts ->]. eauto.
Qed.

Lemma update_property_Forall {A} (P : string * A -> Prop) k v props :
  (forall k', P (k', v)) -> Forall P props -> Forall P (update_property k v props).
Proof.
  intros Hv. induction 1 as [|[k' v'] r Hp Hr IH]; simpl; [constructor|].
  destruct (String.eqb k' k); constructor; auto.
Qed.

Lemma insert_property_Forall {A} (P : string * A -> Prop) k v props :
  P (k, v) -> Forall P props -> Forall P (insert_property k v props).
Proof.
  intros Hv. induction 1 as [|[k' v'] r Hp Hr IH]; simpl.
  - by constructor.
  - destruct (stays_before k' k); repeat constructor; auto.
Qed.

Lemma CreateDataProperty_json props k v :
  json_value v -> Forall (fun p => json_value (snd p)) props ->
  Forall (fun p => json_value (snd p)) (CreateDataProperty props k v).
Proof.
  intros Hv Hprops. unfold CreateDataProperty. destruct (existsb _ _).
  - by apply update_property_Forall.
  - by apply insert_property_Forall.
Qed.

#[local] Arguments strip_prefix : simpl never.
#[local] Arguments skip_ws : simpl never.
#[local] Arguments scan_JSONString : simpl never.
#[local] Arguments scan_JSONNumber : simpl never.

Lemma fold_CreateDataProperty_json ms acc :
  Forall (fun p => json_value (snd p)) ms ->
  Forall (fun p => json_value (snd p)) acc ->
  Forall (fun p => json_value (snd p))
    (fold_left (fun o m => CreateDataProperty o (fst m) (snd m)) ms acc).
Proof.
  intros Hms. revert acc. induction Hms as [|m ms Hm Hms IH]; intros acc Hacc;
    simpl; [done|].
  apply IH. by apply CreateDataProperty_json.
Qed.

Lemma parse_json_value fuel :
  (forall cs v rest, parse_value fuel cs = Parsed v rest -> json_value v)
  /\ (forall cs vs rest, parse_elements fuel cs = Parsed vs rest ->
        Forall json_value vs)
  /\ (forall cs ms rest, parse_members fuel cs = Parsed ms rest ->
        Forall (fun p => json_value (snd p)) ms).
Proof.
  induction fuel as [|fuel (IHv & IHe & IHm)]; [by repeat split|].
  repeat split.
  - intros cs v rest. simpl.
    destruct (skip_ws cs) as [|c r]; [done|].
    destruct (Ascii.eqb c "n").
    { destruct (strip_prefix _ r); [by intros [= <- <-] | done]. }
    destruct (Ascii.eqb c "t").
    { destruct (strip_prefix _ r); [by intros [= <- <-] | done]. }
    destruct (Ascii.eqb c "f").
    { destruct (strip_prefix _ r); [by intros [= <- <-] | done]. }
    destruct (Ascii.eqb c ch_quote).
    { destruct (scan_JSONString r) as [[s rest']|]; [by intros [= <- <-] | done]. }
    destruct (Ascii.eqb c "[").
    { destruct (skip_ws r) as [|c' r']; [done|].
      destruct (Ascii.eqb c' "]"); [by intros [= <- <-]|].
      destruct (parse_elements fuel r) as [vs rest'| |] eqn:He; try done.
      intros [= <- <-]. apply json_value_array. eauto. }
    destruct (Ascii.eqb c "{").
    { destruct (skip_ws r) as [|c' r']; [done|].
      destruct (Ascii.eqb c' "}"); [by intros [= <- <-]|].
      destruct (parse_members fuel r) as [ms rest'| |] eqn:Hm; try done.
      intros [= <- <-]. apply json_value_object.
      apply fold_CreateDataProperty_json; [eauto | constructor]. }
    destruct (scan_JSONNumber (c :: r)) as [[x rest']|]; [by intros [= <- <-] | done].
  - intros cs vs rest. simpl.
    destruct (parse_value fuel cs) as [v r| |] eqn:Hv; try done.
    destruct (skip_ws r) as [|c r']; [done|].
    destruct (Ascii.eqb c ","); [|destruct (Ascii.eqb c "]"); [|done]].
    + destruct (parse_elements fuel r') as [vs' rest'| |] eqn:He; try done.
      intros [= <- <-]. constructor; eauto.
    + intros [= <- <-]. constructor; eauto.
  - intros cs ms rest. simpl.
    destruct (skip_ws cs) as [|q r0]; [done|].
    destruct (Ascii.eqb q ch_quote); [|done].
    destruct (scan_JSONString r0) as [[k r1]|]; [|done].
    destruct (skip_ws r1) as [|colon r2]; [done|].
    destruct (Ascii.eqb colon ":"); [|done].
    destruct (parse_value fuel r2) as [v r| |] eqn:Hv; try done.
    destruct (skip_ws r) as [|c r']; [done|].
    destruct (Ascii.eqb c ","); [|destruct (Ascii.eqb c "}"); [|done]].
    + destruct (parse_members fuel r') as [ms' rest'| |] eqn:Hm; try done.
      intros [= <- <-]. constructor; simpl; eauto.
    + intros [= <- <-]. constructor; simpl; eauto.
Qed.

Lemma JSON_parse_json_value text v : JSON_parse text = Normal v -> json_value v.
Proof.
  unfold JSON_parse.
  destruct (parse_value _ _) as [v' rest| |] eqn:Hparse; try done.
  destruct (skip_ws rest); [|done]. intros [= <-].
  eapply (proj1 (parse_json_value _)), Hparse.
Qed.

(** ** C6: [init] and a persisted string *)

Lemma Map_get_app {A} k (l : list (string * A)) v :
  Map_get k (l ++ [(k, v)]) =
  match Map_get k l with
  | Some x => Some x
  | None => Some v
  end.
Proof.
  unfold Map_get. induction l as [|[k' x] l IH]; simpl.
  - by rewrite String.eqb_refl.
  - by destruct (String.eqb k' k).
Qed.

Lemma Map_get_Map_set_new {A} k (v : A) l :
  Map_get k l = None -> Map_get k (Map_set k v l) = Some v.
Proof. intros Hnone. unfold Map_set. by rewrite Hnone, Map_get_app, Hnone. Qed.

Lemma State_set_elements key value config w :
  _elements (snd (State_set key value config w)) = _elements w.
Proof.
  rewrite State_set_unfold. cbv zeta.
  destruct (truthy _); [destruct (valueToString value)|]; simpl;
    rewrite ?announce_eq; done.
Qed.

Lemma valueFromString_elements s type w :
  _elements (snd (valueFromString s type w)) = _elements w.
Proof. by destruct type. Qed.

(** What kind of value decoding under a kind yields. *)
Lemma valueFromString_kind s type w value w1 :
  valueFromString s type w = (Normal value, w1) ->
  match type with
  | TBigint => typeof value = TNumber
  | TObject => json_value value
  | _ => typeof value = type
  end.
Proof.
  destruct type; simpl; unfold_monad; try (intros [= <- <-]; done); try done.
  destruct (JSON_parse s) eqn:Hparse; intros [= <- <-].
  by eapply JSON_parse_json_value.
Qed.

(** A decoded value can always be encoded again. *)
Lemma valueToString_decoded s type w value w1 :
  valueFromString s type w = (Normal value, w1) ->
  exists t, valueToString value = Normal t.
Proof.
  intros Hdecode. pose proof (valueFromString_kind _ _ _ _ _ Hdecode) as Hkind.
  destruct type; try (destruct value; try done; simpl; eauto; fail).
  unfold valueToString, JSON_stringify.
  destruct (json_value_serializable value Hkind) as [t Ht].
  destruct value; try done; simpl typeof; cbv iota; eauto; rewrite Ht; eauto.
Qed.

(** C6 as stated does not hold: the decoded value need not be of the
    recorded kind of the slot.  For a slot whose default is a BigInt,
    the persisted string ["7"] is decoded with [Number] and the slot
    starts with the Number 7. *)
Lemma C6_counterexample :
  let result := State_init "b" bigint_options world_stored_7 in
  localStorage world_stored_7 !! prefixKey (_config world_stored_7) "b" = Some "7"
  /\ fst result = Normal (StateElement_fields "b" bigint_options)
  /\ _type (StateElement_fields "b" bigint_options) = TBigint
  /\ _storage (snd result) !! "b" = Some (num 7)
  /\ typeof (num 7) = TNumber.
Proof. vm_compute. done. Qed.

(** C6, amended.  For an [init(key, opts)] call on an unregistered key
    with a default of a supported kind, where the slot's config
    requests persistence and a persisted string exists under the
    prefixed key: [init] decodes that string with [valueFromString]
    under the recorded kind of the slot; when decoding returns, [init]
    returns the element and the decoded value is the initial stored
    value, overriding the supplied default; the decoded value is of the
    recorded kind for boolean, symbol, number and string slots, a
    Number for a bigint slot and whatever JSON value the text denotes
    for an object slot.  When decoding throws, [init] throws the same
    error from the world decoding left, and registers nothing. *)
Theorem C6_init_loads_persisted (w : World) (key : string)
    (opts : StateElementOptions.t) (s : string) :
  let type := typeof (StateElementOptions.defaultValue opts) in
  Map_get key (_elements w) = None ->
  StorageValueType type ->
  requests_persistence opts = true ->
  localStorage w !! prefixKey (_config w) key = Some s ->
  match valueFromString s type w with
  | (Normal value, _) =>
      fst (State_init key opts w) = Normal (StateElement_fields key opts)
      /\ _storage (snd (State_init key opts w)) !! key = Some value
      /\ Map_get key (_elements (snd (State_init key opts w)))
         = Some (StateElement_fields key opts)
      /\ match type with
         | TBigint => typeof value = TNumber
         | TObject => json_value value
         | _ => typeof value = type
         end
  | (Throw e, w1) =>
      State_init key opts w = (Throw e, w1)
      /\ Map_get key (_elements w1) = None
  end.
Proof.
  intros type Hnone Hty Hreq Hstored. subst type.
  rewrite (State_init_unfold _ _ _ Hnone Hty).
  unfold initial_value. rewrite Hreq, Hstored.
  pose proof (valueFromString_elements s
    (typeof (StateElementOptions.defaultValue opts)) w) as Helements.
  destruct (valueFromString s _ w) as [[value|e] w1] eqn:Hdecode.
  - destruct (valueToString_decoded _ _ _ _ _ Hdecode) as [t Ht].
    pose proof (State_set_storage key value (init_config opts) w1) as Hvalue.
    pose proof (State_set_elements key value (init_config opts) w1) as Hsame.
    pose proof (State_set_outcome key value (init_config opts) w1) as Hout.
    rewrite Ht in Hout.
    destruct (State_set key value (init_config opts) w1) as [[[]|e] w2];
      simpl in Hvalue, Hsame, Hout, Helements;
      [|by destruct (truthy _)].
    split; [done|]. split; [|split].
    + unfold register. destruct (truthy (StateConfig.useLogs (_config w2))); simpl;
        rewrite Hvalue; apply lookup_insert_eq.
    + unfold register. simpl. apply Map_get_Map_set_new.
      destruct (truthy (StateConfig.useLogs (_config w2))); simpl; congruence.
    + by eapply valueFromString_kind.
  - simpl in Helements. split; [done | congruence].
Qed.

Lemma C6_witness :
  fst (State_init "b" bigint_options world_stored_7)
    = Normal (StateElement_fields "b" bigint_options)
  /\ _storage (snd (State_init "b" bigint_options world_stored_7)) !! "b"
     = Some (num 7)
  /\ Map_get "b" (_elements (snd (State_init "b" bigint_options world_stored_7)))
     = Some (StateElement_fields "b" bigint_options)
  /\ typeof (num 7) = TNumber.
Proof.
  assert (Map_get "b" (_elements world_stored_7) = None) as Hnew
    by (vm_compute; reflexivity).
  assert (StorageValueType
            (typeof (StateElementOptions.defaultValue bigint_options))) as Hkind
    by (split; discriminate).
  assert (localStorage world_stored_7 !! prefixKey (_config world_stored_7) "b"
          = Some "7") as Hstored by (vm_compute; reflexivity).
  exact (C6_init_loads_persisted world_stored_7 "b" bigint_options "7"
           Hnew Hkind eq_refl Hstored).
Defined.

(** A malformed text persisted for a slot of kind object makes [init]
    throw the SyntaxError of JSON.parse, and nothing is registered. *)
Example init_malformed_persisted :
  let w := new_world {[ "o" := "{oops" ]} 0 in
  State_init "o" (element_options (VObject []) true false None) w
  = (Throw SyntaxError, w).
Proof. vm_compute. done. Qed.

(** ** The calls a component receives during a set *)

Lemma filter_flat_map {A B} (f : B -> bool) (g : A -> list B) l :
  List.filter f (flat_map g l) = flat_map (fun x => List.filter f (g x)) l.
Proof.
  induction l as [|x l IH]; simpl; [done|]. by rewrite List.filter_app, IH.
Qed.

Lemma received_announce c key value config w :
  received c (announce key value config w) =
  received c w ++
  flat_map (fun ev => delivered (fst ev) (snd ev) (owned_listeners c w))
    (events_of_set key value config (_config w)).
Proof.
  rewrite announce_eq. cbv zeta. unfold received, owned_listeners. simpl.
  rewrite List.filter_app, filter_flat_map. f_equal.
  apply flat_map_ext. intros ev. apply received_delivered.
Qed.

Lemma State_set_received c key value config w :
  fst (State_set key value config w) = Normal tt ->
  received c (snd (State_set key value config w)) =
  received c w ++
  flat_map (fun ev => delivered (fst ev) (snd ev) (owned_listeners c w))
    (events_of_set key value config (_config w)).
Proof.
  rewrite State_set_unfold. cbv zeta.
  destruct (truthy (StateElementConfig.useLocalStorage config)).
  - destruct (valueToString value) as [s|e]; [|done]. intros _. simpl.
    by rewrite received_announce.
  - intros _. simpl. by rewrite received_announce.
Qed.

Lemma StateElement_set_received c element v w :
  fst (StateElement_set element v w) = Normal tt ->
  exists stored,
    _storage (snd (StateElement_set element v w)) !! key element = Some stored
    /\ received c (snd (StateElement_set element v w)) =
       received c w ++
       flat_map (fun ev => delivered (fst ev) (snd ev) (owned_listeners c w))
         (events_of_set (key element) stored (element_config element) (_config w)).
Proof.
  rewrite StateElement_set_unfold.
  destruct (decide _); [done|].
  destruct (StateElementConfig.onBeforeSet _) as [h|].
  - destruct (h v) as [v'|e]; [|done]. intros Hok. exists v'.
    split; [by rewrite State_set_storage, lookup_insert_eq|].
    by apply State_set_received.
  - intros Hok. exists v.
    split; [by rewrite State_set_storage, lookup_insert_eq|].
    by apply State_set_received.
Qed.

Lemma delivered_hook_listeners_other c k detail keys :
  k ∉ keys -> delivered k detail (hook_listeners c keys) = [].
Proof.
  unfold delivered, hook_listeners. induction keys as [|k' keys IH]; [done|].
  intros Hnotin. apply not_elem_of_cons in Hnotin as [Hne Hnotin]. simpl.
  destruct (String.eqb_spec k' k); [congruence|]. by apply IH.
Qed.

Lemma delivered_hook_listeners c k detail keys :
  NoDup keys -> k ∈ keys ->
  delivered k detail (hook_listeners c keys) = [HookCall c (VString k) detail].
Proof.
  induction 1 as [|k' keys Hnotin Hnodup IH]; [by intros ?%elem_of_nil|].
  intros Hin. unfold delivered, hook_listeners in *. simpl.
  destruct (String.eqb_spec k' k) as [->|Hne].
  - simpl. f_equal. by apply delivered_hook_listeners_other.
  - apply elem_of_cons in Hin as [?|Hin]; [congruence|]. by apply IH.
Qed.

Lemma delivered_change_listener c k value :
  delivered "change" (change_detail k value) [("change"%string, ChangeListener c)]
  = [HookCall c (VString k) value].
Proof. reflexivity. Qed.

Lemma delivered_change_listener_other c k detail :
  k <> "change"%string ->
  delivered k detail [("change"%string, ChangeListener c)] = [].
Proof.
  intros Hne. unfold delivered. cbn [flat_map fst snd].
  destruct (String.eqb_spec "change" k); [congruence | done].
Qed.

(** ** The listeners a component attaches *)

Lemma with_listeners_same w : with_listeners (listeners w) w = w.
Proof. by destruct w. Qed.

Lemma Map_get_key k element (entries : list (string * StateElementData)) :
  Forall (fun entry => key (snd entry) = fst entry) entries ->
  Map_get k entries = Some element -> key element = k.
Proof.
  unfold Map_get. induction 1 as [|[k' e] r Hk Hr IH]; simpl; [done|].
  destruct (String.eqb_spec k' k) as [->|Hne]; [|done].
  simpl. by intros [= <-].
Qed.

Lemma Map_get_is_Some {A} k (entries : list (string * A)) :
  is_Some (Map_get k entries) <-> k ∈ map fst entries.
Proof.
  unfold Map_get. induction entries as [|[k' e] r IH]; simpl.
  - split; [by intros [? ?] | by intros ?%elem_of_nil].
  - rewrite elem_of_cons. destruct (String.eqb_spec k' k) as [->|Hne]; simpl.
    + split; eauto.
    + rewrite IH. split; [auto | by intros [?|?]].
Qed.

Lemma bind_keys_listeners c keys states w states' w' :
  Forall (fun entry => key (snd entry) = fst entry) (_elements w) ->
  bind_keys c true keys states w = (Normal states', w') ->
  w' = with_listeners (listeners w ++ hook_listeners c keys) w.
Proof.
  revert states w. induction keys as [|k keys IH]; intros states w Hkeys; simpl.
  - unfold ret. intros [= <- <-]. by rewrite app_nil_r, with_listeners_same.
  - unfold State_attach, StateElement_addListener. unfold_monad.
    destruct (Map_get k (_elements w)) as [element|] eqn:Hget; [|done].
    rewrite (Map_get_key _ _ _ Hkeys Hget).
    destruct (assign_state states k element) as [states1|e]; [|done].
    intros Hrest.
    apply IH in Hrest; [|done]. rewrite Hrest. simpl.
    by rewrite <- app_assoc.
Qed.

Lemma bind_all_listeners c elements states events w bound w' :
  bind_all c true elements states events w = (Normal bound, w') ->
  w' = with_listeners (listeners w ++ hook_listeners c (map key elements)) w.
Proof.
  revert states events w.
  induction elements as [|element rest IH]; intros states events w; simpl.
  - unfold ret. intros [= <- <-]. by rewrite app_nil_r, with_listeners_same.
  - unfold StateElement_addListener. unfold_monad. simpl.
    destruct (assign_state states (key element) element) as [states1|e]; [|done].
    intros Hrest. apply IH in Hrest. rewrite Hrest. simpl.
    by rewrite <- app_assoc.
Qed.

Lemma consistent_keys w :
  consistent w -> map key (map snd (_elements w)) = map fst (_elements w).
Proof.
  intros [_ Hkeys]. induction Hkeys as [|[k e] r Hk Hr IH]; simpl; [done|].
  simpl in Hk. by rewrite Hk, IH.
Qed.

(** After the constructor returns, the listeners of the component are
    the ones of its binding mode, added to those that were there. *)
Lemma StateComponent_new_listeners c elements w comp w' :
  consistent w ->
  StateComponent_new c true elements w = (Normal comp, w') ->
  listeners w' = listeners w ++
    match elements with
    | ElementsBoolean true => hook_listeners c (map fst (_elements w))
    | ElementsKeys keys => hook_listeners c keys
    | ElementsAbsent | ElementsBoolean false => [("change"%string, ChangeListener c)]
    end
  /\ _config w' = _config w.
Proof.
  intros Hw. unfold StateComponent_new. unfold bind at 1.
  destruct elements as [|[]|keys].
  - unfold_monad. simpl.
    destruct (truthy (StateConfig.useLogs (_config w))); by intros [= <- <-].
  - unfold bind at 1. unfold bind at 1. unfold get_elements.
    destruct (bind_all c true (map snd (_elements w)) empty_states [] w)
      as [[bound|e] w1] eqn:Hbind; [|done].
    apply bind_all_listeners in Hbind. subst w1.
    rewrite (consistent_keys _ Hw). unfold_monad. simpl.
    destruct (truthy (StateConfig.useLogs (_config w))); by intros [= <- <-].
  - unfold_monad. simpl.
    destruct (truthy (StateConfig.useLogs (_config w))); by intros [= <- <-].
  - unfold bind at 1. unfold bind at 1.
    destruct (bind_keys c true keys empty_states w) as [[states|e] w1] eqn:Hbind;
      [|done].
    apply bind_keys_listeners in Hbind; [|apply Hw]. subst w1.
    unfold_monad. simpl.
    destruct (truthy (StateConfig.useLogs (_config w))); by intros [= <- <-].
Qed.

(** ** Every reachable world is consistent *)

Lemma stays_consistent_refl w : stays_consistent w w.
Proof. by intros ?. Qed.

Lemma stays_consistent_trans w1 w2 w3 :
  stays_consistent w1 w2 -> stays_consistent w2 w3 -> stays_consistent w1 w3.
Proof. unfold stays_consistent. auto. Qed.

Lemma stays_consistent_same_elements w w' :
  _elements w' = _elements w -> stays_consistent w w'.
Proof. intros He. unfold stays_consistent, consistent. by rewrite He. Qed.

Lemma update_property_keys {A} k (v : A) l :
  map fst (update_property k v l) = map fst l.
Proof.
  induction l as [|[k' v'] l IH]; simpl; [done|].
  destruct (String.eqb k' k); simpl; by rewrite ?IH.
Qed.

Lemma Map_set_consistent k element entries :
  key element = k ->
  NoDup (map fst entries) ->
  Forall (fun entry => key (snd entry) = fst entry) entries ->
  NoDup (map fst (Map_set k element entries))
  /\ Forall (fun entry => key (snd entry) = fst entry) (Map_set k element entries).
Proof.
  intros Hk Hnodup Hkeys. unfold Map_set.
  destruct (Map_get k entries) eqn:Hget.
  - rewrite update_property_keys. split; [done|].
    clear Hget Hnodup. induction Hkeys as [|[k' e] r Hk' Hr IH]; simpl; [done|].
    destruct (String.eqb_spec k' k) as [->|Hne]; constructor; auto.
  - split.
    + rewrite map_app. simpl. apply NoDup_app. split; [done|].
      split; [|apply NoDup_singleton].
      intros x Hx ->%list_elem_of_singleton.
      apply Map_get_is_Some in Hx as [? ?]. congruence.
    + apply Forall_app. split; [done|]. by constructor.
Qed.

Lemma stays_consistent_modify f :
  (forall w, _elements (f w) = _elements w) -> preserves stays_consistent (modify f).
Proof. intros Hf w. apply stays_consistent_same_elements, Hf. Qed.

Ltac consistent_step :=
  first
    [ preserves_step stays_consistent_refl stays_consistent_trans
    | apply stays_consistent_modify; intros ?; reflexivity ].

Lemma stays_consistent_dispatchEvent type detail :
  preserves stays_consistent (dispatchEvent type detail).
Proof.
  intros w. apply stays_consistent_same_elements.
  unfold dispatchEvent, modify. simpl. by rewrite dispatch_eq.
Qed.

Lemma stays_consistent_State_set key value config :
  preserves stays_consistent (State_set key value config).
Proof.
  unfold State_set, localStorage_setItem.
  repeat first [ apply stays_consistent_dispatchEvent | consistent_step ].
Qed.

Lemma stays_consistent_valueFromString value type :
  preserves stays_consistent (valueFromString value type).
Proof. intros w. apply stays_consistent_same_elements, valueFromString_elements. Qed.

Lemma stays_consistent_StateElement_set this value :
  preserves stays_consistent (StateElement_set this value).
Proof.
  unfold StateElement_set. repeat consistent_step. apply stays_consistent_State_set.
Qed.

Lemma stays_consistent_register key opts :
  preserves stays_consistent
    (element <- StateElement_new key opts ;;
     modify (fun w => with_elements (Map_set key element (_elements w)) w) ;;
     ret element).
Proof.
  intros w [Hnodup Hkeys]. unfold StateElement_new. unfold_monad. simpl.
  destruct (truthy (StateConfig.useLogs (_config w))); simpl;
    by apply Map_set_consistent.
Qed.

Lemma stays_consistent_State_init key opts :
  preserves stays_consistent (State_init key opts).
Proof.
  unfold State_init.
  repeat first
    [ apply stays_consistent_valueFromString | apply stays_consistent_State_set
    | apply stays_consistent_register
    | consistent_step ].
Qed.

Lemma stays_consistent_onFocus : preserves stays_consistent onFocus.
Proof.
  unfold onFocus, refetch, console_error, console_log.
  repeat first
    [ apply stays_consistent_valueFromString
    | apply stays_consistent_StateElement_set | consistent_step ].
Qed.

Lemma stays_consistent_StateComponent_new this overrides elements :
  preserves stays_consistent (StateComponent_new this overrides elements).
Proof.
  assert (forall els states events,
            preserves stays_consistent (bind_all this overrides els states events))
    as Hall.
  { induction els as [|element rest IH]; intros states events; simpl.
    - consistent_step.
    - unfold StateElement_addListener, addEventListener.
      repeat consistent_step; apply IH. }
  assert (forall keys states,
            preserves stays_consistent (bind_keys this overrides keys states))
    as Hkeys.
  { induction keys as [|k rest IH]; intros states; simpl.
    - consistent_step.
    - unfold State_attach, StateElement_addListener, addEventListener.
      repeat consistent_step; apply IH. }
  unfold StateComponent_new, console_log, addEventListener.
  repeat first [ apply Hall | apply Hkeys | consistent_step ].
Qed.

Lemma stays_consistent_op op : preserves stays_consistent (op_method op).
Proof.
  destruct op; simpl;
    unfold StateElement_get, StateElement_reset, StateElement_addListener,
      State_attach, StateComponent_resetAll, addEventListener;
    repeat first
      [ apply stays_consistent_State_init | apply stays_consistent_State_set
      | apply stays_consistent_StateElement_set
      | apply stays_consistent_StateComponent_new
      | consistent_step ].
  intros w. unfold window_focus. destruct (focus_listener w).
  - apply stays_consistent_onFocus.
  - apply stays_consistent_refl.
Qed.

(** The worlds a program reaches from [new State(config, initElements)]
    are consistent. *)
Lemma reachable_consistent stored symbols config initElements ops :
  consistent (run ops (snd (State_new config initElements (new_world stored symbols)))).
Proof.
  assert (consistent (new_world stored symbols)) as Hnew.
  { split; simpl; constructor. }
  assert (preserves stays_consistent (State_new config initElements)) as Hstate.
  { unfold State_new, console_log.
    repeat first [ apply stays_consistent_State_init | consistent_step ]. }
  apply Hstate in Hnew. revert Hnew.
  generalize (snd (State_new config initElements (new_world stored symbols))).
  induction ops as [|op ops IH]; intros w Hw; simpl; [done|].
  apply IH. by apply (stays_consistent_op op w).
Qed.

(** ** C4: the reaction hook of a component *)

(** C4 as stated does not hold: events are off unless the slot's
    config enables them.  On the slot of the test suite, registered
    with the default config, a component bound to the key list
    ["test"] whose class overrides the hook receives no call when the
    slot is set. *)
Lemma C4_counterexample :
  let element := StateElement_fields "test" (plain (num 123)) in
  let constructed := StateComponent_new 0 true (ElementsKeys ["test"%string]) world_test in
  let result := StateElement_set element (num 456) (snd constructed) in
  fst constructed = Normal {| component := 0; states := [("test"%string, element)] |}
  /\ fst result = Normal tt
  /\ _storage (snd result) !! "test" = Some (num 456)
  /\ received 0 (snd result) = [].
Proof. vm_compute. done. Qed.

(** One set, seen by a component whose listeners are [mine]. *)
Lemma hook_called_once_intro passed c element v w mine :
  owned_listeners c w = mine ->
  announced_set element v w ->
  (forall stored,
     flat_map (fun ev => delivered (fst ev) (snd ev) mine)
       (events_of_set (key element) stored (element_config element) (_config w))
     = [HookCall c (VString (key element)) (passed stored)]) ->
  hook_called_once passed c element v w.
Proof.
  intros Hmine [Hok Hevents] Hcalls.
  destruct (StateElement_set_received c element v w Hok) as (stored & Hstored & Hrec).
  exists stored. split; [done|]. by rewrite Hrec, Hmine, Hcalls.
Qed.

(** C4, amended.  Let [c] be a component whose class overrides
    [$onStateChange], whose constructor returns in a consistent world,
    and let the program go on in any way that does not construct [c]
    again.  A set is observed when [element.set(v)] returns on a slot
    whose config enables [useEvents]; the value the set stored is the
    result of [onBeforeSet] when the slot has that hook, [v]
    otherwise.
    - Constructed with a list of distinct keys, none of them named
      "change" if aggregate events are enabled: the hook is called
      exactly once for every observed set on a listed key, with the
      key and the detail of the per-key event: the stored value, or
      [null] when the stored value is [undefined].
    - Constructed with [true]: the same for every slot registered at
      construction time.
    - Constructed with no argument or [false], in a State with
      aggregate events enabled: the hook is called exactly once, with
      [(key, stored value)], for every observed set on any slot not
      named "change". *)
Theorem C4_hook_called_once_per_set (c : nat) (w0 : World) :
  owned_listeners c w0 = [] ->
  consistent w0 ->
  (forall keys comp w1 ops element v,
     NoDup keys ->
     StateComponent_new c true (ElementsKeys keys) w0 = (Normal comp, w1) ->
     leaves_alone c ops = true ->
     (truthy (StateConfig.useChangeEvent (_config (run ops w1))) = true ->
      "change"%string ∉ keys) ->
     key element ∈ keys ->
     announced_set element v (run ops w1) ->
     hook_called_once CustomEvent_detail c element v (run ops w1))
  /\ (forall comp w1 ops element v,
        StateComponent_new c true (ElementsBoolean true) w0 = (Normal comp, w1) ->
        leaves_alone c ops = true ->
        (truthy (StateConfig.useChangeEvent (_config (run ops w1))) = true ->
         "change"%string ∉ map fst (_elements w0)) ->
        key element ∈ map fst (_elements w0) ->
        announced_set element v (run ops w1) ->
        hook_called_once CustomEvent_detail c element v (run ops w1))
  /\ (forall falsy comp w1 ops element v,
        falsy = ElementsAbsent \/ falsy = ElementsBoolean false ->
        StateComponent_new c true falsy w0 = (Normal comp, w1) ->
        leaves_alone c ops = true ->
        truthy (StateConfig.useChangeEvent (_config (run ops w1))) = true ->
        key element <> "change"%string ->
        announced_set element v (run ops w1) ->
        hook_called_once (fun stored => stored) c element v (run ops w1)).
Proof.
  intros Hnew Hw0.
  assert (forall elements comp w1 ops,
    StateComponent_new c true elements w0 = (Normal comp, w1) ->
    leaves_alone c ops = true ->
    owned_listeners c (run ops w1) =
    List.filter (owned c)
      match elements with
      | ElementsBoolean true => hook_listeners c (map fst (_elements w0))
      | ElementsKeys keys => hook_listeners c keys
      | ElementsAbsent | ElementsBoolean false => [("change"%string, ChangeListener c)]
      end) as Hmine.
  { intros elements comp w1 ops Hcons Hops.
    destruct (quiet_run c ops w1 Hops) as [-> _].
    destruct (StateComponent_new_listeners _ _ _ _ _ Hw0 Hcons) as [Hl _].
    unfold owned_listeners in *. by rewrite Hl, List.filter_app, Hnew. }
  assert (forall keys, List.filter (owned c) (hook_listeners c keys)
                       = hook_listeners c keys) as Hkeep.
  { induction keys as [|k keys IH]; simpl; [done|].
    unfold owned at 1. simpl. by rewrite Nat.eqb_refl, IH. }
  assert (forall keys element stored cfg,
    NoDup keys -> key element ∈ keys ->
    truthy (StateElementConfig.useEvents (element_config element)) = true ->
    (truthy (StateConfig.useChangeEvent cfg) = true -> "change"%string ∉ keys) ->
    flat_map (fun ev => delivered (fst ev) (snd ev) (hook_listeners c keys))
      (events_of_set (key element) stored (element_config element) cfg)
    = [HookCall c (VString (key element)) (CustomEvent_detail stored)]) as Hbound.
  { intros keys element stored cfg Hnodup Hin Hevents Hchange.
    unfold events_of_set. rewrite Hevents.
    destruct (truthy (StateConfig.useChangeEvent cfg)); cbn [flat_map fst snd].
    - rewrite delivered_hook_listeners by done.
      rewrite delivered_hook_listeners_other by auto. done.
    - rewrite delivered_hook_listeners by done. done. }
  split; [|split].
  - intros keys comp w1 ops element v Hnodup Hcons Hops Hchange Hin Hset.
    eapply hook_called_once_intro; [|done|].
    + rewrite (Hmine _ _ _ _ Hcons Hops). apply Hkeep.
    + intros stored. apply Hbound; [done..|apply Hset|done].
  - intros comp w1 ops element v Hcons Hops Hchange Hin Hset.
    eapply hook_called_once_intro; [|done|].
    + rewrite (Hmine _ _ _ _ Hcons Hops). apply Hkeep.
    + intros stored. apply Hbound; [apply Hw0|done|apply Hset|done].
  - intros falsy comp w1 ops element v Hfalsy Hcons Hops Hchange Hne Hset.
    eapply hook_called_once_intro; [|done|].
    + rewrite (Hmine _ _ _ _ Hcons Hops).
      instantiate (1 := [("change"%string, ChangeListener c)]).
      destruct Hfalsy as [-> | ->]; simpl; unfold owned; simpl;
        by rewrite Nat.eqb_refl.
    + intros stored. unfold events_of_set.
      destruct Hset as [_ ->]. rewrite Hchange. cbn [flat_map fst snd].
      rewrite delivered_change_listener_other by done.
      by rewrite delivered_change_listener.
Qed.

Lemma C4_witness :
  let ops := [OpAttach "test"; OpFocus] in
  let after elements :=
    run ops (snd (StateComponent_new 0 true elements world_events)) in
  hook_called_once CustomEvent_detail 0 test_element (num 456)
    (after (ElementsKeys ["test"%string]))
  /\ hook_called_once CustomEvent_detail 0 test_element (num 456)
       (after (ElementsBoolean true))
  /\ hook_called_once (fun stored => stored) 0 test_element (num 456)
       (after ElementsAbsent).
Proof.
  cbv zeta.
  assert (owned_listeners 0 world_events = []) as Hnew
    by (vm_compute; reflexivity).
  assert (consistent world_events) as Hconsistent.
  { split; vm_compute; [apply NoDup_singleton | repeat constructor]. }
  destruct (C4_hook_called_once_per_set 0 world_events Hnew Hconsistent)
    as (Hkeys & Hall & Hnone).
  split; [|split].
  - apply (Hkeys ["test"%string]
             {| component := 0; states := [("test"%string, test_element)] |}
             (snd (StateComponent_new 0 true (ElementsKeys ["test"%string])
                     world_events))).
    + apply NoDup_singleton.
    + vm_compute; reflexivity.
    + vm_compute; reflexivity.
    + by intros _ [=]%list_elem_of_singleton.
    + apply list_elem_of_singleton. vm_compute; reflexivity.
    + split; vm_compute; reflexivity.
  - apply (Hall {| component := 0; states := [("test"%string, test_element)] |}
             (snd (StateComponent_new 0 true (ElementsBoolean true) world_events))).
    + vm_compute; reflexivity.
    + vm_compute; reflexivity.
    + intros _. vm_compute. by intros [=]%list_elem_of_singleton.
    + vm_compute. by apply list_elem_of_singleton.
    + split; vm_compute; reflexivity.
  - apply (Hnone ElementsAbsent {| component := 0; states := [] |}
             (snd (StateComponent_new 0 true ElementsAbsent world_events))).
    + by left.
    + vm_compute; reflexivity.
    + vm_compute; reflexivity.
    + vm_compute; reflexivity.
    + vm_compute. discriminate.
    + split; vm_compute; reflexivity.
Defined.

(** ** Digits *)

Lemma unstr_str cs : unstr (str cs) = cs.
Proof. apply list_ascii_of_string_of_list_ascii. Qed.

Lemma str_unstr s : str (unstr s) = s.
Proof. apply string_of_list_ascii_of_string. Qed.

#[local] Arguments is_digit : simpl never.

Lemma span_digits_app ds rest :
  forallb is_digit ds = true -> ends_digits rest ->
  span_digits (ds ++ rest) = (ds, rest).
Proof.
  intros Hds Hrest. induction ds as [|d ds IH]; simpl in *.
  - destruct rest as [|c r]; [done|]. simpl in *. by rewrite Hrest.
  - apply andb_prop in Hds as [-> Hds]. by rewrite IH.
Qed.

Lemma chars_of_uint_digits u : forallb is_digit (chars_of_uint u) = true.
Proof. induction u; simpl; rewrite ?IHu; reflexivity. Qed.

Lemma digits_of_N_digits n : forallb is_digit (digits_of_N n) = true.
Proof. apply chars_of_uint_digits. Qed.

Lemma N_of_digits_uint_acc u acc :
  fold_left (fun a c => (a * 10 + digit_value c)%N) (chars_of_uint u) (Npos acc)
  = Npos (Pos.of_uint_acc u acc).
Proof.
  revert acc. induction u; intros acc; simpl; try done;
    rewrite <- IHu; f_equal; unfold digit_value; simpl; lia.
Qed.

Lemma N_of_digits_uint u : N_of_digits (chars_of_uint u) = N.of_uint u.
Proof.
  unfold N_of_digits, N.of_uint.
  induction u; simpl; try done;
    match goal with
    | |- _ = Npos _ => rewrite <- N_of_digits_uint_acc; f_equal
    end.
Qed.

Lemma N_of_digits_digits_of_N n : N_of_digits (digits_of_N n) = n.
Proof. unfold digits_of_N. by rewrite N_of_digits_uint, DecimalN.Unsigned.of_to. Qed.

Lemma digits_of_N_nonempty n : digits_of_N n <> [].
Proof.
  unfold digits_of_N. destruct n as [|p]; [done|]. simpl.
  unfold Pos.to_uint. intros Hnil.
  assert (Decimal.rev (Pos.to_little_uint p) = Decimal.Nil) as Hrev.
  { destruct (Decimal.rev (Pos.to_little_uint p)); done. }
  pose proof (DecimalPos.Unsigned.of_to p) as Hof.
  unfold Pos.to_uint in Hof. by rewrite Hrev in Hof.
Qed.

(** ** Significant digits *)

Lemma strip_leading_zeros_app k ds :
  head ds <> Some ch_zero ->
  strip_leading_zeros (repeat "0"%char k ++ ds) = (k, ds).
Proof.
  intros Hhead. induction k as [|k IH]; simpl.
  - destruct ds as [|d ds]; [done|]. simpl.
    destruct (Ascii.eqb_spec d ch_zero) as [->|_]; [by destruct Hhead | done].
  - by rewrite IH.
Qed.

Lemma rev_reverse {A} (l : list A) : rev l = reverse l.
Proof. apply rev_alt. Qed.

Lemma strip_trailing_zeros_app k ds :
  last ds <> Some ch_zero ->
  strip_trailing_zeros (ds ++ repeat "0"%char k) = ds.
Proof.
  intros Hlast. unfold strip_trailing_zeros.
  rewrite rev_app_distr, rev_repeat, strip_leading_zeros_app.
  - apply rev_involutive.
  - by rewrite rev_reverse, head_reverse.
Qed.

Lemma canonical_nonzero_head ds :
  canonical_digits ds -> exists d r, ds = d :: r /\ d <> ch_zero /\ is_digit d = true.
Proof.
  intros (Hne & Hds & Hhead & _). destruct ds as [|d r]; [done|].
  exists d, r. split; [done|]. simpl in Hds. apply andb_prop in Hds as [Hd _].
  split; [|done]. intros ->. by destruct Hhead.
Qed.

(** Zeros around canonical digits do not change the Number. *)
Lemma mk_number_canonical neg ds leading trailing point :
  canonical_digits ds ->
  mk_number neg (repeat "0"%char leading ++ ds ++ repeat "0"%char trailing) point
  = Finite neg ds (point - Z.of_nat leading).
Proof.
  intros Hds. pose proof Hds as (Hne & _ & Hhead & Hlast).
  unfold mk_number. rewrite strip_leading_zeros_app.
  - rewrite strip_trailing_zeros_app by done. by destruct ds.
  - destruct ds; [done|]. done.
Qed.

Lemma mk_number_exact neg ds point :
  canonical_digits ds -> mk_number neg ds point = Finite neg ds point.
Proof.
  intros Hds.
  pose proof (mk_number_canonical neg ds 0 0 point Hds) as Hmk.
  simpl in Hmk. rewrite app_nil_r in Hmk. rewrite Hmk. f_equal. lia.
Qed.

(** ** The exponent part *)

Lemma scan_ExponentPart_printed e rest :
  ends_digits rest ->
  scan_ExponentPart
    ("e"%char :: (if e <? 0 then "-"%char else "+"%char)
       :: digits_of_N (Z.abs_N e) ++ rest)
  = Some (e, rest).
Proof.
  intros Hrest. unfold scan_ExponentPart.
  change (Ascii.eqb "e" "e" || Ascii.eqb "e" "E") with true. cbv iota.
  assert (span_digits (digits_of_N (Z.abs_N e) ++ rest)
          = (digits_of_N (Z.abs_N e), rest)) as Hspan
    by (apply span_digits_app; [apply digits_of_N_digits | done]).
  pose proof (digits_of_N_nonempty (Z.abs_N e)) as Hne.
  destruct (Z.ltb_spec e 0).
  - change (Ascii.eqb "-" "+") with false. change (Ascii.eqb "-" "-") with true.
    cbv iota. rewrite Hspan.
    destruct (digits_of_N (Z.abs_N e)) eqn:Hds; [done|].
    rewrite <- Hds, N_of_digits_digits_of_N. f_equal. f_equal. lia.
  - change (Ascii.eqb "+" "+") with true. cbv iota. rewrite Hspan.
    destruct (digits_of_N (Z.abs_N e)) eqn:Hds; [done|].
    rewrite <- Hds, N_of_digits_digits_of_N. f_equal. f_equal. lia.
Qed.

Lemma scan_ExponentPart_none rest :
  match rest with
  | [] => True
  | c :: _ => c <> "e"%char /\ c <> "E"%char
  end ->
  scan_ExponentPart rest = None.
Proof.
  destruct rest as [|c r]; [done|]. intros [He HE]. simpl.
  destruct (Ascii.eqb_spec c "e"); [done|].
  destruct (Ascii.eqb_spec c "E"); done.
Qed.

(** ** Reading a printed numeral: Number.parseFloat *)

Lemma Number_toString_Finite neg ds n :
  Number_toString (Finite neg ds n) = sign_chars neg ++ numeral ds n.
Proof. by destruct neg. Qed.

Lemma with_exponent_none int frac rest :
  match rest with
  | [] => True
  | c :: _ => c <> "e"%char /\ c <> "E"%char
  end ->
  with_exponent int frac rest = (int ++ frac, Z.of_nat (length int), rest).
Proof. intros Hrest. unfold with_exponent. by rewrite scan_ExponentPart_none. Qed.

Lemma with_exponent_printed int frac e rest :
  ends_digits rest ->
  with_exponent int frac (printed_exponent e ++ rest)
  = (int ++ frac, Z.of_nat (length int) + e, rest).
Proof.
  intros Hrest. unfold with_exponent, printed_exponent.
  cbn [app]. by rewrite scan_ExponentPart_printed.
Qed.

Lemma scan_unsigned_int int rest :
  forallb is_digit int = true -> int <> [] ->
  match rest with
  | [] => True
  | c :: _ => is_digit c = false /\ c <> "."%char
  end ->
  scan_StrUnsignedDecimalLiteral (int ++ rest) = Some (with_exponent int [] rest).
Proof.
  intros Hint Hne Hrest. unfold scan_StrUnsignedDecimalLiteral.
  rewrite span_digits_app; [|done|by destruct rest as [|c r]; [|destruct Hrest]].
  destruct rest as [|c r].
  - by destruct int.
  - destruct Hrest as [_ Hdot].
    destruct (Ascii.eqb_spec c "."); [done|]. by destruct int.
Qed.

Lemma scan_unsigned_frac int frac rest :
  forallb is_digit int = true -> int <> [] ->
  forallb is_digit frac = true -> ends_digits rest ->
  scan_StrUnsignedDecimalLiteral (int ++ "."%char :: frac ++ rest)
  = Some (with_exponent int frac rest).
Proof.
  intros Hint Hne Hfrac Hrest. unfold scan_StrUnsignedDecimalLiteral.
  rewrite span_digits_app; [|done..].
  change (Ascii.eqb "." ".") with true. cbv iota.
  rewrite span_digits_app by done. by destruct int.
Qed.

Lemma ends_number_digits rest : ends_number rest -> ends_digits rest.
Proof. destruct rest; [done|]. by intros [? _]. Qed.

Lemma forallb_repeat_zero k : forallb is_digit (repeat "0"%char k) = true.
Proof. induction k; simpl; [done|]. by rewrite IHk. Qed.

Lemma canonical_take ds k :
  forallb is_digit ds = true -> forallb is_digit (take k ds) = true.
Proof.
  revert k. induction ds as [|d ds IH]; intros [|k]; simpl; try done.
  intros [-> Hds]%andb_prop. by apply IH.
Qed.

Lemma canonical_drop ds k :
  forallb is_digit ds = true -> forallb is_digit (drop k ds) = true.
Proof.
  revert k. induction ds as [|d ds IH]; intros [|k]; simpl; try done.
  intros [_ Hds]%andb_prop. by apply IH.
Qed.

(** The digits and the decimal point of a printed numeral, read back by
    the scanner of [parseFloat], denote the Number that was printed. *)
Lemma scan_unsigned_numeral ds n rest :
  canonical_digits ds -> ends_number rest ->
  exists digits point,
    scan_StrUnsignedDecimalLiteral (numeral ds n ++ rest)
    = Some (digits, point, rest)
    /\ forall neg, mk_number neg digits point = Finite neg ds n.
Proof.
  intros Hds Hrest.
  pose proof Hds as (Hne & Hdigits & Hhead & Hlast).
  pose proof (ends_number_digits _ Hrest) as Hrest'.
  assert (match rest with
          | [] => True
          | c :: _ => c <> "e"%char /\ c <> "E"%char
          end) as Hnoexp by (destruct rest; [done | by destruct Hrest as (_ & _ & ? & ?)]).
  assert (match rest with
          | [] => True
          | c :: _ => is_digit c = false /\ c <> "."%char
          end) as Hnodot by (destruct rest; [done | by destruct Hrest as (? & ? & _)]).
  unfold numeral, Number_toString. cbn [app].
  set (k := Z.of_nat (length ds)).
  destruct ((k <=? n) && (n <=? 21)) eqn:Hint.
  { apply andb_prop in Hint as [Hk Hn]. apply Z.leb_le in Hk, Hn.
    rewrite <- app_assoc.
    eexists _, _. split.
    - rewrite app_assoc. rewrite scan_unsigned_int; [|..|done].
      + by rewrite with_exponent_none.
      + rewrite forallb_app, Hdigits. apply forallb_repeat_zero.
      + by destruct ds.
    - intros neg. rewrite app_nil_r.
      pose proof (mk_number_canonical neg ds 0 (Z.to_nat (n - k))
                    (Z.of_nat (length (ds ++ repeat "0"%char (Z.to_nat (n - k))))) Hds)
        as Hmk. simpl in Hmk. rewrite Hmk. f_equal.
      rewrite length_app, repeat_length. lia. }
  destruct ((0 <? n) && (n <=? 21)) eqn:Hfrac.
  { apply andb_prop in Hfrac as [Hpos Hn]. apply Z.ltb_lt in Hpos.
    apply Z.leb_le in Hn.
    assert (Z.to_nat n < length ds)%nat as Hshort.
    { apply andb_false_iff in Hint as [Hk|Hk]; [apply Z.leb_gt in Hk; lia|].
      apply Z.leb_gt in Hk. lia. }
    rewrite <- app_assoc. cbn [app].
    eexists _, _. split.
    - rewrite scan_unsigned_frac; [|by apply canonical_take| |by apply canonical_drop|done].
      + by rewrite with_exponent_none.
      + destruct ds as [|d r]; [done|]. destruct (Z.to_nat n) eqn:Hn0; [lia|done].
    - intros neg. rewrite take_drop, length_take_le by lia.
      rewrite mk_number_exact by done. f_equal. lia. }
  destruct ((-6 <? n) && (n <=? 0)) eqn:Hsmall.
  { apply andb_prop in Hsmall as [Hlow Hn]. apply Z.ltb_lt in Hlow.
    apply Z.leb_le in Hn.
    cbn [app].
    eexists _, _. split.
    - change ("0"%char :: "."%char :: (repeat "0"%char (Z.to_nat (- n)) ++ ds) ++ rest)
        with (["0"%char] ++ "."%char :: (repeat "0"%char (Z.to_nat (- n)) ++ ds) ++ rest).
      rewrite scan_unsigned_frac; [|done|done| |done].
      + by rewrite with_exponent_none.
      + rewrite forallb_app, Hdigits. by rewrite forallb_repeat_zero.
    - intros neg.
      pose proof (mk_number_canonical neg ds (S (Z.to_nat (- n))) 0 1 Hds) as Hmk.
      cbn [repeat app] in Hmk. rewrite app_nil_r in Hmk.
      cbn [app length]. change (Z.of_nat 1) with 1.
      rewrite Hmk. f_equal. lia. }
  fold (printed_exponent (n - 1)).
  destruct ds as [|d [|d' r]]; [done| |].
  - cbn [app]. eexists _, _. split.
    + change (d :: printed_exponent (n - 1) ++ rest)
        with ([d] ++ printed_exponent (n - 1) ++ rest).
      rewrite scan_unsigned_int; [|done|done|by split].
      by rewrite with_exponent_printed.
    + intros neg. rewrite mk_number_exact by done. f_equal. simpl. lia.
  - eexists _, _. split.
    + change ((d :: "."%char :: (d' :: r) ++ printed_exponent (n - 1)) ++ rest)
        with ([d] ++ "."%char :: ((d' :: r) ++ printed_exponent (n - 1)) ++ rest).
      rewrite <- app_assoc.
      simpl in Hdigits. apply andb_prop in Hdigits as [Hd Hr].
      rewrite scan_unsigned_frac; [|by simpl; rewrite Hd|done|done|done].
      by rewrite with_exponent_printed.
    + intros neg. rewrite mk_number_exact by done. f_equal. simpl. lia.
Qed.

Lemma digit_neq d c : is_digit d = true -> is_digit c = false -> Ascii.eqb d c = false.
Proof. intros Hd Hc. destruct (Ascii.eqb_spec d c); [congruence | done]. Qed.

Lemma digit_not_space d : is_digit d = true -> is_StrWhiteSpaceChar d = false.
Proof.
  unfold is_digit, is_StrWhiteSpaceChar. intros [H1 H2]%andb_prop.
  apply N.leb_le in H1, H2.
  assert ((code d <=? 13)%N = false) as -> by (apply N.leb_gt; lia).
  assert ((code d =? 32)%N = false) as -> by (apply N.eqb_neq; lia).
  assert ((code d =? 160)%N = false) as -> by (apply N.eqb_neq; lia).
  by rewrite andb_false_r.
Qed.

Lemma numeral_head ds n :
  canonical_digits ds ->
  exists d tail, numeral ds n = d :: tail /\ is_digit d = true.
Proof.
  intros Hds. destruct (canonical_nonzero_head ds Hds) as (d & r & -> & _ & Hd).
  unfold numeral, Number_toString. cbn [app].
  destruct ((Z.of_nat (length (d :: r)) <=? n) && (n <=? 21));
    [by eexists _, _|].
  destruct ((0 <? n) && (n <=? 21)) eqn:Hfrac.
  { apply andb_prop in Hfrac as [Hpos _]. apply Z.ltb_lt in Hpos.
    destruct (Z.to_nat n) eqn:Hn; [lia|]. by eexists _, _. }
  destruct ((-6 <? n) && (n <=? 0)); [eexists _, _; split; reflexivity|].
  destruct r; by eexists _, _.
Qed.

(** Number.parseFloat reads back what Number::toString prints, for
    every Number but negative zero. *)
Lemma parseFloat_toString x :
  wf_number x -> x <> Zero true ->
  parseFloat (str (Number_toString x)) = x.
Proof.
  intros Hwf Hnz. unfold parseFloat. rewrite unstr_str.
  destruct x as [|neg|neg|neg ds n].
  - reflexivity.
  - by destruct neg.
  - by destruct neg.
  - simpl in Hwf. rewrite Number_toString_Finite.
    destruct (numeral_head ds n Hwf) as (d & tail & Hhead & Hd).
    destruct (scan_unsigned_numeral ds n [] Hwf I) as (digits & point & Hscan & Hmk).
    rewrite app_nil_r in Hscan.
    assert (strip_prefix (unstr "Infinity") (numeral ds n) = None) as Hinf.
    { rewrite Hhead.
      change (strip_prefix (unstr "Infinity") (d :: tail))
        with (if Ascii.eqb "I" d then strip_prefix (unstr "nfinity") tail else None).
      by rewrite Ascii.eqb_sym, digit_neq. }
    assert (scan_StrDecimalLiteral (sign_chars neg ++ numeral ds n)
            = Some (Finite neg ds n, [])) as Hlit.
    { unfold scan_StrDecimalLiteral. destruct neg.
      - change (scan_sign (sign_chars true ++ numeral ds n))
          with (true, numeral ds n).
        cbv beta iota. by rewrite Hinf, Hscan, Hmk.
      - assert (scan_sign (sign_chars false ++ numeral ds n)
                = (false, numeral ds n)) as ->.
        { change (sign_chars false ++ numeral ds n) with (numeral ds n).
          rewrite Hhead. unfold scan_sign. by rewrite !digit_neq. }
        cbv beta iota. by rewrite Hinf, Hscan, Hmk. }
    assert (trim_start (sign_chars neg ++ numeral ds n)
            = sign_chars neg ++ numeral ds n) as ->.
    { destruct neg; [done|].
      change (sign_chars false ++ numeral ds n) with (numeral ds n).
      rewrite Hhead. cbn [trim_start]. by rewrite digit_not_space. }
    by rewrite Hlit.
Qed.

Example parseFloat_negative_zero :
  parseFloat (str (Number_toString (Zero true))) = Zero false.
Proof. reflexivity. Qed.

(** ** Reading a printed numeral: JSON.parse *)

Lemma scan_JSONNumber_shape neg int frac e rest :
  forallb is_digit int = true -> int <> [] ->
  (head int = Some "0"%char -> int = ["0"%char]) ->
  match frac with
  | Some f => forallb is_digit f = true /\ f <> []
  | None => True
  end ->
  ends_number rest ->
  scan_JSONNumber (sign_chars neg ++ json_numeral int frac e ++ rest)
  = Some (mk_number neg (int ++ default [] frac)
            (Z.of_nat (length int) + default 0 e), rest).
Proof.
  intros Hint Hne Hzero Hfrac Hrest.
  pose proof (ends_number_digits _ Hrest) as Hrest'.
  unfold scan_JSONNumber.
  (* the sign *)
  destruct int as [|d int']; [done|]. clear Hne.
  pose proof Hint as Hint0.
  cbn [forallb] in Hint. apply andb_prop in Hint as [Hd Hint'].
  set (tail := from_option (fun f => "."%char :: f) [] frac
                 ++ from_option printed_exponent [] e).
  assert (json_numeral (d :: int') frac e ++ rest = d :: int' ++ tail ++ rest) as ->.
  { unfold json_numeral. subst tail. cbn [app]. by rewrite <- !app_assoc. }
  assert (match sign_chars neg ++ d :: int' ++ tail ++ rest with
          | [] => (false, sign_chars neg ++ d :: int' ++ tail ++ rest)
          | c :: r =>
              if Ascii.eqb c "-" then (true, r)
              else (false, sign_chars neg ++ d :: int' ++ tail ++ rest)
          end = (neg, d :: int' ++ tail ++ rest)) as ->.
  { destruct neg; [done|]. cbn [sign_chars app]. by rewrite digit_neq. }
  (* the integer part *)
  assert (ends_digits (tail ++ rest)) as Htail.
  { subst tail. destruct frac as [f|]; [done|]. by destruct e. }
  assert ((if Ascii.eqb d "0" then (["0"%char], int' ++ tail ++ rest)
           else span_digits (d :: int' ++ tail ++ rest))
          = (d :: int', tail ++ rest)) as ->.
  { destruct (Ascii.eqb_spec d "0") as [->|_].
    - specialize (Hzero eq_refl). by injection Hzero as ->.
    - change (d :: int' ++ tail ++ rest) with ((d :: int') ++ tail ++ rest).
      by apply span_digits_app. }
  (* the exponent, after any fraction *)
  assert (forall F,
    match from_option printed_exponent [] e ++ rest with
    | [] => Some (mk_number neg ((d :: int') ++ F) (Z.of_nat (length (d :: int'))),
                  from_option printed_exponent [] e ++ rest)
    | c :: _ =>
        if Ascii.eqb c "e" || Ascii.eqb c "E" then
          match scan_ExponentPart (from_option printed_exponent [] e ++ rest) with
          | Some (e', r3) =>
              Some (mk_number neg ((d :: int') ++ F)
                      (Z.of_nat (length (d :: int')) + e'), r3)
          | None => None
          end
        else Some (mk_number neg ((d :: int') ++ F) (Z.of_nat (length (d :: int'))),
                   from_option printed_exponent [] e ++ rest)
    end = Some (mk_number neg ((d :: int') ++ F)
                  (Z.of_nat (length (d :: int')) + default 0 e), rest)) as Hexp.
  { intros F. destruct e as [e|]; cbn [from_option default].
    - unfold printed_exponent at 1. cbn [app].
      change (Ascii.eqb "e" "e" || Ascii.eqb "e" "E") with true. cbv iota.
      fold (printed_exponent e).
      change ("e"%char :: (if e <? 0 then "-"%char else "+"%char)
                :: digits_of_N (Z.abs_N e) ++ rest)
        with (printed_exponent e ++ rest).
      unfold printed_exponent. cbn [app].
      by rewrite scan_ExponentPart_printed.
    - cbn [app]. rewrite Z.add_0_r. destruct rest as [|c r]; [done|].
      destruct Hrest as (_ & _ & He & HE).
      destruct (Ascii.eqb_spec c "e"); [done|].
      by destruct (Ascii.eqb_spec c "E"). }
  cbv beta iota. subst tail.
  destruct frac as [f|]; cbn [from_option default].
  - destruct Hfrac as [Hf Hfne]. cbn [app].
    change (Ascii.eqb "." ".") with true. cbv iota.
    rewrite <- app_assoc.
    rewrite span_digits_app; [|done|destruct e; [reflexivity|done]].
    destruct f as [|f0 f']; [done|]. apply Hexp.
  - cbn [app]. specialize (Hexp []). rewrite !app_nil_r in *.
    destruct e as [e|]; cbn [from_option] in *.
    + clear Hexp. unfold printed_exponent. cbn [app].
      change (Ascii.eqb "e" ".") with false.
      change (Ascii.eqb "e" "e" || Ascii.eqb "e" "E") with true. cbv iota.
      by rewrite scan_ExponentPart_printed.
    + cbn [app] in *. destruct rest as [|c r]; [apply Hexp|].
      destruct Hrest as (_ & Hdot & _).
      destruct (Ascii.eqb_spec c "."); [done|]. apply Hexp.
Qed.

(** A printed numeral is a JSON numeral that denotes the Number. *)
Lemma numeral_json ds n :
  canonical_digits ds ->
  exists int frac e,
    numeral ds n = json_numeral int frac e
    /\ forallb is_digit int = true /\ int <> []
    /\ (head int = Some "0"%char -> int = ["0"%char])
    /\ match frac with
       | Some f => forallb is_digit f = true /\ f <> []
       | None => True
       end
    /\ forall neg,
         mk_number neg (int ++ default [] frac)
           (Z.of_nat (length int) + default 0 e)
         = Finite neg ds n.
Proof.
  intros Hds. pose proof Hds as (Hne & Hdigits & Hhead & Hlast).
  unfold numeral, Number_toString. cbn [app].
  set (k := Z.of_nat (length ds)).
  destruct ((k <=? n) && (n <=? 21)) eqn:Hint.
  { apply andb_prop in Hint as [Hk Hn]. apply Z.leb_le in Hk, Hn.
    exists (ds ++ repeat "0"%char (Z.to_nat (n - k))), None, None.
    unfold json_numeral. cbn [from_option default id]. rewrite !app_nil_r.
    split; [done|]. split; [by rewrite forallb_app, Hdigits, forallb_repeat_zero|].
    split; [by destruct ds|]. split; [by destruct ds|]. split; [done|].
    intros neg.
    pose proof (mk_number_canonical neg ds 0 (Z.to_nat (n - k))
                  (Z.of_nat (length (ds ++ repeat "0"%char (Z.to_nat (n - k)))) + 0)
                  Hds) as Hmk.
    cbn [repeat app] in Hmk. rewrite Hmk. f_equal.
    rewrite length_app, repeat_length. lia. }
  destruct ((0 <? n) && (n <=? 21)) eqn:Hfrac.
  { apply andb_prop in Hfrac as [Hpos Hn]. apply Z.ltb_lt in Hpos.
    apply Z.leb_le in Hn.
    assert (Z.to_nat n < length ds)%nat as Hshort.
    { apply andb_false_iff in Hint as [Hk|Hk]; apply Z.leb_gt in Hk; lia. }
    exists (take (Z.to_nat n) ds), (Some (drop (Z.to_nat n) ds)), None.
    unfold json_numeral. cbn [from_option default id]. rewrite !app_nil_r.
    split; [done|]. split; [by apply canonical_take|].
    assert (exists d r, ds = d :: r) as (d & r & ->) by (destruct ds; eauto; done).
    destruct (Z.to_nat n) as [|m] eqn:Hm; [lia|].
    split; [done|]. split; [intros [= ->]; by destruct Hhead|].
    split.
    { split; [by apply (canonical_drop (d :: r) (S m))|].
      intros Hnil. apply (f_equal length) in Hnil.
      rewrite length_drop in Hnil. simpl in *. lia. }
    intros neg. rewrite take_drop, length_take_le by (simpl in *; lia).
    rewrite mk_number_exact by done. f_equal. lia. }
  destruct ((-6 <? n) && (n <=? 0)) eqn:Hsmall.
  { apply andb_prop in Hsmall as [Hlow Hn]. apply Z.ltb_lt in Hlow.
    apply Z.leb_le in Hn.
    exists ["0"%char], (Some (repeat "0"%char (Z.to_nat (- n)) ++ ds)), None.
    unfold json_numeral. cbn [from_option default id app]. rewrite !app_nil_r.
    split; [done|]. split; [done|]. split; [done|]. split; [done|].
    split.
    { split; [by rewrite forallb_app, Hdigits, forallb_repeat_zero|].
      destruct ds; [done|]. by destruct (repeat _ _). }
    intros neg.
    pose proof (mk_number_canonical neg ds (S (Z.to_nat (- n))) 0 1 Hds) as Hmk.
    cbn [repeat app] in Hmk. rewrite app_nil_r in Hmk.
    cbn [length]. change (Z.of_nat 1 + 0) with 1.
    rewrite Hmk. f_equal. lia. }
  fold (printed_exponent (n - 1)).
  destruct ds as [|d [|d' r]]; [done| |].
  - exists [d], None, (Some (n - 1)).
    unfold json_numeral. cbn [from_option default id app].
    simpl in Hdigits.
    split; [done|]. split; [done|]. split; [done|].
    split; [intros [= ->]; by destruct Hhead|]. split; [done|].
    intros neg. rewrite mk_number_exact by done. f_equal. simpl. lia.
  - exists [d], (Some (d' :: r)), (Some (n - 1)).
    unfold json_numeral. cbn [from_option default id app].
    simpl in Hdigits. apply andb_prop in Hdigits as [Hd Hr].
    split; [done|]. split; [by simpl; rewrite Hd|]. split; [done|].
    split; [intros [= ->]; by destruct Hhead|]. split; [done|].
    intros neg. rewrite mk_number_exact by done. f_equal. simpl. lia.
Qed.

Lemma scan_JSONNumber_printed neg ds n rest :
  canonical_digits ds -> ends_number rest ->
  scan_JSONNumber (Number_toString (Finite neg ds n) ++ rest)
  = Some (Finite neg ds n, rest).
Proof.
  intros Hds Hrest. rewrite Number_toString_Finite.
  destruct (numeral_json ds n Hds)
    as (int & frac & e & -> & Hint & Hne & Hzero & Hfrac & Hmk).
  rewrite <- app_assoc.
  rewrite scan_JSONNumber_shape by done. by rewrite Hmk.
Qed.

(** ** Reading a quoted string *)

Lemma scan_JSONString_escape c tail :
  scan_JSONString (escape_char c ++ tail) =
  match scan_JSONString tail with
  | Some (s, r) => Some (c :: s, r)
  | None => None
  end.
Proof.
  destruct c as [[] [] [] [] [] [] [] []]; reflexivity.
Qed.

Lemma scan_JSONString_quoted cs rest :
  scan_JSONString (concat (map escape_char cs) ++ ch_quote :: rest)
  = Some (cs, rest).
Proof.
  induction cs as [|c cs IH]; [reflexivity|].
  cbn [map concat]. rewrite <- app_assoc, scan_JSONString_escape. by rewrite IH.
Qed.

Lemma QuoteJSONString_app s rest :
  QuoteJSONString s ++ rest
  = ch_quote :: concat (map escape_char (unstr s)) ++ ch_quote :: rest.
Proof. unfold QuoteJSONString. cbn [app]. by rewrite <- app_assoc. Qed.

(** ** Property order *)

Lemma existsb_key_false {A} k (props : list (string * A)) :
  k ∉ map fst props -> existsb (fun p => String.eqb (fst p) k) props = false.
Proof.
  induction props as [|[k' v] props IH]; [done|]. simpl.
  intros [Hne Hnotin]%not_elem_of_cons.
  destruct (String.eqb_spec k' k); [congruence|]. by apply IH.
Qed.

Lemma insert_property_last {A} k (v : A) props :
  Forall (fun p => stays_before (fst p) k = true) props ->
  insert_property k v props = props ++ [(k, v)].
Proof.
  induction 1 as [|[k' v'] props Hk Hprops IH]; [done|]. simpl in *.
  by rewrite Hk, IH.
Qed.

Lemma property_order_before l1 k l2 :
  property_order (l1 ++ k :: l2) ->
  Forall (fun k' => stays_before k' k = true) l1.
Proof.
  induction l1 as [|a l1 IH]; [constructor|]. simpl. intros [Ha Hrest].
  constructor; [|by apply IH].
  apply Forall_app in Ha as [_ Ha]. by apply Forall_cons in Ha as [? _].
Qed.

(** Creating the properties of an object in the order it lists them
    gives the object back. *)
Lemma fold_CreateDataProperty_rebuild (props acc : list (string * JsValue)) :
  NoDup (map fst (acc ++ props)) ->
  property_order (map fst (acc ++ props)) ->
  fold_left (fun o m => CreateDataProperty o (fst m) (snd m)) props acc
  = acc ++ props.
Proof.
  revert acc. induction props as [|[k v] props IH]; intros acc Hnodup Horder.
  - by rewrite app_nil_r.
  - cbn [fold_left fst snd].
    assert (CreateDataProperty acc k v = acc ++ [(k, v)]) as ->.
    { unfold CreateDataProperty. rewrite existsb_key_false.
      - apply insert_property_last. rewrite map_app in Horder. cbn [map fst] in Horder.
        apply property_order_before in Horder.
        by apply Forall_map in Horder.
      - rewrite map_app in Hnodup. apply NoDup_app in Hnodup as (_ & Hdisj & _).
        intros Hin. apply (Hdisj k Hin). simpl. left. }
    rewrite IH; rewrite <- app_assoc; done.
Qed.

(** ** JSON.parse after JSON.stringify *)

Lemma size_array elements : size (VArray elements) = S (sizes elements).
Proof.
  unfold sizes. simpl. f_equal.
  induction elements as [|e r IH]; simpl; [done|]. by rewrite IH.
Qed.

Lemma size_object properties :
  size (VObject properties) = S (sizes (map snd properties)).
Proof.
  unfold sizes. simpl. f_equal.
  induction properties as [|p r IH]; simpl; [done|]. by rewrite IH.
Qed.

Lemma json_data_array elements :
  json_data (VArray elements) <-> Forall json_data elements.
Proof.
  induction elements as [|e r IH]; simpl.
  - split; [constructor | done].
  - rewrite Forall_cons. simpl in IH. by rewrite IH.
Qed.

Lemma json_data_object properties :
  json_data (VObject properties)
  <-> NoDup (map fst properties) /\ property_order (map fst properties)
      /\ Forall json_data (map snd properties).
Proof.
  simpl. do 2 (apply and_iff_compat_l).
  induction properties as [|p r IH]; simpl.
  - split; [constructor | done].
  - rewrite Forall_cons. by rewrite IH.
Qed.

Lemma parse_value_string fuel cs :
  parse_value (S fuel) (ch_quote :: cs) =
  match scan_JSONString cs with
  | Some (s, rest) => Parsed (VString (str s)) rest
  | None => Malformed
  end.
Proof. reflexivity. Qed.

Lemma parse_value_array fuel cs :
  parse_value (S fuel) ("["%char :: cs) =
  match skip_ws cs with
  | c' :: r' =>
      if Ascii.eqb c' "]" then Parsed (VArray []) r'
      else
        match parse_elements fuel cs with
        | Parsed vs rest => Parsed (VArray vs) rest
        | Malformed => Malformed
        | Exhausted => Exhausted
        end
  | [] => Malformed
  end.
Proof. reflexivity. Qed.

Lemma parse_value_object fuel cs :
  parse_value (S fuel) ("{"%char :: cs) =
  match skip_ws cs with
  | c' :: r' =>
      if Ascii.eqb c' "}" then Parsed (VObject []) r'
      else
        match parse_members fuel cs with
        | Parsed ms rest =>
            Parsed (VObject
              (fold_left (fun o m => CreateDataProperty o (fst m) (snd m)) ms []))
              rest
        | Malformed => Malformed
        | Exhausted => Exhausted
        end
  | [] => Malformed
  end.
Proof. reflexivity. Qed.

Lemma digit_not_json_ws d : is_digit d = true -> is_json_ws d = false.
Proof.
  unfold is_digit, is_json_ws. intros [H1 H2]%andb_prop. apply N.leb_le in H1, H2.
  repeat (apply orb_false_intro); apply N.eqb_neq; lia.
Qed.

Lemma skip_ws_value t rest : starts_value t -> skip_ws (t ++ rest) = t ++ rest.
Proof.
  destruct t as [|c t]; [done|]. intros (Hws & _). cbn [app].
  unfold skip_ws. by rewrite Hws.
Qed.

Lemma parse_value_number fuel c cs :
  is_digit c = true \/ c = "-"%char ->
  parse_value (S fuel) (c :: cs) =
  match scan_JSONNumber (c :: cs) with
  | Some (x, rest) => Parsed (VNumber x) rest
  | None => Malformed
  end.
Proof.
  intros [Hd | ->]; [|reflexivity].
  cbn [parse_value]. unfold skip_ws. rewrite digit_not_json_ws by done.
  by rewrite !digit_neq.
Qed.

Lemma reads_back_number x :
  is_finite x = true -> wf_number x -> x <> Zero true -> reads_back (VNumber x).
Proof.
  intros Hfin Hwf Hnz. unfold reads_back. cbn [SerializeJSONProperty size].
  rewrite Hfin. eexists. split; [done|].
  destruct x as [|neg|[]|neg ds n]; try done.
  - (* zero *)
    split; [done|]. split; [simpl; lia|].
    intros [|fuel] rest Hfuel Hrest; [lia|].
    change (Number_toString (Zero false) ++ rest) with ("0"%char :: rest).
    rewrite parse_value_number by (by left).
    pose proof (scan_JSONNumber_shape false ["0"%char] None None rest
                  eq_refl ltac:(done) ltac:(done) I Hrest) as Hscan.
    cbn [sign_chars json_numeral from_option default app] in Hscan.
    by rewrite Hscan.
  - (* finite *)
    simpl in Hwf. destruct (numeral_head ds n Hwf) as (d & tail & Hhead & Hd).
    rewrite Number_toString_Finite.
    assert (exists c t, sign_chars neg ++ numeral ds n = c :: t
                        /\ (is_digit c = true \/ c = "-"%char)) as (c & t & Htext & Hc).
    { destruct neg; cbn [sign_chars app]; [by eexists _, _; eauto|].
      rewrite Hhead. by eexists _, _; eauto. }
    split; [|split].
    + rewrite Htext. destruct Hc as [Hc | ->]; [|done].
      split; [by apply digit_not_json_ws|]. split; intros ->; done.
    + rewrite Htext. simpl. lia.
    + intros [|fuel] rest Hfuel Hrest; [lia|].
      pose proof (scan_JSONNumber_printed neg ds n rest Hwf Hrest) as Hscan.
      rewrite Number_toString_Finite in Hscan.
      revert Hscan. rewrite Htext. cbn [app]. intros Hscan.
      rewrite parse_value_number by done. by rewrite Hscan.
Qed.

Lemma reads_back_string s : reads_back (VString s).
Proof.
  unfold reads_back. cbn [SerializeJSONProperty size]. eexists. split; [done|].
  split; [done|]. split; [unfold QuoteJSONString; simpl; lia|].
  intros [|fuel] rest Hfuel Hrest; [lia|].
  rewrite QuoteJSONString_app, parse_value_string, scan_JSONString_quoted.
  by rewrite str_unstr.
Qed.

Lemma reads_back_literal v :
  v = VNull \/ v = VBoolean true \/ v = VBoolean false -> reads_back v.
Proof.
  intros [-> | [-> | ->]]; unfold reads_back; cbn [SerializeJSONProperty size];
    (eexists; split; [done|]; split; [done|]; split; [simpl; lia|];
     intros [|fuel] rest Hfuel Hrest; [lia | reflexivity]).
Qed.

Lemma parse_elements_unfold fuel cs :
  parse_elements (S fuel) cs =
  match parse_value fuel cs with
  | Parsed v r =>
      match skip_ws r with
      | c :: r' =>
          if Ascii.eqb c "," then
            match parse_elements fuel r' with
            | Parsed vs rest => Parsed (v :: vs) rest
            | Malformed => Malformed
            | Exhausted => Exhausted
            end
          else if Ascii.eqb c "]" then Parsed [v] r'
          else Malformed
      | [] => Malformed
      end
  | Malformed => Malformed
  | Exhausted => Exhausted
  end.
Proof. reflexivity. Qed.

Lemma join_comma_cons p parts :
  parts <> [] -> join_comma (p :: parts) = p ++ ","%char :: join_comma parts.
Proof. by destruct parts. Qed.

Lemma ends_number_separator c rest :
  c = ","%char \/ c = "]"%char \/ c = "}"%char -> ends_number (c :: rest).
Proof. intros [-> | [-> | ->]]; done. Qed.

(** The elements of a non-empty array. *)
Lemma array_reads_back elements :
  Forall reads_back elements -> elements <> [] ->
  exists parts,
    SerializeJSONArray elements = Normal parts
    /\ parts <> []
    /\ starts_value (join_comma parts)
    /\ (sizes elements <= S (length (join_comma parts)))%nat
    /\ forall fuel rest,
         (sizes elements < fuel)%nat ->
         parse_elements fuel (join_comma parts ++ "]"%char :: rest)
         = Parsed elements rest.
Proof.
  induction 1 as [|e r (t & Ht & Hstart & Hsize & Hparse) Hr IH]; [done|].
  intros _. cbn [SerializeJSONArray]. rewrite Ht.
  destruct r as [|e2 r].
  - (* the last element *)
    exists [t]. cbn [SerializeJSONArray default from_option id join_comma].
    split; [done|]. split; [done|]. split; [done|].
    unfold sizes. cbn [map list_sum fold_right]. split; [lia|].
    intros [|fuel] rest Hfuel; [lia|].
    rewrite parse_elements_unfold.
    rewrite Hparse; [|lia|by apply ends_number_separator; auto].
    reflexivity.
  - destruct IH as (parts & Hparts & Hne & Hstart' & Hsize' & Hparse');
      [done|].
    rewrite Hparts. exists (t :: parts). cbn [default from_option id].
    split; [done|]. split; [done|].
    rewrite join_comma_cons by done.
    split; [by destruct t|].
    unfold sizes in *. cbn [map list_sum fold_right] in *.
    split; [rewrite length_app; simpl; lia|].
    intros [|fuel] rest Hfuel; [lia|].
    rewrite parse_elements_unfold, <- app_assoc.
    rewrite Hparse; [|lia|by apply ends_number_separator; auto].
    cbn [app].
    change (skip_ws (","%char :: join_comma parts ++ "]"%char :: rest))
      with (","%char :: join_comma parts ++ "]"%char :: rest).
    change (Ascii.eqb "," ",") with true. cbv iota.
    rewrite Hparse' by lia. reflexivity.
Qed.

Lemma parse_members_unfold fuel cs :
  parse_members (S fuel) (ch_quote :: cs) =
  match scan_JSONString cs with
  | Some (k, r1) =>
      match skip_ws r1 with
      | colon :: r2 =>
          if Ascii.eqb colon ":" then
            match parse_value fuel r2 with
            | Parsed v r =>
                match skip_ws r with
                | c :: r' =>
                    if Ascii.eqb c "," then
                      match parse_members fuel r' with
                      | Parsed ms rest => Parsed ((str k, v) :: ms) rest
                      | Malformed => Malformed
                      | Exhausted => Exhausted
                      end
                    else if Ascii.eqb c "}" then Parsed [(str k, v)] r'
                    else Malformed
                | [] => Malformed
                end
            | Malformed => Malformed
            | Exhausted => Exhausted
            end
          else Malformed
      | [] => Malformed
      end
  | None => Malformed
  end.
Proof. reflexivity. Qed.

Lemma member_text k t tail :
  (QuoteJSONString k ++ ":"%char :: t) ++ tail
  = ch_quote :: concat (map escape_char (unstr k)) ++ ch_quote :: ":"%char :: t ++ tail.
Proof. rewrite <- app_assoc. cbn [app]. by rewrite QuoteJSONString_app. Qed.

(** The properties of a non-empty object. *)
Lemma object_reads_back (properties : list (string * JsValue)) :
  Forall (fun p => reads_back (snd p)) properties -> properties <> [] ->
  exists parts,
    SerializeJSONObject properties = Normal parts
    /\ parts <> []
    /\ starts_value (join_comma parts)
    /\ (sizes (map snd properties) <= S (length (join_comma parts)))%nat
    /\ forall fuel rest,
         (sizes (map snd properties) < fuel)%nat ->
         parse_members fuel (join_comma parts ++ "}"%char :: rest)
         = Parsed properties rest.
Proof.
  induction 1 as [|[k e] r (t & Ht & Hstart & Hsize & Hparse) Hr IH]; [done|].
  intros _. cbn [SerializeJSONObject snd] in *. rewrite Ht.
  destruct r as [|p2 r].
  - exists [QuoteJSONString k ++ ":"%char :: t].
    cbn [SerializeJSONObject join_comma map].
    split; [done|]. split; [done|]. split; [done|].
    unfold sizes. cbn [map list_sum fold_right snd].
    split; [rewrite length_app; simpl; lia|].
    intros [|fuel] rest Hfuel; [lia|].
    rewrite member_text, parse_members_unfold, scan_JSONString_quoted.
    change (skip_ws (":"%char :: t ++ "}"%char :: rest))
      with (":"%char :: t ++ "}"%char :: rest).
    change (Ascii.eqb ":" ":") with true. cbv iota.
    rewrite Hparse; [|lia|by apply ends_number_separator; auto].
    by rewrite str_unstr.
  - destruct IH as (parts & Hparts & Hne & Hstart' & Hsize' & Hparse');
      [done|].
    rewrite Hparts. exists ((QuoteJSONString k ++ ":"%char :: t) :: parts).
    split; [done|]. split; [done|].
    rewrite join_comma_cons by done.
    split; [done|].
    unfold sizes in *. cbn [map list_sum fold_right snd] in *.
    split; [rewrite !length_app; simpl; rewrite length_app; simpl; lia|].
    intros [|fuel] rest Hfuel; [lia|].
    rewrite <- app_assoc, member_text, parse_members_unfold, scan_JSONString_quoted.
    change (skip_ws (":"%char :: t ++ (","%char :: join_comma parts) ++ "}"%char :: rest))
      with (":"%char :: t ++ (","%char :: join_comma parts) ++ "}"%char :: rest).
    change (Ascii.eqb ":" ":") with true. cbv iota.
    cbn [app].
    rewrite Hparse; [|lia|by apply ends_number_separator; auto].
    change (skip_ws (","%char :: join_comma parts ++ "}"%char :: rest))
      with (","%char :: join_comma parts ++ "}"%char :: rest).
    change (Ascii.eqb "," ",") with true. cbv iota.
    rewrite Hparse' by lia. by rewrite str_unstr.
Qed.

(** JSON.stringify prints every value JSON represents exactly as a
    text that JSON.parse reads back as that value. *)
Lemma json_data_reads_back v : json_data v -> reads_back v.
Proof.
  induction v as [| |b|x|z|s|id d|id|elements IH|properties IH]
    using JsValue_ind; intros Hv; try done.
  - apply reads_back_literal. auto.
  - apply reads_back_literal. destruct b; auto.
  - destruct Hv as (? & ? & ?). by apply reads_back_number.
  - apply reads_back_string.
  - (* arrays *)
    apply json_data_array in Hv.
    assert (Forall reads_back elements) as Hread.
    { clear -IH Hv. induction Hv as [|e r He Hr IHr]; [constructor|].
      apply Forall_cons in IH as [IHe IH]. constructor; auto. }
    unfold reads_back. rewrite SerializeJSONProperty_array, size_array.
    destruct elements as [|e r].
    + eexists. split; [done|]. split; [done|]. split; [unfold sizes; simpl; lia|].
      intros [|fuel] rest Hfuel Hrest; [lia | reflexivity].
    + destruct (array_reads_back (e :: r) Hread)
        as (parts & -> & Hne & Hstart & Hsize & Hparse); [done|].
      eexists. split; [done|]. split; [done|].
      split; [simpl; rewrite length_app; simpl; lia|].
      intros [|fuel] rest Hfuel Hrest; [lia|].
      cbn [app]. rewrite <- app_assoc. cbn [app].
      rewrite parse_value_array, skip_ws_value by done.
      destruct (join_comma parts) as [|c t] eqn:Hjoin; [done|].
      destruct Hstart as (_ & Hbracket & _). cbn [app].
      destruct (Ascii.eqb_spec c "]"); [done|].
      change (c :: t ++ "]"%char :: rest) with ((c :: t) ++ "]"%char :: rest).
      rewrite Hparse by lia. done.
  - (* objects *)
    apply json_data_object in Hv as (Hnodup & Horder & Hv).
    assert (Forall (fun p => reads_back (snd p)) properties) as Hread.
    { clear -IH Hv. induction properties as [|p r IHr]; [constructor|].
      apply Forall_cons in IH as [IHe IH]. simpl in Hv.
      apply Forall_cons in Hv as [He Hr]. constructor; auto. }
    unfold reads_back. rewrite SerializeJSONProperty_object, size_object.
    destruct properties as [|p r].
    + eexists. split; [done|]. split; [done|]. split; [unfold sizes; simpl; lia|].
      intros [|fuel] rest Hfuel Hrest; [lia | reflexivity].
    + destruct (object_reads_back (p :: r) Hread)
        as (parts & -> & Hne & Hstart & Hsize & Hparse); [done|].
      eexists. split; [done|]. split; [done|].
      split; [cbn [length]; rewrite length_app; cbn [length]; lia|].
      intros [|fuel] rest Hfuel Hrest; [lia|].
      cbn [app]. rewrite <- app_assoc. cbn [app].
      rewrite parse_value_object, skip_ws_value by done.
      destruct (join_comma parts) as [|c t] eqn:Hjoin; [done|].
      destruct Hstart as (_ & _ & Hbrace). cbn [app].
      destruct (Ascii.eqb_spec c "}"); [done|].
      change (c :: t ++ "}"%char :: rest) with ((c :: t) ++ "}"%char :: rest).
      rewrite Hparse by lia.
      by rewrite (fold_CreateDataProperty_rebuild (p :: r) []).
Qed.

(** JSON.parse(JSON.stringify(v)) is [v] for JSON data. *)
Lemma JSON_parse_stringify v :
  json_data v ->
  exists text, JSON_stringify v = Normal (Some text) /\ JSON_parse text = Normal v.
Proof.
  intros Hv. destruct (json_data_reads_back v Hv) as (t & Ht & _ & Hsize & Hparse).
  exists (str t). unfold JSON_stringify, JSON_parse. rewrite Ht. split; [done|].
  rewrite unstr_str. specialize (Hparse (2 * length t + 2)%nat [] ltac:(lia) I).
  rewrite app_nil_r in Hparse. by rewrite Hparse.
Qed.

(** ** C1: persisting and reloading a value *)

(** C1 as stated does not hold.  Negative zero is persisted as ["0"]
    and reloads as positive zero; an object with an [undefined]
    property reloads without the property, and an array holding NaN
    reloads holding [null].  (The boolean [false] is persisted as
    ["false"], which [Boolean] reads as [true].) *)
Lemma C1_counterexample :
  let w := new_world ∅ 0 in
  fst (reload (VNumber (Zero true)) w) = Normal (VNumber (Zero false))
  /\ fst (reload (VObject [("a"%string, VUndefined)]) w) = Normal (VObject [])
  /\ fst (reload (VArray [VNumber NaN]) w) = Normal (VArray [VNull])
  /\ fst (reload (VBoolean false) w) = Normal (VBoolean true).
Proof. vm_compute. done. Qed.

Lemma reload_unfold value w :
  reload value w =
  match valueToString value with
  | Normal s => valueFromString s (typeof value) w
  | Throw e => (Throw e, w)
  end.
Proof. unfold reload. unfold_monad. by destruct (valueToString value). Qed.

(** C1, amended.  Serializing a value with [valueToString] and
    deserializing the string with [valueFromString] under the kind of
    the value yields the original value
    - for every string;
    - for every Number except negative zero;
    - for the boolean [true];
    - for every value of kind object that JSON represents exactly:
      null, and arrays and objects built from null, booleans, strings
      and finite Numbers other than negative zero (equality of objects
      is structural).
    For a symbol it yields a symbol created by the call, different
    from every symbol that existed before, whose description is the
    printed form of the original; for a BigInt it yields a Number. *)
Theorem C1_codec_round_trip (w : World) :
  (forall s, reload (VString s) w = (Normal (VString s), w))
  /\ (forall x, wf_number x -> x <> Zero true ->
        reload (VNumber x) w = (Normal (VNumber x), w))
  /\ reload (VBoolean true) w = (Normal (VBoolean true), w)
  /\ (forall v, typeof v = TObject -> json_data v -> reload v w = (Normal v, w))
  /\ (forall id description,
        fst (reload (VSymbol id description) w)
        = Normal (VSymbol (symbols w) (Some (toString (VSymbol id description))))
        /\ ((id < symbols w)%nat ->
            VSymbol (symbols w) (Some (toString (VSymbol id description)))
            <> VSymbol id description))
  /\ (forall z, exists x,
        reload (VBigInt z) w = (Normal (VNumber x), w)
        /\ typeof (VNumber x) <> typeof (VBigInt z)).
Proof.
  split; [|split; [|split; [|split; [|split]]]].
  - intros s. by rewrite reload_unfold.
  - intros x Hwf Hnz. rewrite reload_unfold. cbn.
    unfold ret. by rewrite parseFloat_toString.
  - by rewrite reload_unfold.
  - intros v Hty Hv. rewrite reload_unfold.
    destruct (JSON_parse_stringify v Hv) as (text & Hprint & Hparse).
    unfold valueToString. rewrite Hty, Hprint. cbn. unfold lift. by rewrite Hparse.
  - intros id description. split; [by rewrite reload_unfold|].
    intros Hold [= Hid _]. lia.
  - intros z. eexists. split; [by rewrite reload_unfold | done].
Qed.

Lemma C1_witness :
  reload (num 123) world_test = (Normal (num 123), world_test)
  /\ reload sample_object world_test = (Normal sample_object, world_test)
  /\ VSymbol (symbols (new_world ∅ 1)) (Some (toString (VSymbol 0 (Some "id"))))
     <> VSymbol 0 (Some "id").
Proof.
  destruct (C1_codec_round_trip world_test)
    as (_ & Hnumber & _ & Hobject & _ & _).
  destruct (C1_codec_round_trip (new_world ∅ 1))
    as (_ & _ & _ & _ & Hsymbol & _).
  assert (wf_number (number_of_N 123)) as Hwf123
    by (vm_compute; repeat split; discriminate).
  assert (wf_number (Finite false (unstr "15") 1)) as Hwf15
    by (vm_compute; repeat split; discriminate).
  split; [|split].
  - apply Hnumber; [exact Hwf123 | discriminate].
  - apply Hobject; [reflexivity|].
    apply json_data_object. split; [|split].
    + cbn [sample_object map fst]. compute_done.
    + cbn [map fst property_order]. repeat split; repeat constructor.
    + cbn [map snd]. constructor; [|repeat constructor].
      apply json_data_array. constructor; [|repeat constructor].
      cbn [json_data]. split; [reflexivity|]. split; [exact Hwf15 | discriminate].
  - apply (proj2 (Hsymbol 0%nat (Some "id"%string))). vm_compute. lia.
Defined.

(** ** JSON.parse never runs out of nested calls *)

Lemma skip_ws_length cs : (length (skip_ws cs) <= length cs)%nat.
Proof.
  induction cs as [|c cs IH]; [done|]. unfold skip_ws. fold skip_ws.
  destruct (is_json_ws c); simpl; lia.
Qed.

Lemma skip_ws_cons cs c r : skip_ws cs = c :: r -> (length r < length cs)%nat.
Proof. intros H. pose proof (skip_ws_length cs). rewrite H in *. simpl in *. lia. Qed.

Lemma strip_prefix_length p cs r :
  strip_prefix p cs = Some r -> (length r <= length cs)%nat.
Proof.
  revert cs. induction p as [|a p IH]; intros cs.
  - unfold strip_prefix. by intros [= ->].
  - destruct cs as [|c cs]; [done|]. unfold strip_prefix. fold strip_prefix.
    destruct (Ascii.eqb a c); [|done]. intros H%IH. simpl. lia.
Qed.

Lemma span_digits_length cs ds r :
  span_digits cs = (ds, r) -> (length r <= length cs)%nat.
Proof.
  revert ds r. induction cs as [|c cs IH]; intros ds r; simpl.
  - by intros [= <- <-].
  - destruct (is_digit c); [|by intros [= <- <-]].
    destruct (span_digits cs) as [ds' r'] eqn:Hspan. intros [= <- <-].
    specialize (IH _ _ eq_refl). lia.
Qed.

Lemma scan_ExponentPart_length cs e r :
  scan_ExponentPart cs = Some (e, r) -> (length r < length cs)%nat.
Proof.
  unfold scan_ExponentPart. destruct cs as [|c cs]; [done|].
  destruct (_ || _); [|done].
  destruct cs as [|s cs'].
  - by cbn [span_digits].
  - destruct (Ascii.eqb s "+"); [|destruct (Ascii.eqb s "-")];
      match goal with
      | |- context [span_digits ?x] =>
          destruct (span_digits x) as [[|d ds] r'] eqn:Hspan; [done|];
          apply span_digits_length in Hspan
      end; intros [= _ <-]; simpl in *; lia.
Qed.

Lemma scan_JSONString_length cs s r :
  scan_JSONString cs = Some (s, r) -> (length r < length cs)%nat.
Proof.
  remember (length cs) as n eqn:Hn. revert cs s r Hn.
  induction n as [n IH] using lt_wf_ind. intros cs s r Hn.
  destruct cs as [|c cs]; [done|]. unfold scan_JSONString. fold scan_JSONString.
  simpl in Hn.
  assert (forall tail d,
            (length tail < n)%nat ->
            match scan_JSONString tail with
            | Some (s0, rest) => Some (d :: s0, rest)
            | None => None
            end = Some (s, r) -> (length r < n)%nat) as Hstep.
  { intros tail d Htail.
    destruct (scan_JSONString tail) as [[s0 rest]|] eqn:Hscan; [|done].
    intros [= _ <-]. apply (IH (length tail)) in Hscan; [lia|done..]. }
  destruct (Ascii.eqb c ch_quote); [intros [= _ <-]; lia|].
  destruct (Ascii.eqb c ch_backslash).
  - destruct cs as [|e r1]; [done|]. simpl in Hn.
    repeat (match goal with
            | |- (if ?b then _ else _) = _ -> _ =>
                destruct b; [apply Hstep; lia|]
            end).
    destruct (Ascii.eqb e "u"); [|done].
    destruct r1 as [|h1 [|h2 [|h3 [|h4 r2]]]]; try done.
    destruct (unicode_escape h1 h2 h3 h4) as [d|]; [|done].
    apply Hstep. simpl in *. lia.
  - destruct (code c <? 32)%N; [done|]. apply Hstep. lia.
Qed.

Lemma scan_JSONNumber_length cs x r :
  scan_JSONNumber cs = Some (x, r) -> (length r < length cs)%nat.
Proof.
  unfold scan_JSONNumber.
  set (signed := match cs with
                 | [] => (false, cs)
                 | c :: r0 => if Ascii.eqb c "-" then (true, r0) else (false, cs)
                 end).
  assert (length (snd signed) <= length cs)%nat as Hsign.
  { subst signed. destruct cs as [|c cs]; [done|].
    destruct (Ascii.eqb c "-"); simpl; lia. }
  destruct signed as [neg r0]. simpl in Hsign.
  set (integer := match r0 with
                  | [] => ([], [])
                  | c :: r1 =>
                      if Ascii.eqb c "0" then (["0"%char], r1) else span_digits r0
                  end).
  assert (fst integer <> [] -> length (snd integer) < length r0)%nat as Hint.
  { subst integer. destruct r0 as [|c r1]; [done|].
    destruct (Ascii.eqb c "0"); [simpl; lia|].
    simpl. destruct (is_digit c); [|done].
    destruct (span_digits r1) as [ds r'] eqn:Hspan.
    apply span_digits_length in Hspan. simpl. lia. }
  destruct integer as [[|d int] r1]; [done|].
  specialize (Hint ltac:(done)). simpl in Hint.
  assert (forall frac r2,
    (length r2 <= length r1)%nat ->
    match r2 with
    | [] => Some (mk_number neg ((d :: int) ++ frac) (Z.of_nat (length (d :: int))), r2)
    | c :: _ =>
        if Ascii.eqb c "e" || Ascii.eqb c "E" then
          match scan_ExponentPart r2 with
          | Some (e, r3) =>
              Some (mk_number neg ((d :: int) ++ frac)
                      (Z.of_nat (length (d :: int)) + e), r3)
          | None => None
          end
        else Some (mk_number neg ((d :: int) ++ frac) (Z.of_nat (length (d :: int))), r2)
    end = Some (x, r) -> (length r < length cs)%nat) as Hexp.
  { intros frac r2 Hr2. destruct r2 as [|c r2']; [intros [= _ <-]; simpl in *; lia|].
    destruct (_ || _).
    - destruct (scan_ExponentPart (c :: r2')) as [[e r3]|] eqn:He; [|done].
      apply scan_ExponentPart_length in He. intros [= _ <-]. lia.
    - intros [= _ <-]. lia. }
  destruct r1 as [|c r1']; [by apply (Hexp [] [])|].
  destruct (Ascii.eqb c ".").
  - destruct (span_digits r1') as [[|f frac] r2] eqn:Hspan; [done|].
    apply span_digits_length in Hspan. apply Hexp. simpl. lia.
  - by apply (Hexp [] (c :: r1')).
Qed.

Lemma parse_consumes fuel :
  (forall cs v r, parse_value fuel cs = Parsed v r -> (length r < length cs)%nat)
  /\ (forall cs vs r, parse_elements fuel cs = Parsed vs r ->
        (length r < length cs)%nat)
  /\ (forall cs ms r, parse_members fuel cs = Parsed ms r ->
        (length r < length cs)%nat).
Proof.
  induction fuel as [|fuel (IHv & IHe & IHm)]; [by repeat split|].
  repeat split.
  - intros cs v rest. simpl.
    destruct (skip_ws cs) as [|c r] eqn:Hws; [done|].
    apply skip_ws_cons in Hws.
    destruct (Ascii.eqb c "n").
    { destruct (strip_prefix _ r) eqn:Hp; [|done].
      apply strip_prefix_length in Hp. intros [= _ <-]. lia. }
    destruct (Ascii.eqb c "t").
    { destruct (strip_prefix _ r) eqn:Hp; [|done].
      apply strip_prefix_length in Hp. intros [= _ <-]. lia. }
    destruct (Ascii.eqb c "f").
    { destruct (strip_prefix _ r) eqn:Hp; [|done].
      apply strip_prefix_length in Hp. intros [= _ <-]. lia. }
    destruct (Ascii.eqb c ch_quote).
    { destruct (scan_JSONString r) as [[s rest']|] eqn:Hs; [|done].
      apply scan_JSONString_length in Hs. intros [= _ <-]. lia. }
    destruct (Ascii.eqb c "[").
    { destruct (skip_ws r) as [|c' r'] eqn:Hws'; [done|].
      apply skip_ws_cons in Hws'.
      destruct (Ascii.eqb c' "]"); [intros [= _ <-]; lia|].
      destruct (parse_elements fuel r) as [vs rest'| |] eqn:He; try done.
      apply IHe in He. intros [= _ <-]. lia. }
    destruct (Ascii.eqb c "{").
    { destruct (skip_ws r) as [|c' r'] eqn:Hws'; [done|].
      apply skip_ws_cons in Hws'.
      destruct (Ascii.eqb c' "}"); [intros [= _ <-]; lia|].
      destruct (parse_members fuel r) as [ms rest'| |] eqn:Hm; try done.
      apply IHm in Hm. intros [= _ <-]. lia. }
    destruct (scan_JSONNumber (c :: r)) as [[x rest']|] eqn:Hx; [|done].
    apply scan_JSONNumber_length in Hx. intros [= _ <-]. simpl in Hx. lia.
  - intros cs vs rest. simpl.
    destruct (parse_value fuel cs) as [v r| |] eqn:Hv; try done.
    apply IHv in Hv.
    destruct (skip_ws r) as [|c r'] eqn:Hws; [done|]. apply skip_ws_cons in Hws.
    destruct (Ascii.eqb c ","); [|destruct (Ascii.eqb c "]"); [|done]].
    + destruct (parse_elements fuel r') as [vs' rest'| |] eqn:He; try done.
      apply IHe in He. intros [= _ <-]. lia.
    + intros [= _ <-]. lia.
  - intros cs ms rest. simpl.
    destruct (skip_ws cs) as [|q r0] eqn:Hws0; [done|]. apply skip_ws_cons in Hws0.
    destruct (Ascii.eqb q ch_quote); [|done].
    destruct (scan_JSONString r0) as [[k r1]|] eqn:Hk; [|done].
    apply scan_JSONString_length in Hk.
    destruct (skip_ws r1) as [|colon r2] eqn:Hws1; [done|].
    apply skip_ws_cons in Hws1.
    destruct (Ascii.eqb colon ":"); [|done].
    destruct (parse_value fuel r2) as [v r| |] eqn:Hv; try done.
    apply IHv in Hv.
    destruct (skip_ws r) as [|c r'] eqn:Hws; [done|]. apply skip_ws_cons in Hws.
    destruct (Ascii.eqb c ","); [|destruct (Ascii.eqb c "}"); [|done]].
    + destruct (parse_members fuel r') as [ms' rest'| |] eqn:Hm; try done.
      apply IHm in Hm. intros [= _ <-]. lia.
    + intros [= _ <-]. lia.
Qed.

Lemma parse_enough fuel :
  (forall cs, (2 * length cs + 1 <= fuel)%nat -> parse_value fuel cs <> Exhausted)
  /\ (forall cs, (2 * length cs + 2 <= fuel)%nat ->
        parse_elements fuel cs <> Exhausted)
  /\ (forall cs, (2 * length cs + 2 <= fuel)%nat ->
        parse_members fuel cs <> Exhausted).
Proof.
  induction fuel as [|fuel (IHv & IHe & IHm)]; [repeat split; intros; lia|].
  pose proof (parse_consumes fuel) as (Cv & Ce & Cm).
  repeat split.
  - intros cs Hfuel. simpl.
    destruct (skip_ws cs) as [|c r] eqn:Hws; [done|].
    apply skip_ws_cons in Hws.
    destruct (Ascii.eqb c "n"); [by destruct (strip_prefix _ r)|].
    destruct (Ascii.eqb c "t"); [by destruct (strip_prefix _ r)|].
    destruct (Ascii.eqb c "f"); [by destruct (strip_prefix _ r)|].
    destruct (Ascii.eqb c ch_quote);
      [by destruct (scan_JSONString r) as [[s rest']|]|].
    destruct (Ascii.eqb c "[").
    { destruct (skip_ws r) as [|c' r']; [done|].
      destruct (Ascii.eqb c' "]"); [done|].
      specialize (IHe r ltac:(lia)).
      by destruct (parse_elements fuel r). }
    destruct (Ascii.eqb c "{").
    { destruct (skip_ws r) as [|c' r']; [done|].
      destruct (Ascii.eqb c' "}"); [done|].
      specialize (IHm r ltac:(lia)).
      by destruct (parse_members fuel r). }
    by destruct (scan_JSONNumber (c :: r)) as [[x rest']|].
  - intros cs Hfuel. simpl.
    specialize (IHv cs ltac:(lia)).
    destruct (parse_value fuel cs) as [v r| |] eqn:Hv; try done.
    apply Cv in Hv.
    destruct (skip_ws r) as [|c r'] eqn:Hws; [done|]. apply skip_ws_cons in Hws.
    destruct (Ascii.eqb c ","); [|by destruct (Ascii.eqb c "]")].
    specialize (IHe r' ltac:(lia)). by destruct (parse_elements fuel r').
  - intros cs Hfuel. simpl.
    destruct (skip_ws cs) as [|q r0] eqn:Hws0; [done|]. apply skip_ws_cons in Hws0.
    destruct (Ascii.eqb q ch_quote); [|done].
    destruct (scan_JSONString r0) as [[k r1]|] eqn:Hk; [|done].
    apply scan_JSONString_length in Hk.
    destruct (skip_ws r1) as [|colon r2] eqn:Hws1; [done|].
    apply skip_ws_cons in Hws1.
    destruct (Ascii.eqb colon ":"); [|done].
    specialize (IHv r2 ltac:(lia)).
    destruct (parse_value fuel r2) as [v r| |] eqn:Hv; try done.
    apply Cv in Hv.
    destruct (skip_ws r) as [|c r'] eqn:Hws; [done|]. apply skip_ws_cons in Hws.
    destruct (Ascii.eqb c ","); [|by destruct (Ascii.eqb c "}")].
    specialize (IHm r' ltac:(lia)). by destruct (parse_members fuel r').
Qed.

(** The bound JSON.parse puts on nested calls is never reached: a
    SyntaxError always reports a malformed text. *)
Lemma JSON_parse_total text :
  parse_value (2 * length (unstr text) + 2) (unstr text) <> Exhausted.
Proof. apply (proj1 (parse_enough _)). lia. Qed.

(** * Further properties of the library *)

(** ** [State.set] and [State.get] *)

Lemma State_set_frame key value config w :
  let w' := snd (State_set key value config w) in
  _elements w' = _elements w /\ _config w' = _config w
  /\ listeners w' = listeners w /\ focus_listener w' = focus_listener w
  /\ symbols w' = symbols w /\ console w' = console w.
Proof.
  cbv zeta. rewrite State_set_unfold. cbv zeta.
  destruct (truthy _); [destruct (valueToString value)|]; simpl;
    rewrite ?announce_eq; done.
Qed.

Lemma State_set_localStorage key value config w :
  localStorage (snd (State_set key value config w)) =
  if truthy (StateElementConfig.useLocalStorage config) then
    match valueToString value with
    | Normal s => <[prefixKey (_config w) key := s]> (localStorage w)
    | Throw _ => localStorage w
    end
  else localStorage w.
Proof.
  rewrite State_set_unfold. cbv zeta.
  destruct (truthy _); [destruct (valueToString value)|]; simpl;
    rewrite ?announce_eq; done.
Qed.

(** X1.  [State.set] writes the in-memory map before anything else:
    after [set(key, value, config)], whether the call returns or throws
    in its persistence step, [get(key)] returns [value], [get] of every
    other key returns what it returned before, and [get] itself leaves
    the world as it is. *)
Theorem X1_set_then_get (w : World) (key : string) (value : JsValue)
    (config : StateElementConfig.t) (k : string) :
  let w' := snd (State_set key value config w) in
  State_get k w' =
  (if String.eqb k key then Normal value else fst (State_get k w), w').
Proof.
  cbv zeta. unfold State_get. rewrite State_set_storage. simpl.
  destruct (String.eqb_spec k key) as [->|Hne].
  - by rewrite lookup_insert_eq.
  - by rewrite lookup_insert_ne.
Qed.

(** X2.  [State.set] touches nothing but the slot it writes, the
    events it dispatches and at most one entry of local storage: the
    registered elements, the configuration, the listeners, the symbols
    and the console stay as they were; local storage is unchanged when
    [config.useLocalStorage] is off or the encoding of the value
    throws, and otherwise exactly its entry under [prefixKey(key)] is
    overwritten with the encoding. *)
Theorem X2_set_frame (w : World) (key : string) (value : JsValue)
    (config : StateElementConfig.t) :
  let w' := snd (State_set key value config w) in
  _elements w' = _elements w /\ _config w' = _config w
  /\ listeners w' = listeners w /\ focus_listener w' = focus_listener w
  /\ symbols w' = symbols w /\ console w' = console w
  /\ localStorage w' =
     (if truthy (StateElementConfig.useLocalStorage config) then
        match valueToString value with
        | Normal s => <[prefixKey (_config w) key := s]> (localStorage w)
        | Throw _ => localStorage w
        end
      else localStorage w).
Proof.
  cbv zeta.
  destruct (State_set_frame key value config w) as (He & Hc & Hl & Hf & Hs & Ho).
  repeat (split; [assumption|]). apply State_set_localStorage.
Qed.

(** ** Storage keys *)

Lemma prefixKey_inj cfg k1 k2 : prefixKey cfg k1 = prefixKey cfg k2 -> k1 = k2.
Proof.
  unfold prefixKey. destruct (StateConfig.prefix cfg) as [p|]; [|done].
  destruct (String.eqb p ""); [done|].
  intros H. by do 2 apply String.app_inj in H.
Qed.

(** X3.  Two slots of one State never share an entry of local
    storage: different keys have different prefixed keys, so a
    [State.set] on one key leaves the entry of every other key as it
    was. *)
Theorem X3_slots_do_not_share_storage (w : World) (k1 k2 : string)
    (value : JsValue) (config : StateElementConfig.t) :
  k1 <> k2 ->
  prefixKey (_config w) k1 <> prefixKey (_config w) k2
  /\ localStorage (snd (State_set k1 value config w)) !! prefixKey (_config w) k2
     = localStorage w !! prefixKey (_config w) k2.
Proof.
  intros Hne.
  assert (prefixKey (_config w) k1 <> prefixKey (_config w) k2) as Hkeys
    by (intros H; by apply prefixKey_inj in H).
  split; [done|]. rewrite State_set_localStorage.
  destruct (truthy _); [|done]. destruct (valueToString value); [|done].
  by rewrite lookup_insert_ne.
Qed.

Lemma X3_witness :
  prefixKey (_config (world_app ∅)) "a" <> prefixKey (_config (world_app ∅)) "b"
  /\ localStorage (snd (State_set "a" (VString "v") persistent (world_app ∅)))
       !! prefixKey (_config (world_app ∅)) "b"
     = localStorage (world_app ∅) !! prefixKey (_config (world_app ∅)) "b".
Proof.
  apply (X3_slots_do_not_share_storage (world_app ∅) "a" "b" (VString "v") persistent).
  discriminate.
Defined.

(** ** The codec: outcomes of [valueToString] and [valueFromString] *)





Lemma valueFromString_frame s type w :
  snd (valueFromString s type w)
  = if decide (type = TSymbol) then with_symbols (S (symbols w)) w else w.
Proof. by destruct type. Qed.

Lemma JSON_parse_error text e : JSON_parse text = Throw e -> e = SyntaxError.
Proof.
  unfold JSON_parse. destruct (parse_value _ _) as [v rest| |]; [|congruence..].
  destruct (skip_ws rest); congruence.
Qed.

(** X5.  [valueFromString] reads and writes nothing of the State: the
    only thing it changes is the host's stock of symbols, when it
    decodes under kind symbol.  Under the kinds boolean, number, string
    and symbol it always returns a value of that kind; under bigint it
    always returns a Number; under object it returns a JSON value or
    throws the SyntaxError of JSON.parse; under any other kind it
    throws the library's error, whose message names the kind of the
    string argument ("string"), not the kind asked for. *)
Theorem X5_valueFromString_outcome (s : string) (type : JsType) (w : World) :
  let result := valueFromString s type w in
  snd result
  = (if decide (type = TSymbol) then with_symbols (S (symbols w)) w else w)
  /\ match fst result with
     | Normal v =>
         match type with
         | TBigint => typeof v = TNumber
         | TObject => json_value v
         | TUndefined | TFunction => False
         | TBoolean | TNumber | TString | TSymbol => typeof v = type
         end
     | Throw e =>
         match type with
         | TObject => e = SyntaxError
         | TUndefined | TFunction => e = unsupported TString
         | TBigint | TBoolean | TNumber | TString | TSymbol => False
         end
     end.
Proof.
  cbv zeta. split; [apply valueFromString_frame|].
  destruct (valueFromString s type w) as [[v|e] w1] eqn:Hdecode; simpl.
  - pose proof (valueFromString_kind _ _ _ _ _ Hdecode) as Hkind.
    destruct type; try done.
  - destruct type; try done; simpl in Hdecode; unfold_monad;
      try (by injection Hdecode as <- <-).
    destruct (JSON_parse s) eqn:Hparse; [done|].
    injection Hdecode as <- <-. by eapply JSON_parse_error.
Qed.

(** ** [State.init]: what it checks, stores and leaves alone *)

Lemma State_init_returns key opts w e w' :
  State_init key opts w = (Normal e, w') ->
  Map_get key (_elements w) = None
  /\ StorageValueType (typeof (StateElementOptions.defaultValue opts)).
Proof.
  unfold State_init. unfold bind at 1. unfold get_elements at 1.
  destruct (Map_get key (_elements w)); [done|].
  destruct (decide _) as [H|H]; [done|]. intros _. split; [done|].
  split; intros ?; apply H; auto.
Qed.

Lemma State_init_rejects key opts w :
  (exists e, State_init key opts w = (Throw e, w))
  \/ (Map_get key (_elements w) = None
      /\ StorageValueType (typeof (StateElementOptions.defaultValue opts))).
Proof.
  unfold State_init. unfold bind at 1. unfold get_elements at 1.
  destruct (Map_get key (_elements w)); [left; by eexists|].
  destruct (decide _) as [H|H]; [left; by eexists|]. right. split; [done|].
  split; intros ?; apply H; auto.
Qed.

(** The [State.set] inside [State.init]: no event, whatever the config
    of the slot says. *)
Lemma State_set_init_config key value opts w :
  State_set key value (init_config opts) w =
  let w1 := with_storage (<[key := value]> (_storage w)) w in
  if requests_persistence opts then
    match valueToString value with
    | Normal s =>
        (Normal tt,
         with_localStorage (<[prefixKey (_config w) key := s]> (localStorage w)) w1)
    | Throw e => (Throw e, w1)
    end
  else (Normal tt, w1).
Proof.
  rewrite State_set_unfold. cbv zeta.
  rewrite init_config_useLocalStorage.
  destruct (requests_persistence opts); [|done].
  by destruct (valueToString value).
Qed.

Lemma initial_value_frame key opts w :
  snd (initial_value key opts w) = w
  \/ snd (initial_value key opts w) = with_symbols (S (symbols w)) w.
Proof.
  unfold initial_value. destruct (requests_persistence opts); [|by left].
  destruct (localStorage w !! _) as [s|]; [|by left].
  rewrite valueFromString_frame. destruct (decide _); auto.
Qed.

(** X6.  [State.init] rejects a default value of kind function or
    undefined before it reads local storage or stores anything: on a
    key that is not registered it throws the error that names the kind
    and leaves the whole world as it was. *)
Theorem X6_init_rejects_unsupported_default (w : World) (key : string)
    (opts : StateElementOptions.t) :
  let type := typeof (StateElementOptions.defaultValue opts) in
  Map_get key (_elements w) = None ->
  type = TFunction \/ type = TUndefined ->
  State_init key opts w = (Throw (unsupported type), w).
Proof.
  intros type Hnone Htype. unfold State_init.
  unfold bind at 1. unfold get_elements at 1. rewrite Hnone.
  fold type. by destruct (decide _).
Qed.

Lemma X6_witness :
  State_init "f" (element_options (VFunction 0) true true None)
    (new_world {[ "f" := "{oops" ]} 0)
  = (Throw (unsupported TFunction), new_world {[ "f" := "{oops" ]} 0).
Proof.
  apply (X6_init_rejects_unsupported_default (new_world {[ "f" := "{oops" ]} 0) "f"
           (element_options (VFunction 0) true true None)).
  - reflexivity.
  - left. reflexivity.
Defined.

Lemma State_init_elements key opts w e w' :
  State_init key opts w = (Normal e, w') ->
  e = StateElement_fields key opts
  /\ _elements w' = _elements w ++ [(key, e)]
  /\ _storage w' = <[key := default VUndefined
                              (match fst (initial_value key opts w) with
                               | Normal v => Some v
                               | Throw _ => None
                               end)]> (_storage w).
Proof.
  intros Hinit. destruct (State_init_returns _ _ _ _ _ Hinit) as [Hnone Hty].
  rewrite (State_init_unfold _ _ _ Hnone Hty) in Hinit.
  destruct (initial_value_frame key opts w) as [Hw1 | Hw1];
    destruct (initial_value key opts w) as [[value|err] w1]; simpl in Hw1;
    subst w1; try done;
    rewrite State_set_init_config in Hinit; cbv zeta in Hinit;
    (destruct (requests_persistence opts);
     [destruct (valueToString value); [|done]|]);
    injection Hinit as <- <-; unfold register, Map_set; simpl;
    rewrite Hnone; by destruct (truthy (StateConfig.useLogs (_config w))).
Qed.

(** X7.  When [State.init(key, opts)] returns, the element it returns
    is the one constructed from [(key, opts)]; it has been added at the
    end of [_elements], after the elements registered before, which are
    untouched; [attach(key)] returns that same element from then on;
    and [get()] on it returns the initial value: the decoded persisted
    string when persistence is requested and one exists, the default
    value otherwise. *)
Theorem X7_init_then_attach (w : World) (key : string)
    (opts : StateElementOptions.t) (e : StateElementData) (w' : World) :
  State_init key opts w = (Normal e, w') ->
  e = StateElement_fields key opts
  /\ _elements w' = _elements w ++ [(key, e)]
  /\ State_attach key w' = (Normal e, w')
  /\ fst (StateElement_get e w') = fst (initial_value key opts w).
Proof.
  intros Hinit.
  destruct (State_init_returns _ _ _ _ _ Hinit) as [Hnone Hty].
  destruct (State_init_elements _ _ _ _ _ Hinit) as (He & Hel & Hst).
  split; [done|]. split; [done|]. split.
  - unfold State_attach. unfold_monad. by rewrite Hel, Map_get_app, Hnone.
  - unfold StateElement_get, State_get. simpl. rewrite Hst, He. simpl.
    rewrite lookup_insert_eq. simpl.
    rewrite (State_init_unfold _ _ _ Hnone Hty) in Hinit.
    by destruct (initial_value key opts w) as [[value|err] w1].
Qed.

Lemma X7_witness :
  let e := StateElement_fields "other" (plain (num 1)) in
  let w' := snd (State_init "other" (plain (num 1)) world_test) in
  e = StateElement_fields "other" (plain (num 1))
  /\ _elements w' = _elements world_test ++ [("other"%string, e)]
  /\ State_attach "other" w' = (Normal e, w')
  /\ fst (StateElement_get e w')
     = fst (initial_value "other" (plain (num 1)) world_test).
Proof.
  cbv zeta.
  apply (X7_init_then_attach world_test "other" (plain (num 1))).
  vm_compute. reflexivity.
Defined.

(** X8.  [State.init] is silent: whatever the options say, also with
    [useEvents] enabled, and whether it returns or throws, it
    dispatches no event, calls no listener and registers none, and it
    leaves the configuration of the State as it was. *)
Theorem X8_init_is_silent (w : World) (key : string) (opts : StateElementOptions.t) :
  let w' := snd (State_init key opts w) in
  dispatched w' = dispatched w /\ calls w' = calls w
  /\ listeners w' = listeners w /\ _config w' = _config w.
Proof.
  cbv zeta. destruct (State_init_rejects key opts w) as [[e ->] | [Hnone Hty]];
    [done|].
  rewrite (State_init_unfold _ _ _ Hnone Hty).
  destruct (initial_value_frame key opts w) as [Hw1 | Hw1];
    destruct (initial_value key opts w) as [[value|err] w1]; simpl in Hw1;
    subst w1; try done;
    rewrite State_set_init_config; cbv zeta;
    (destruct (requests_persistence opts);
     [destruct (valueToString value); [|done]|]);
    unfold register; simpl;
    by destruct (truthy (StateConfig.useLogs (_config w))).
Qed.

(** X9.  When [State.init] returns for a slot that requests
    persistence, it has written the encoding of the initial value to
    local storage under the prefixed key, so that the default value of
    a slot that was never persisted is persisted by [init] itself;
    for a slot that does not request persistence, [init] leaves local
    storage as it was. *)
Theorem X9_init_writes_local_storage (w : World) (key : string)
    (opts : StateElementOptions.t) (e : StateElementData) (w' : World) :
  State_init key opts w = (Normal e, w') ->
  if requests_persistence opts then
    exists v s,
      _storage w' !! key = Some v
      /\ valueToString v = Normal s
      /\ localStorage w' = <[prefixKey (_config w) key := s]> (localStorage w)
  else localStorage w' = localStorage w.
Proof.
  intros Hinit. destruct (State_init_returns _ _ _ _ _ Hinit) as [Hnone Hty].
  rewrite (State_init_unfold _ _ _ Hnone Hty) in Hinit.
  destruct (initial_value_frame key opts w) as [Hw1 | Hw1];
    destruct (initial_value key opts w) as [[value|err] w1] eqn:Hvalue;
    simpl in Hw1; subst w1; try done;
    rewrite State_set_init_config in Hinit; cbv zeta in Hinit;
    unfold initial_value in Hvalue;
    (destruct (requests_persistence opts);
     [destruct (valueToString value) as [s|] eqn:Hs; [|done]|]);
    injection Hinit as <- <-; unfold register; simpl;
    try (exists value, s);
    destruct (truthy (StateConfig.useLogs (_config w))); simpl;
    rewrite ?lookup_insert_eq; done.
Qed.

Lemma X9_witness :
  exists v s,
    _storage (snd (State_init "k" (element_options (num 5) true false None)
                     (world_app ∅))) !! "k" = Some v
    /\ valueToString v = Normal s
    /\ localStorage (snd (State_init "k" (element_options (num 5) true false None)
                            (world_app ∅)))
       = <[prefixKey (_config (world_app ∅)) "k" := s]> (localStorage (world_app ∅)).
Proof.
  apply (X9_init_writes_local_storage (world_app ∅) "k"
           (element_options (num 5) true false None)
           (StateElement_fields "k" (element_options (num 5) true false None))
           (snd (State_init "k" (element_options (num 5) true false None)
                   (world_app ∅)))).
  vm_compute. reflexivity.
Defined.

(** ** Relations kept by every method *)

(** A reflexive and transitive relation that the six writes of the
    library keep (an entry of the in-memory map, an entry of local
    storage, an event, a console entry, a listener, a symbol) and that
    [State.init] keeps is kept by every method and by every program. *)
Section Programs.
Variable R : World -> World -> Prop.
Hypothesis R_refl : forall w, R w w.
Hypothesis R_trans : forall w1 w2 w3, R w1 w2 -> R w2 w3 -> R w1 w3.
Hypothesis R_storage :
  forall k v w, R w (with_storage (<[k := v]> (_storage w)) w).
Hypothesis R_localStorage :
  forall k s w, R w (with_localStorage (<[k := s]> (localStorage w)) w).
Hypothesis R_dispatch : forall type detail w, R w (dispatch type detail w).
Hypothesis R_console : forall entry w, R w (with_console (console w ++ [entry]) w).
Hypothesis R_listener :
  forall type l w, R w (with_listeners (listeners w ++ [(type, l)]) w).
Hypothesis R_symbol : forall w, R w (with_symbols (S (symbols w)) w).
Hypothesis R_init : forall key opts, preserves R (State_init key opts).

Lemma kept_write (f : World -> World) :
  (forall w, R w (f w)) -> preserves R (modify f).
Proof. intros Hf w. apply Hf. Qed.

Ltac kept_step :=
  first
    [ preserves_step R_refl R_trans
    | apply kept_write; intros ?;
      first [ apply R_storage | apply R_localStorage | apply R_dispatch
            | apply R_console | apply R_listener ] ].

Lemma kept_State_set key value config : preserves R (State_set key value config).
Proof.
  unfold State_set, localStorage_setItem, dispatchEvent. repeat kept_step.
Qed.

Lemma kept_valueFromString s type : preserves R (valueFromString s type).
Proof.
  intros w. rewrite valueFromString_frame. destruct (decide _); auto.
Qed.

Lemma kept_StateElement_set this value : preserves R (StateElement_set this value).
Proof. unfold StateElement_set. repeat kept_step. apply kept_State_set. Qed.

Lemma kept_refetch entry : preserves R (refetch entry).
Proof.
  destruct entry as [key element]. unfold refetch, console_error, console_log.
  repeat first
    [ apply kept_valueFromString | apply kept_StateElement_set | kept_step ].
Qed.

Lemma kept_onFocus : preserves R onFocus.
Proof.
  unfold onFocus, refetch, console_error, console_log.
  repeat first
    [ apply kept_valueFromString | apply kept_StateElement_set | kept_step ].
Qed.

Lemma kept_bind_all this overrides elements states events :
  preserves R (bind_all this overrides elements states events).
Proof.
  revert states events.
  induction elements as [|element rest IH]; intros states events; simpl.
  - kept_step.
  - unfold StateElement_addListener, addEventListener.
    repeat kept_step; apply IH.
Qed.

Lemma kept_bind_keys this overrides keys states :
  preserves R (bind_keys this overrides keys states).
Proof.
  revert states. induction keys as [|k rest IH]; intros states; simpl.
  - kept_step.
  - unfold State_attach, StateElement_addListener, addEventListener.
    repeat kept_step; apply IH.
Qed.

Lemma kept_StateComponent_new this overrides elements :
  preserves R (StateComponent_new this overrides elements).
Proof.
  unfold StateComponent_new, console_log, addEventListener.
  repeat first [ apply kept_bind_all | apply kept_bind_keys | kept_step ].
Qed.

Lemma kept_op op : preserves R (op_method op).
Proof.
  destruct op; simpl;
    unfold StateElement_get, StateElement_reset, StateElement_addListener,
      State_attach, StateComponent_resetAll, addEventListener;
    repeat first
      [ apply R_init | apply kept_State_set | apply kept_StateElement_set
      | apply kept_StateComponent_new | kept_step ].
  intros w. unfold window_focus. destruct (focus_listener w).
  - apply kept_onFocus.
  - apply R_refl.
Qed.

Lemma kept_run ops w : R w (run ops w).
Proof.
  revert w. induction ops as [|op ops IH]; intros w; simpl; [apply R_refl|].
  eapply R_trans; [apply (kept_op op w) | apply IH].
Qed.

End Programs.

(** ** Nothing is taken back *)

Lemma extends_refl w : extends w w.
Proof. unfold extends. repeat split; done. Qed.

Lemma extends_trans w1 w2 w3 : extends w1 w2 -> extends w2 w3 -> extends w1 w3.
Proof.
  intros (Hc1 & Hf1 & He1 & Hl1 & Hs1 & Hp1 & Hy1 & Ho1 & Hd1 & Ha1)
         (Hc2 & Hf2 & He2 & Hl2 & Hs2 & Hp2 & Hy2 & Ho2 & Hd2 & Ha2).
  unfold extends. repeat split; try congruence; try (by etrans); lia.
Qed.

Lemma extends_init key opts : preserves extends (State_init key opts).
Proof.
  intros w. destruct (State_init_rejects key opts w) as [[e ->] | [Hnone Hty]];
    [apply extends_refl|].
  rewrite (State_init_unfold _ _ _ Hnone Hty).
  assert (forall value w1,
    (w1 = w \/ w1 = with_symbols (S (symbols w)) w) ->
    extends w (snd (match State_set key value (init_config opts) w1 with
                    | (Normal _, w2) =>
                        (Normal (StateElement_fields key opts), register key opts w2)
                    | (Throw e, w2) => (Throw e, w2)
                    end))) as Hrest.
  { intros value w1 Hw1. rewrite State_set_init_config. cbv zeta.
    assert (forall w2, extends w w2 ->
              _elements w2 = _elements w -> extends w (register key opts w2)) as Hreg.
    { intros w2 (Hc & Hf & He & Hl & Hs & Hp & Hy & Ho & Hd & Ha) Hsame.
      unfold register, Map_set. rewrite Hsame, Hnone. unfold extends.
      destruct (truthy (StateConfig.useLogs (_config w2))); simpl;
        repeat split; try done; try (by eexists); by apply prefix_app_r. }
    assert (extends w (with_storage (<[key:=value]> (_storage w1)) w1)) as Hstored.
    { destruct Hw1 as [-> | ->]; unfold extends; simpl; repeat split;
        try done; try lia; rewrite dom_insert_L; set_solver. }
    assert (forall s, extends w
              (with_localStorage (<[prefixKey (_config w1) key:=s]> (localStorage w1))
                 (with_storage (<[key:=value]> (_storage w1)) w1))) as Hpersisted.
    { intros s. destruct Hw1 as [-> | ->]; unfold extends; simpl; repeat split;
        try done; try lia; rewrite dom_insert_L; set_solver. }
    destruct (requests_persistence opts).
    - destruct (valueToString value); simpl; [|done].
      apply Hreg; [done|]. by destruct Hw1 as [-> | ->].
    - simpl. apply Hreg; [done|]. by destruct Hw1 as [-> | ->]. }
  pose proof (initial_value_frame key opts w) as Hw1.
  destruct (initial_value key opts w) as [[value|err] w1]; simpl in Hw1.
  - by apply Hrest.
  - simpl. destruct Hw1 as [-> | ->]; [apply extends_refl|].
    unfold extends. simpl. repeat split; try done. lia.
Qed.

Lemma extends_run ops w : extends w (run ops w).
Proof.
  apply kept_run.
  - apply extends_refl.
  - apply extends_trans.
  - intros k v w0. unfold extends. simpl. repeat split; try done.
    rewrite dom_insert_L. set_solver.
  - intros k s w0. unfold extends. simpl. repeat split; try done.
    rewrite dom_insert_L. set_solver.
  - intros type detail w0. rewrite dispatch_eq. unfold extends. simpl.
    repeat split; try done; by eexists.
  - intros entry w0. unfold extends. simpl. repeat split; try done. by eexists.
  - intros type l w0. unfold extends. simpl. repeat split; try done. by eexists.
  - intros w0. unfold extends. simpl. repeat split; try done. lia.
  - apply extends_init.
Qed.

Lemma Map_get_prefix {A} k (l r : list (string * A)) x :
  Map_get k l = Some x -> Map_get k (l ++ r) = Some x.
Proof.
  unfold Map_get. induction l as [|[k' y] l IH]; simpl; [done|].
  destruct (String.eqb k' k); [done | apply IH].
Qed.

(** X10.  The registry is append-only: once [attach(key)] returns an
    element, it returns that same element after any further calls on
    the State, its elements and its components; no method removes or
    replaces a registered element. *)
Theorem X10_attach_is_stable (w : World) (key : string) (e : StateElementData)
    (ops : list Op) :
  State_attach key w = (Normal e, w) ->
  State_attach key (run ops w) = (Normal e, run ops w).
Proof.
  unfold State_attach. unfold_monad.
  destruct (Map_get key (_elements w)) as [e0|] eqn:Hget; [|done].
  intros [= ->].
  destruct (extends_run ops w) as (_ & _ & [added ->] & _).
  by rewrite (Map_get_prefix _ _ _ _ Hget).
Qed.

Lemma X10_witness :
  let ops := [OpInit "test" (plain (VString "again")); OpInit "other" (plain VNull);
              OpSet test_element (num 1); OpFocus] in
  State_attach "test" (run ops world_test)
  = (Normal (StateElement_fields "test" (plain (num 123))), run ops world_test).
Proof.
  cbv zeta.
  apply (X10_attach_is_stable world_test "test"
           (StateElement_fields "test" (plain (num 123)))).
  vm_compute. reflexivity.
Defined.

(** X11.  No method of the library takes anything back.  Along any
    program of calls on a State, its elements and its components, and
    of focus events: the configuration of the State and the
    registration of its focus listener never change; registered
    elements, listeners, console entries, dispatched events and
    listener calls are only ever added, after those that were there;
    no key disappears from the in-memory map or from local storage. *)
Theorem X11_nothing_is_taken_back (ops : list Op) (w : World) :
  extends w (run ops w).
Proof. apply extends_run. Qed.

(** ** Registered slots have a value *)

Lemma stays_stored_refl w : stays_stored w w.
Proof. by intros ?. Qed.

Lemma stays_stored_trans w1 w2 w3 :
  stays_stored w1 w2 -> stays_stored w2 w3 -> stays_stored w1 w3.
Proof. unfold stays_stored. auto. Qed.

Lemma stays_stored_same w w' :
  _elements w' = _elements w -> _storage w' = _storage w -> stays_stored w w'.
Proof. intros He Hs. unfold stays_stored, registered_stored. by rewrite He, Hs. Qed.

Lemma stays_stored_set k v w : stays_stored w (with_storage (<[k := v]> (_storage w)) w).
Proof.
  intros Hw k' Hk'. simpl in *. apply lookup_insert_is_Some.
  destruct (decide (k = k')); [by left | right; split; [done | by apply Hw]].
Qed.

Lemma register_fields key opts w :
  _storage (register key opts w) = _storage w
  /\ _elements (register key opts w)
     = Map_set key (StateElement_fields key opts) (_elements w).
Proof. unfold register. by destruct (truthy _). Qed.

Lemma stays_stored_init key opts : preserves stays_stored (State_init key opts).
Proof.
  intros w. destruct (State_init_rejects key opts w) as [[e ->] | [Hnone Hty]];
    [apply stays_stored_refl|].
  rewrite (State_init_unfold _ _ _ Hnone Hty).
  pose proof (initial_value_frame key opts w) as Hw1.
  destruct (initial_value key opts w) as [[value|err] w1]; simpl in Hw1.
  - rewrite State_set_init_config. cbv zeta.
    assert (stays_stored w (with_storage (<[key:=value]> (_storage w1)) w1)) as Hset.
    { destruct Hw1 as [-> | ->]; [apply stays_stored_set|].
      intros Hw k' Hk'. simpl in *. apply lookup_insert_is_Some.
      destruct (decide (key = k')); [by left | right; split; [done | by apply Hw]]. }
    assert (forall w2,
      _elements w2 = _elements w -> _storage w2 = <[key:=value]> (_storage w1) ->
      _storage w1 = _storage w ->
      stays_stored w (register key opts w2)) as Hreg.
    { intros w2 He Hs Hs1 Hw k' Hk'.
      destruct (register_fields key opts w2) as [Hsame Hsame'].
      rewrite Hsame, Hs. rewrite Hsame' in Hk'. unfold Map_set in Hk'.
      rewrite He, Hnone in Hk'.
      apply lookup_insert_is_Some.
      destruct (decide (key = k')); [by left | right; split; [done|]].
      rewrite Hs1. apply Hw. apply Map_get_is_Some in Hk'.
      rewrite map_app in Hk'. simpl in Hk'. apply elem_of_app in Hk' as [Hk' | Hk'].
      - by apply Map_get_is_Some.
      - apply list_elem_of_singleton in Hk'. congruence. }
    assert (_elements w1 = _elements w /\ _storage w1 = _storage w) as [He1 Hs1]
      by (by destruct Hw1 as [-> | ->]).
    destruct (requests_persistence opts).
    + destruct (valueToString value); simpl; [|done]. by apply Hreg.
    + simpl. by apply Hreg.
  - simpl. apply stays_stored_same; by destruct Hw1 as [-> | ->].
Qed.

Lemma stays_stored_op op : preserves stays_stored (op_method op).
Proof.
  apply kept_op.
  - apply stays_stored_refl.
  - apply stays_stored_trans.
  - apply stays_stored_set.
  - intros. by apply stays_stored_same.
  - intros type detail w. rewrite dispatch_eq. by apply stays_stored_same.
  - intros. by apply stays_stored_same.
  - intros. by apply stays_stored_same.
  - intros. by apply stays_stored_same.
  - apply stays_stored_init.
Qed.

(** X12.  In every world a program reaches from [new State(config,
    initElements)], every registered key has an entry in the in-memory
    map: [init] stores the initial value before it registers the
    element, and nothing ever deletes an entry. *)
Theorem X12_registered_slots_have_values (stored : gmap string string)
    (symbols : nat) (config : option StateConfig.t)
    (initElements : option (list (string * StateElementOptions.t)))
    (ops : list Op) :
  registered_stored
    (run ops (snd (State_new config initElements (new_world stored symbols)))).
Proof.
  assert (registered_stored (new_world stored symbols)) as Hnew.
  { intros k [x Hx]. done. }
  assert (preserves stays_stored (State_new config initElements)) as Hstate.
  { unfold State_new, console_log.
    repeat first
      [ apply stays_stored_init
      | preserves_step stays_stored_refl stays_stored_trans
      | (intros ?; by apply stays_stored_same) ]. }
  apply Hstate in Hnew. revert Hnew.
  generalize (snd (State_new config initElements (new_world stored symbols))).
  induction ops as [|op ops IH]; intros w Hw; simpl; [done|].
  apply IH. by apply (stays_stored_op op w).
Qed.

(** ** The constructor of State *)

Lemma State_new_unfold config initElements w :
  State_new config initElements w =
  let w1 := match config with
            | Some c => with_config (StateConfig.merge (_config w) c) w
            | None => w
            end in
  let w2 := if truthy (StateConfig.useLogs (_config w1))
            then with_console (console w1 ++ [LogState (_config w1)]) w1
            else w1 in
  match for_each (default [] initElements)
          (fun e => State_init (fst e) (snd e) ;; ret tt) w2 with
  | (Normal _, w3) =>
      (Normal tt,
       if truthy (StateConfig.useRefetchOnFocus (_config w3))
       then with_focus_listener true w3 else w3)
  | (Throw e, w3) => (Throw e, w3)
  end.
Proof.
  unfold State_new. cbv zeta. unfold console_log, get_config, modify, when.
  destruct config as [c|], initElements as [l|]; unfold bind, ret; simpl;
    repeat match goal with
           | |- context [truthy ?x] => destruct (truthy x) eqn:?; simpl
           | |- context [for_each ?l ?f ?w] =>
               destruct (for_each l f w) as [[[]|?] ?] eqn:?; simpl
           end; try done; try congruence.
Qed.

Lemma constructor_start config w :
  let w1 := match config with
            | Some c => with_config (StateConfig.merge (_config w) c) w
            | None => w
            end in
  let w2 := if truthy (StateConfig.useLogs (_config w1))
            then with_console (console w1 ++ [LogState (_config w1)]) w1
            else w1 in
  _config w2 = _config w1 /\ focus_listener w2 = focus_listener w
  /\ _elements w2 = _elements w.
Proof. cbv zeta. destruct config; by destruct (truthy _). Qed.

Lemma extends_inits (l : list (string * StateElementOptions.t)) :
  preserves extends (for_each l (fun e => State_init (fst e) (snd e) ;; ret tt)).
Proof.
  repeat first [ apply extends_init | preserves_step extends_refl extends_trans ].
Qed.

(** X13.  The constructor of State merges the given configuration over
    the defaults: every option that is given wins, and an option that
    is left out has its default: no aggregate events, no logs, an empty
    prefix, focus resynchronization on.  This is the configuration of
    the State from then on, also when the constructor throws in one of
    the [init] calls for [initElements]. *)
Theorem X13_constructor_config (stored : gmap string string) (symbols : nat)
    (config : option StateConfig.t)
    (initElements : option (list (string * StateElementOptions.t)))
    (ops : list Op) :
  let given := default StateConfig.empty config in
  let w := run ops (snd (State_new config initElements (new_world stored symbols))) in
  StateConfig.useChangeEvent (_config w)
    = Some (default false (StateConfig.useChangeEvent given))
  /\ StateConfig.useLogs (_config w)
     = Some (default false (StateConfig.useLogs given))
  /\ StateConfig.prefix (_config w)
     = Some (default ""%string (StateConfig.prefix given))
  /\ StateConfig.useRefetchOnFocus (_config w)
     = Some (default true (StateConfig.useRefetchOnFocus given)).
Proof.
  cbv zeta.
  destruct (extends_run ops
    (snd (State_new config initElements (new_world stored symbols)))) as [-> _].
  assert (_config (snd (State_new config initElements (new_world stored symbols)))
          = match config with
            | Some c => StateConfig.merge StateConfig.defaults c
            | None => StateConfig.defaults
            end) as ->.
  { rewrite State_new_unfold. cbv zeta.
    match goal with
    | |- context [for_each ?l ?f ?w] =>
        destruct (extends_inits l w) as [Hc _];
        destruct (for_each l f w) as [[[]|e] w3]
    end; simpl in Hc;
      [destruct (truthy (StateConfig.useRefetchOnFocus (_config w3)))|];
      simpl; rewrite Hc;
      destruct config; simpl; by destruct (truthy _). }
  destruct config as [[a b c d]|]; simpl; [|done]. by destruct a, b, c, d.
Qed.

Lemma for_each_cons_returns {A} (x : A) (r : list A) (body : A -> M unit) w w' :
  for_each (x :: r) body w = (Normal tt, w') ->
  exists w1, body x w = (Normal tt, w1) /\ for_each r body w1 = (Normal tt, w').
Proof.
  simpl. unfold bind. destruct (body x w) as [[[]|e] w1]; [|done]. eauto.
Qed.

Lemma discard_init_returns key opts w w1 :
  (State_init key opts ;; ret tt) w = (Normal tt, w1) ->
  State_init key opts w = (Normal (StateElement_fields key opts), w1).
Proof.
  unfold bind, ret. destruct (State_init key opts w) as [[e|err] w2] eqn:Hinit;
    [|done].
  intros [= <-]. by destruct (State_init_elements _ _ _ _ _ Hinit) as [-> _].
Qed.

Lemma initial_value_default key opts w :
  requests_persistence opts = false ->
  initial_value key opts w = (Normal (StateElementOptions.defaultValue opts), w).
Proof. unfold initial_value. by intros ->. Qed.

(** The [init] calls of the constructor, when all of them return. *)
Lemma inits_return (l : list (string * StateElementOptions.t)) w w' :
  for_each l (fun e => State_init (fst e) (snd e) ;; ret tt) w = (Normal tt, w') ->
  _elements w'
  = _elements w ++ map (fun e => (fst e, StateElement_fields (fst e) (snd e))) l
  /\ (forall k, is_Some (Map_get k (_elements w)) -> _storage w' !! k = _storage w !! k)
  /\ Forall (fun e => requests_persistence (snd e) = false ->
                      _storage w' !! fst e
                      = Some (StateElementOptions.defaultValue (snd e))) l.
Proof.
  revert w. induction l as [|[key opts] r IH]; intros w Hrun.
  - injection Hrun as <-. by rewrite app_nil_r.
  - apply for_each_cons_returns in Hrun as (w1 & Hinit & Hrest).
    apply discard_init_returns in Hinit. simpl in Hinit.
    destruct (State_init_returns _ _ _ _ _ Hinit) as [Hnone _].
    destruct (State_init_elements _ _ _ _ _ Hinit) as (_ & Hel & Hst).
    destruct (IH _ Hrest) as (Hel' & Hkeep & Hvalues).
    assert (is_Some (Map_get key (_elements w1))) as Hreg.
    { rewrite Hel, Map_get_app, Hnone. eauto. }
    split; [|split].
    + rewrite Hel', Hel, <- app_assoc. done.
    + intros k Hk. rewrite Hkeep.
      * rewrite Hst. apply lookup_insert_ne. intros <-.
        rewrite Hnone in Hk. by destruct Hk.
      * destruct Hk as [x Hx]. rewrite Hel. erewrite Map_get_prefix; eauto.
    + constructor; [|done]. simpl. intros Hplain.
      rewrite Hkeep by done. rewrite Hst, lookup_insert_eq.
      by rewrite initial_value_default.
Qed.

(** The [init] calls of the constructor return when the keys are new
    and distinct, the defaults are of a supported kind and no slot
    requests persistence. *)
Lemma inits_total (l : list (string * StateElementOptions.t)) w :
  NoDup (map fst l) ->
  Forall (fun e => Map_get (fst e) (_elements w) = None
                   /\ StorageValueType (typeof (StateElementOptions.defaultValue (snd e)))
                   /\ requests_persistence (snd e) = false) l ->
  fst (for_each l (fun e => State_init (fst e) (snd e) ;; ret tt) w) = Normal tt.
Proof.
  revert w. induction l as [|[key opts] r IH]; intros w Hnodup Hall; [done|].
  change (map fst ((key, opts) :: r)) with (key :: map fst r) in Hnodup.
  apply NoDup_cons in Hnodup as [Hfresh Hnodup].
  apply Forall_cons in Hall as [(Hnone & Hty & Hplain) Hall].
  cbn [fst snd] in Hnone, Hty, Hplain. cbn [for_each fst snd].
  unfold bind at 1. unfold bind at 1.
  rewrite (State_init_unfold _ _ _ Hnone Hty).
  rewrite initial_value_default by done.
  rewrite State_set_init_config, Hplain. cbv zeta. unfold ret at 1.
  apply IH; [done|].
  apply Forall_forall. intros [k o] Hin.
  rewrite Forall_forall in Hall. destruct (Hall _ Hin) as (Hk & Hty' & Hp').
  split; [|done]. cbn [fst snd] in *.
  destruct (register_fields key opts
              (with_storage (<[key:=StateElementOptions.defaultValue opts]> (_storage w)) w))
    as [_ ->].
  unfold Map_set. simpl. rewrite Hnone.
  destruct (Map_get k (_elements w ++ [(key, StateElement_fields key opts)]))
    as [x|] eqn:Hget; [|done].
  assert (k ∈ map fst (_elements w ++ [(key, StateElement_fields key opts)])) as Hmem
    by (apply Map_get_is_Some; eauto).
  rewrite map_app in Hmem. apply elem_of_app in Hmem as [Hmem | Hmem].
  - apply Map_get_is_Some in Hmem as [? ?]. congruence.
  - apply list_elem_of_singleton in Hmem. simpl in Hmem. subst k.
    destruct Hfresh. apply list_elem_of_fmap. by exists (key, o).
Qed.

(** X14.  [new State(config, initElements)] registers the listed slots
    in the order of the list.  Whenever the constructor returns, the
    registered elements are exactly those constructed from the entries,
    in that order, and every slot that does not request persistence
    holds its default value.  The constructor does return when the
    keys are distinct, the defaults are of a supported kind and no
    slot requests persistence. *)
Theorem X14_constructor_registers_in_order (stored : gmap string string)
    (symbols : nat) (config : option StateConfig.t)
    (l : list (string * StateElementOptions.t)) :
  let result := State_new config (Some l) (new_world stored symbols) in
  (fst result = Normal tt ->
     _elements (snd result)
     = map (fun e => (fst e, StateElement_fields (fst e) (snd e))) l
     /\ Forall (fun e => requests_persistence (snd e) = false ->
                         fst (State_get (fst e) (snd result))
                         = Normal (StateElementOptions.defaultValue (snd e))) l)
  /\ (NoDup (map fst l) ->
      Forall (fun e =>
                StorageValueType (typeof (StateElementOptions.defaultValue (snd e)))
                /\ requests_persistence (snd e) = false) l ->
      fst result = Normal tt).
Proof.
  cbv zeta. rewrite State_new_unfold. cbv zeta. simpl (default [] (Some l)).
  match goal with
  | |- context [for_each l ?f ?w] => set (body := f); set (w2 := w)
  end.
  assert (_elements w2 = []) as Hempty.
  { subst w2. destruct config; simpl; [by destruct (truthy _) | done]. }
  split.
  - destruct (for_each l body w2) as [[[]|e] w3] eqn:Hrun; [|done]. intros _.
    destruct (inits_return _ _ _ Hrun) as (Hel & _ & Hvalues).
    rewrite Hempty in Hel. simpl in Hel.
    split.
    + by destruct (truthy (StateConfig.useRefetchOnFocus (_config w3))).
    + eapply Forall_impl; [exact Hvalues|]. intros [k o] Hk Hplain.
      unfold State_get. simpl in *.
      destruct (truthy (StateConfig.useRefetchOnFocus (_config w3))); simpl;
        by rewrite Hk.
  - intros Hnodup Hall.
    assert (fst (for_each l body w2) = Normal tt) as Hrun.
    { apply inits_total; [done|]. eapply Forall_impl; [exact Hall|].
      intros [k o] [Hty Hplain]. by rewrite Hempty. }
    by destruct (for_each l body w2) as [[[]|e] w3].
Qed.

Lemma X14_witness :
  let l := [("b"%string, plain (VString "x")); ("a"%string, plain (num 1))] in
  let result := State_new (Some StateConfig.empty) (Some l) (new_world ∅ 0) in
  fst result = Normal tt
  /\ _elements (snd result)
     = map (fun e => (fst e, StateElement_fields (fst e) (snd e))) l
  /\ Forall (fun e => requests_persistence (snd e) = false ->
                      fst (State_get (fst e) (snd result))
                      = Normal (StateElementOptions.defaultValue (snd e))) l.
Proof.
  cbv zeta.
  destruct (X14_constructor_registers_in_order ∅ 0 (Some StateConfig.empty)
              [("b"%string, plain (VString "x")); ("a"%string, plain (num 1))])
    as [Hregistered Hreturns].
  assert (fst (State_new (Some StateConfig.empty)
                 (Some [("b"%string, plain (VString "x")); ("a"%string, plain (num 1))])
                 (new_world ∅ 0)) = Normal tt) as Hok.
  { apply Hreturns.
    - compute_done.
    - repeat constructor; discriminate. }
  split; [exact Hok|]. exact (Hregistered Hok).
Defined.

(** ** The focus listener *)

(** X15.  The constructor registers the focus listener as its last
    step, and only then: the State resynchronizes on window focus
    exactly when the constructor returned and [useRefetchOnFocus] was
    not switched off in the configuration.  Since nothing registers or
    removes the listener later, this holds after any further program:
    the focus event runs the resynchronization pass when the listener
    was registered, and does nothing at all otherwise. *)
Theorem X15_focus_listener_registration (stored : gmap string string)
    (symbols : nat) (config : option StateConfig.t)
    (initElements : option (list (string * StateElementOptions.t)))
    (ops : list Op) :
  let result := State_new config initElements (new_world stored symbols) in
  let listening :=
    match fst result with
    | Normal _ =>
        default true (StateConfig.useRefetchOnFocus (default StateConfig.empty config))
    | Throw _ => false
    end in
  let w := run ops (snd result) in
  window_focus w = if listening then onFocus w else (Normal tt, w).
Proof.
  cbv zeta. unfold window_focus.
  destruct (extends_run ops
    (snd (State_new config initElements (new_world stored symbols))))
    as (_ & -> & _).
  rewrite State_new_unfold.
  destruct (constructor_start config (new_world stored symbols)) as (Hc0 & Hf0 & _).
  cbv zeta in *.
  match goal with
  | |- context [for_each ?l ?f ?w] =>
      destruct (extends_inits l w) as (Hc & Hf & _);
      rewrite Hc0 in Hc; rewrite Hf0 in Hf;
      destruct (for_each l f w) as [[[]|e] w3]
  end; cbn [fst snd] in *; simpl in Hf.
  - assert (truthy (StateConfig.useRefetchOnFocus (_config w3))
            = default true (StateConfig.useRefetchOnFocus
                              (default StateConfig.empty config))) as <-.
    { rewrite Hc. destruct config as [[a b c d]|]; simpl; [by destruct d | done]. }
    destruct (truthy (StateConfig.useRefetchOnFocus (_config w3))); [done|].
    by rewrite Hf.
  - by rewrite Hf.
Qed.

(** ** The focus pass, slot by slot *)

Lemma slot_untouched_refl k w : slot_untouched k w w.
Proof. by repeat split. Qed.

Lemma slot_untouched_trans k w1 w2 w3 :
  slot_untouched k w1 w2 -> slot_untouched k w2 w3 -> slot_untouched k w1 w3.
Proof.
  intros (Hs1 & Hl1 & Hc1) (Hs2 & Hl2 & Hc2). rewrite Hc1 in Hl2.
  repeat split; congruence.
Qed.

Lemma slot_untouched_same k w w' :
  _storage w' = _storage w -> localStorage w' = localStorage w ->
  _config w' = _config w -> slot_untouched k w w'.
Proof. intros Hs Hl Hc. unfold slot_untouched. by rewrite Hs, Hl, Hc. Qed.

Lemma State_set_other key value config w k :
  key <> k -> slot_untouched k w (snd (State_set key value config w)).
Proof.
  intros Hne. destruct (State_set_frame key value config w) as (_ & Hc & _).
  split; [|split; [|done]].
  - rewrite State_set_storage. by apply lookup_insert_ne.
  - rewrite State_set_localStorage. destruct (truthy _); [|done].
    destruct (valueToString value); [|done].
    apply lookup_insert_ne. intros H. by apply prefixKey_inj in H.
Qed.

Lemma StateElement_set_other element value w k :
  key element <> k -> slot_untouched k w (snd (StateElement_set element value w)).
Proof.
  intros Hne. rewrite StateElement_set_unfold.
  destruct (decide _); [apply slot_untouched_refl|].
  destruct (StateElementConfig.onBeforeSet _) as [h|].
  - destruct (h value); [by apply State_set_other | apply slot_untouched_refl].
  - by apply State_set_other.
Qed.

Lemma valueFromString_untouched s type w k :
  slot_untouched k w (snd (valueFromString s type w)).
Proof.
  rewrite valueFromString_frame. destruct (decide _); by apply slot_untouched_same.
Qed.

Lemma refetch_other k' element w k :
  key element <> k -> slot_untouched k w (snd (refetch (k', element) w)).
Proof.
  intros Hne. rewrite refetch_unfold.
  destruct (refetches element); [|apply slot_untouched_refl].
  destruct (localStorage w !! _) as [s|]; [|apply slot_untouched_refl].
  unfold apply_persisted, bind.
  pose proof (valueFromString_untouched s (_type element) w k) as Hdecode.
  destruct (valueFromString s (_type element) w) as [[value|err] w1];
    simpl in Hdecode.
  - pose proof (StateElement_set_other element value w1 k Hne) as Hset.
    destruct (StateElement_set element value w1) as [[[]|err] w2]; simpl in *.
    + by eapply slot_untouched_trans.
    + eapply slot_untouched_trans; [exact Hdecode|].
      eapply slot_untouched_trans; [exact Hset|]. by apply slot_untouched_same.
  - simpl. eapply slot_untouched_trans; [exact Hdecode|].
    by apply slot_untouched_same.
Qed.

Lemma refetches_other (l : list (string * StateElementData)) w k :
  Forall (fun entry => key (snd entry) = fst entry) l ->
  k ∉ map fst l ->
  slot_untouched k w (fold_left (fun w' entry => snd (refetch entry w')) l w).
Proof.
  revert w. induction l as [|[k' e] l IH]; intros w Hkeys Hk;
    [apply slot_untouched_refl|].
  apply Forall_cons in Hkeys as [He Hkeys]. simpl in He, Hk.
  apply not_elem_of_cons in Hk as [Hne Hk]. simpl.
  eapply slot_untouched_trans; [|by apply IH].
  apply refetch_other. congruence.
Qed.

Lemma onFocus_fold w :
  onFocus w
  = (Normal tt, fold_left (fun w' entry => snd (refetch entry w')) (_elements w) w).
Proof.
  unfold onFocus. unfold bind, get_elements.
  apply for_each_total. intros. apply refetch_total.
Qed.

Lemma Map_get_split {A} k (l : list (string * A)) x :
  Map_get k l = Some x ->
  exists l1 l2, l = l1 ++ (k, x) :: l2 /\ (k ∉ map fst l1).
Proof.
  unfold Map_get. induction l as [|[k' y] l IH]; simpl; [done|].
  destruct (String.eqb_spec k' k) as [->|Hne].
  - simpl. intros [= ->]. exists [], l. split; [done|]. apply not_elem_of_nil.
  - intros Hget. destruct (IH Hget) as (l1 & l2 & -> & Hk).
    exists ((k', y) :: l1), l2. split; [done|]. simpl.
    apply not_elem_of_cons. split; [congruence | done].
Qed.

Lemma consistent_split w k e :
  consistent w -> Map_get k (_elements w) = Some e ->
  key e = k
  /\ exists l1 l2,
       _elements w = l1 ++ (k, e) :: l2
       /\ (k ∉ map fst l1) /\ (k ∉ map fst l2)
       /\ Forall (fun entry => key (snd entry) = fst entry) l1
       /\ Forall (fun entry => key (snd entry) = fst entry) l2.
Proof.
  intros [Hnodup Hkeys] Hget.
  split; [by eapply Map_get_key|].
  destruct (Map_get_split _ _ _ Hget) as (l1 & l2 & Hl & Hk1).
  exists l1, l2. rewrite Hl in Hnodup, Hkeys.
  apply Forall_app in Hkeys as [H1 H2]. apply Forall_cons in H2 as [_ H2].
  rewrite map_app in Hnodup. simpl in Hnodup.
  apply NoDup_app in Hnodup as (_ & _ & Hnodup).
  apply NoDup_cons in Hnodup as [Hk2 _]. done.
Qed.

(** ** C7: the focus pass applies what is persisted *)

Lemma extends_refetch entry : preserves extends (refetch entry).
Proof.
  apply kept_refetch.
  - apply extends_refl.
  - apply extends_trans.
  - intros k v w0. unfold extends. simpl. repeat split; try done.
    rewrite dom_insert_L. set_solver.
  - intros k s w0. unfold extends. simpl. repeat split; try done.
    rewrite dom_insert_L. set_solver.
  - intros type detail w0. rewrite dispatch_eq. unfold extends. simpl.
    repeat split; try done; by eexists.
  - intros entry0 w0. unfold extends. simpl. repeat split; try done. by eexists.
  - intros w0. unfold extends. simpl. repeat split; try done. lia.
Qed.

Lemma extends_refetches (l : list (string * StateElementData)) w :
  extends w (fold_left (fun w' entry => snd (refetch entry w')) l w).
Proof.
  revert w. induction l as [|entry l IH]; intros w; simpl; [apply extends_refl|].
  eapply extends_trans; [apply extends_refetch | apply IH].
Qed.

Lemma logged_since_between e w w1 w2 w' :
  extends w w1 -> logged_since e w1 w2 -> extends w2 w' -> logged_since e w w'.
Proof.
  intros (_ & _ & _ & _ & _ & _ & _ & [a Ha] & _) (entries & later & Hlog)
         (_ & _ & _ & _ & _ & _ & _ & [b Hb] & _).
  exists (a ++ entries), (later ++ b). rewrite Hb, Hlog, Ha.
  by rewrite <- !app_assoc.
Qed.

Lemma dispatched_since_between events w w1 w2 w' :
  extends w w1 -> dispatched_since events w1 w2 -> extends w2 w' ->
  dispatched_since events w w'.
Proof.
  intros (_ & _ & _ & _ & _ & _ & _ & _ & [a Ha] & _) (earlier & later & Hev)
         (_ & _ & _ & _ & _ & _ & _ & _ & [b Hb] & _).
  exists (a ++ earlier), (later ++ b). rewrite Hb, Hev, Ha.
  by rewrite <- !app_assoc.
Qed.

(** What holds of a slot over its own turn holds over the whole pass,
    the other turns leaving the slot alone. *)
Lemma resync_dropped_between e s err w w1 w2 w' :
  slot_untouched (key e) w w1 -> extends w w1 ->
  slot_untouched (key e) w2 w' -> extends w2 w' ->
  _config w2 = _config w1 ->
  resync_dropped e s err w1 w2 -> resync_dropped e s err w w'.
Proof.
  intros (Hs1 & Hl1 & Hc1) Hbefore (Hs2 & Hl2 & Hc2) Hafter Hc (Hs & Hl & Hlog).
  rewrite Hc, Hc1 in Hl2. rewrite Hc1 in Hl.
  split; [congruence|]. split; [congruence|].
  by eapply logged_since_between.
Qed.

Lemma resync_applied_between e s v w w1 w2 w' :
  slot_untouched (key e) w w1 -> extends w w1 ->
  slot_untouched (key e) w2 w' -> extends w2 w' ->
  _config w2 = _config w1 ->
  resync_applied e s v w1 w2 -> resync_applied e s v w w'.
Proof.
  intros Hu1 Hbefore Hu2 Hafter Hc. unfold resync_applied.
  destruct (decide _); [by apply resync_dropped_between|].
  destruct (match StateElementConfig.onBeforeSet (element_config e) with
            | Some onBeforeSet => onBeforeSet v
            | None => Normal v
            end) as [v'|err]; [|by apply resync_dropped_between].
  destruct Hu1 as (Hs1 & Hl1 & Hc1). destruct Hu2 as (Hs2 & Hl2 & Hc2).
  rewrite Hc, Hc1 in Hl2. rewrite Hc1. intros [Hs Hrest].
  split; [congruence|].
  destruct (valueToString v') as [s'|err]; destruct Hrest as [Hl Hsince].
  - split; [congruence|]. by eapply dispatched_since_between.
  - split; [congruence|]. by eapply logged_since_between.
Qed.

(** [State.set] on a persisted slot, seen from a world that differs
    from the one it starts in by fresh symbols at most. *)
Lemma State_set_resync e s v' w0 w :
  refetches e = true ->
  localStorage w !! prefixKey (_config w) (key e) = Some s ->
  _storage w0 = _storage w -> localStorage w0 = localStorage w ->
  _config w0 = _config w -> console w0 = console w ->
  dispatched w0 = dispatched w ->
  let w' := snd (match State_set (key e) v' (element_config e) w0 with
                 | (Normal _, w1) => (Normal tt, w1)
                 | (Throw err, w1) =>
                     (Normal tt, with_console (console w1 ++ [LogError err]) w1)
                 end) in
  _storage w' !! key e = Some v'
  /\ match valueToString v' with
     | Normal s' =>
         localStorage w' !! prefixKey (_config w) (key e) = Some s'
         /\ dispatched_since
              (events_of_set (key e) v' (element_config e) (_config w)) w w'
     | Throw err =>
         localStorage w' !! prefixKey (_config w) (key e) = Some s
         /\ logged_since err w w'
     end.
Proof.
  intros [Hpersist _]%andb_true_iff Hstored Hs Hl Hc Hconsole Hd. cbv zeta.
  rewrite State_set_unfold. cbv zeta. rewrite Hpersist.
  destruct (valueToString v') as [s'|err]; cbn [fst snd].
  - rewrite announce_eq. cbv zeta. simpl. rewrite Hc, Hd.
    split; [apply lookup_insert_eq|]. split; [apply lookup_insert_eq|].
    exists [], []. by rewrite app_nil_r.
  - simpl. split; [apply lookup_insert_eq|]. split; [by rewrite Hl|].
    exists [], []. by rewrite Hconsole.
Qed.

(** [element.set] of a decoded value, with the catch of the focus
    listener around it. *)
Lemma StateElement_set_resync e s v w0 w :
  refetches e = true ->
  localStorage w !! prefixKey (_config w) (key e) = Some s ->
  _storage w0 = _storage w -> localStorage w0 = localStorage w ->
  _config w0 = _config w -> console w0 = console w ->
  dispatched w0 = dispatched w ->
  resync_applied e s v w
    (snd (match StateElement_set e v w0 with
          | (Normal _, w1) => (Normal tt, w1)
          | (Throw err, w1) =>
              (Normal tt, with_console (console w1 ++ [LogError err]) w1)
          end)).
Proof.
  intros Hrefetch Hstored Hs Hl Hc Hconsole Hd.
  assert (forall err,
    resync_dropped e s err w (with_console (console w0 ++ [LogError err]) w0))
    as Hdropped.
  { intros err. split; [simpl; by rewrite Hs|]. split; [simpl; by rewrite Hl|].
    exists [], []. simpl. by rewrite Hconsole. }
  unfold resync_applied. rewrite StateElement_set_unfold.
  destruct (decide _); [apply Hdropped|].
  destruct (StateElementConfig.onBeforeSet (element_config e)) as [h|].
  - destruct (h v) as [v'|err]; [|apply Hdropped].
    by apply State_set_resync.
  - by apply State_set_resync.
Qed.

(** The turn of one slot that is opted in and has a persisted string:
    the string is decoded as the kind of the slot asks, and the value
    goes through [element.set]. *)
Lemma refetch_resync e s w :
  refetches e = true ->
  localStorage w !! prefixKey (_config w) (key e) = Some s ->
  let w' := snd (refetch (key e, e) w) in
  _config w' = _config w
  /\ match _type e with
     | TString => resync_applied e s (VString s) w w'
     | TNumber => resync_applied e s (VNumber (parseFloat s)) w w'
     | TBoolean => resync_applied e s (VBoolean (Boolean s)) w w'
     | TSymbol => exists id, resync_applied e s (VSymbol id (Some s)) w w'
     | TObject =>
         match JSON_parse s with
         | Normal v => resync_applied e s v w w'
         | Throw err => resync_dropped e s err w w'
         end
     | TBigint => resync_dropped e s (type_mismatch TBigint TNumber) w w'
     | TUndefined | TFunction => resync_dropped e s (unsupported TString) w w'
     end.
Proof.
  intros Hrefetch Hstored. cbv zeta.
  split; [by destruct (extends_refetch (key e, e) w) as [? _]|].
  assert (forall err,
    resync_dropped e s err w (with_console (console w ++ [LogError err]) w))
    as Hdropped.
  { intros err. split; [done|]. split; [done|]. by exists [], []. }
  rewrite refetch_unfold, Hrefetch, Hstored. unfold apply_persisted, bind.
  destruct (_type e) eqn:Hkind; cbn [valueFromString]; unfold ret, throw, lift.
  - apply Hdropped.
  - destruct (JSON_parse s) as [v|err]; [|apply Hdropped].
    by apply StateElement_set_resync.
  - by apply StateElement_set_resync.
  - by apply StateElement_set_resync.
  - pose proof (StateElement_set_resync e s (VNumber (StringToNumber s)) w w
                  Hrefetch Hstored eq_refl eq_refl eq_refl eq_refl eq_refl) as Hset.
    unfold resync_applied in Hset. rewrite Hkind in Hset.
    destruct (decide _) as [_|Hsame]; [done|]. by destruct Hsame.
  - by apply StateElement_set_resync.
  - exists (symbols w). unfold Symbol.
    by apply StateElement_set_resync.
  - apply Hdropped.
Qed.

(** C7.  When the window gains focus on a State that has registered its
    focus listener, the pass returns, whatever happens in it, and every
    registered slot with persistence and focus refetch enabled and a
    persisted string [s] present is brought up to date through
    [element.set].  The string is decoded as the kind of the slot asks:
    a string slot takes [s] itself, a number slot [parseFloat(s)], a
    boolean slot [Boolean(s)], a symbol slot a fresh symbol described
    by [s], an object slot [JSON.parse(s)].  The decoded value passes
    the kind check and the [onBeforeSet] hook of the slot; after the
    pass the value in memory is what the hook returned (the decoded
    value itself without hook), its encoding is the entry of the slot
    in local storage, and the events of the slot have been dispatched.
    An error on the way is caught and logged with [console.error], and
    the slot keeps its value and its persisted string: the SyntaxError
    of [JSON.parse], the kind mismatch of a decoded value (always, on
    a bigint slot, whose string is decoded with [Number]), what the
    hook throws, the library error for a slot of kind undefined or
    function.  What the hook returns is stored even when it cannot be
    encoded; the encoding error is then logged.  All this holds of
    every such slot, whatever happened to the slots before it and
    whatever happens to the slots after it. *)
Theorem C7_focus_pass (w : World) (k : string) (e : StateElementData)
    (s : string) :
  consistent w ->
  focus_listener w = true ->
  Map_get k (_elements w) = Some e ->
  refetches e = true ->
  localStorage w !! prefixKey (_config w) k = Some s ->
  let w' := snd (window_focus w) in
  fst (window_focus w) = Normal tt
  /\ match _type e with
     | TString => resync_applied e s (VString s) w w'
     | TNumber => resync_applied e s (VNumber (parseFloat s)) w w'
     | TBoolean => resync_applied e s (VBoolean (Boolean s)) w w'
     | TSymbol => exists id, resync_applied e s (VSymbol id (Some s)) w w'
     | TObject =>
         match JSON_parse s with
         | Normal v => resync_applied e s v w w'
         | Throw err => resync_dropped e s err w w'
         end
     | TBigint => resync_dropped e s (type_mismatch TBigint TNumber) w w'
     | TUndefined | TFunction => resync_dropped e s (unsupported TString) w w'
     end.
Proof.
  intros Hw Hfocus Hget Hrefetch Hstored. cbv zeta.
  unfold window_focus. rewrite Hfocus, onFocus_fold. cbn [fst snd].
  split; [done|].
  destruct (consistent_split _ _ _ Hw Hget)
    as (Hkey & l1 & l2 & -> & Hk1 & Hk2 & H1 & H2).
  rewrite fold_left_app. cbn [fold_left]. subst k.
  pose proof (refetches_other l1 w (key e) H1 Hk1) as Hu1.
  pose proof (extends_refetches l1 w) as Hbefore.
  set (w1 := fold_left _ l1 w) in *.
  pose proof (refetches_other l2 (snd (refetch (key e, e) w1)) (key e) H2 Hk2)
    as Hu2.
  pose proof (extends_refetches l2 (snd (refetch (key e, e) w1))) as Hafter.
  destruct (refetch_resync e s w1 Hrefetch) as [Hc Hturn].
  { destruct Hu1 as (_ & Hl & Hc). by rewrite Hc, Hl. }
  set (w2 := snd (refetch (key e, e) w1)) in *.
  destruct (_type e).
  - by eapply resync_dropped_between.
  - destruct (JSON_parse s);
      [by eapply resync_applied_between | by eapply resync_dropped_between].
  - by eapply resync_applied_between.
  - by eapply resync_applied_between.
  - by eapply resync_dropped_between.
  - by eapply resync_applied_between.
  - destruct Hturn as [id Hturn]. exists id. by eapply resync_applied_between.
  - by eapply resync_dropped_between.
Qed.

Lemma C7_witness :
  let w := world_other_tab in
  let w' := snd (window_focus w) in
  let a := StateElement_fields "a" (element_options (VObject []) true false None) in
  let b := StateElement_fields "b" (element_options (num 1) true false None) in
  (fst (window_focus w) = Normal tt
   /\ resync_applied b "2" (VNumber (parseFloat "2")) w w')
  /\ (fst (window_focus w) = Normal tt
      /\ resync_dropped a "{oops" SyntaxError w w').
Proof.
  cbv zeta. split.
  - apply (C7_focus_pass world_other_tab "b"
             (StateElement_fields "b" (element_options (num 1) true false None)) "2").
    + split; vm_compute; [compute_done | repeat constructor].
    + vm_compute; reflexivity.
    + vm_compute; reflexivity.
    + vm_compute; reflexivity.
    + vm_compute; reflexivity.
  - apply (C7_focus_pass world_other_tab "a"
             (StateElement_fields "a" (element_options (VObject []) true false None))
             "{oops").
    + split; vm_compute; [compute_done | repeat constructor].
    + vm_compute; reflexivity.
    + vm_compute; reflexivity.
    + vm_compute; reflexivity.
    + vm_compute; reflexivity.
Defined.

(** X16.  The focus pass changes a slot only if it is registered,
    opted into persistence and focus refetch, and has a persisted
    string: every other key keeps its value in memory and its entry in
    local storage, whatever happens to the slots that are
    resynchronized. *)
Theorem X16_focus_leaves_other_slots (w : World) (k : string) :
  consistent w ->
  match Map_get k (_elements w) with
  | Some e =>
      refetches e = false \/ localStorage w !! prefixKey (_config w) k = None
  | None => True
  end ->
  slot_untouched k w (snd (window_focus w)).
Proof.
  intros Hw Hskip. unfold window_focus.
  destruct (focus_listener w); [|apply slot_untouched_refl].
  rewrite onFocus_fold. simpl.
  destruct (Map_get k (_elements w)) as [e|] eqn:Hget.
  - destruct (consistent_split _ _ _ Hw Hget)
      as (Hkey & l1 & l2 & -> & Hk1 & Hk2 & H1 & H2).
    rewrite fold_left_app. cbn [fold_left].
    pose proof (refetches_other l1 w k H1 Hk1) as Hbefore.
    set (w1 := fold_left _ l1 w) in *.
    assert (snd (refetch (k, e) w1) = w1) as ->.
    { rewrite refetch_unfold. destruct Hskip as [-> | Hnone]; [done|].
      destruct Hbefore as (_ & Hl & Hc). rewrite Hc, Hl, Hnone.
      by destruct (refetches e). }
    eapply slot_untouched_trans; [exact Hbefore|]. by apply refetches_other.
  - apply refetches_other; [apply Hw|].
    intros Hin. apply Map_get_is_Some in Hin as [? ?]. congruence.
Qed.

Lemma X16_witness : slot_untouched "test" world_events (snd (window_focus world_events)).
Proof.
  apply (X16_focus_leaves_other_slots world_events "test").
  - split; vm_compute; [apply NoDup_singleton | repeat constructor].
  - vm_compute. by left.
Defined.

Lemma valueFromString_pure s type w0 w :
  type <> TSymbol ->
  valueFromString s type w = (fst (valueFromString s type w0), w).
Proof. by destruct type. Qed.

(** X17.  The focus pass brings a slot up to date with local storage.
    For a registered slot that is opted into persistence and focus
    refetch and has no [onBeforeSet] hook, whose persisted string
    decodes, under the kind of the slot, to a value of that kind (any
    string for a string slot, the parsed Number for a number slot, the
    truth value for a boolean slot, a JSON text of an object for an
    object slot): after the focus event [get(key)] returns the decoded
    value, whatever the pass does to the other slots. *)
Theorem X17_focus_applies_persisted (w : World) (k : string)
    (e : StateElementData) (s : string) (v : JsValue) :
  consistent w ->
  focus_listener w = true ->
  Map_get k (_elements w) = Some e ->
  refetches e = true ->
  StateElementConfig.onBeforeSet (element_config e) = None ->
  localStorage w !! prefixKey (_config w) k = Some s ->
  _type e <> TSymbol ->
  fst (valueFromString s (_type e) w) = Normal v ->
  typeof v = _type e ->
  fst (window_focus w) = Normal tt
  /\ fst (State_get k (snd (window_focus w))) = Normal v.
Proof.
  intros Hw Hfocus Hget Hrefetch Hhook Hstored Hsym Hdecode Hkind.
  unfold window_focus. rewrite Hfocus, onFocus_fold. split; [done|].
  unfold State_get. cbn [fst snd].
  destruct (consistent_split _ _ _ Hw Hget)
    as (Hkey & l1 & l2 & -> & Hk1 & Hk2 & H1 & H2).
  rewrite fold_left_app. cbn [fold_left].
  pose proof (refetches_other l1 w k H1 Hk1) as (_ & Hl & Hc).
  set (w1 := fold_left _ l1 w) in *.
  assert (_storage (snd (refetch (k, e) w1)) !! k = Some v) as Hnow.
  { rewrite refetch_unfold, Hrefetch, Hc, Hl, Hstored.
    unfold apply_persisted, bind.
    rewrite (valueFromString_pure s (_type e) w w1 Hsym), Hdecode.
    pose proof (State_set_storage (key e) v (element_config e) w1) as Hset.
    rewrite StateElement_set_unfold, Hhook.
    destruct (decide _) as [Hne|_]; [done|].
    destruct (State_set (key e) v (element_config e) w1) as [[[]|err] w2];
      simpl in *; rewrite Hset, Hkey; apply lookup_insert_eq. }
  destruct (refetches_other l2 (snd (refetch (k, e) w1)) k H2 Hk2) as (-> & _).
  by rewrite Hnow.
Qed.

Lemma X17_witness :
  fst (window_focus world_other_tab) = Normal tt
  /\ fst (State_get "b" (snd (window_focus world_other_tab))) = Normal (num 2).
Proof.
  apply (X17_focus_applies_persisted world_other_tab "b"
           (StateElement_fields "b" (element_options (num 1) true false None)) "2").
  - split; vm_compute; [compute_done | repeat constructor].
  - vm_compute; reflexivity.
  - vm_compute; reflexivity.
  - vm_compute; reflexivity.
  - reflexivity.
  - vm_compute; reflexivity.
  - discriminate.
  - vm_compute; reflexivity.
  - reflexivity.
Defined.

(** X18.  A slot of kind bigint is never resynchronized: its persisted
    string is decoded with [Number], [StateElement.set] rejects the
    Number, and the focus pass logs the mismatch and goes on; nothing
    but the console changes for that slot. *)
Theorem X18_focus_rejects_bigint_slot (w : World) (k : string)
    (e : StateElementData) (s : string) :
  _type e = TBigint ->
  refetches e = true ->
  localStorage w !! prefixKey (_config w) k = Some s ->
  refetch (k, e) w
  = (Normal tt,
     with_console (console w ++ [LogError (type_mismatch TBigint TNumber)]) w).
Proof.
  intros Hkind Hrefetch Hstored.
  rewrite refetch_unfold, Hrefetch, Hstored.
  unfold apply_persisted, bind. rewrite Hkind. simpl. unfold ret.
  rewrite StateElement_set_unfold, Hkind.
  destruct (decide _) as [_|Heq]; [done|]. by destruct Heq.
Qed.

Lemma X18_witness :
  let w := world_after {[ "b" := "7" ]} None
             (Some [("b"%string, bigint_options)]) (ret tt) in
  refetch ("b"%string, StateElement_fields "b" bigint_options) w
  = (Normal tt,
     with_console (console w ++ [LogError (type_mismatch TBigint TNumber)]) w).
Proof.
  cbv zeta.
  apply (X18_focus_rejects_bigint_slot
           (world_after {[ "b" := "7" ]} None
              (Some [("b"%string, bigint_options)]) (ret tt))
           "b" (StateElement_fields "b" bigint_options) "7").
  - reflexivity.
  - reflexivity.
  - vm_compute; reflexivity.
Defined.

(** ** [StateElement]: the hook, the configuration and the listeners *)

(** X19.  [StateElement.set] on a slot with an [onBeforeSet] hook.  A
    value of another kind than the slot's is rejected before the hook
    runs, and nothing changes.  A value of the slot's kind is passed to
    the hook: if the hook throws, [set] throws the same error and
    nothing changes; if it returns, the returned value is what
    [State.set] stores and announces, and what [get()] returns from
    then on, whatever its kind: the result of the hook is not
    checked. *)
Theorem X19_set_runs_hook (this : StateElementData)
    (h : JsValue -> Completion JsValue) (v : JsValue) (w : World) :
  StateElementConfig.onBeforeSet (element_config this) = Some h ->
  if decide (typeof v = _type this) then
    match h v with
    | Normal v' =>
        StateElement_set this v w = State_set (key this) v' (element_config this) w
        /\ fst (StateElement_get this (snd (StateElement_set this v w))) = Normal v'
    | Throw err => StateElement_set this v w = (Throw err, w)
    end
  else
    StateElement_set this v w = (Throw (type_mismatch (_type this) (typeof v)), w).
Proof.
  intros Hhook. rewrite StateElement_set_unfold, Hhook.
  destruct (decide (typeof v = _type this)) as [Heq|Hne].
  - destruct (decide (typeof v <> _type this)); [done|].
    destruct (h v) as [v'|err]; [|done]. split; [done|].
    unfold StateElement_get, State_get. simpl.
    by rewrite State_set_storage, lookup_insert_eq.
  - by destruct (decide (typeof v <> _type this)).
Qed.

Lemma X19_witness :
  let this := StateElement_fields "n" hooked_options in
  StateElement_set this (num 5) world_hooked
  = State_set "n" (num 1) (element_config this) world_hooked
  /\ fst (StateElement_get this (snd (StateElement_set this (num 5) world_hooked)))
     = Normal (num 1).
Proof.
  cbv zeta.
  apply (X19_set_runs_hook (StateElement_fields "n" hooked_options) always_one
           (num 5) world_hooked).
  reflexivity.
Defined.

(** X20.  The element that [State.init] returns carries the key, the
    default value and its kind, which is one of the six supported
    kinds, and the given config merged over the defaults: every option
    that is given wins, and an option that is left out has its
    default: not persisted, no events, no hook, focus refetch on.  So
    a slot is resynchronized on focus as soon as it is persisted,
    unless it opts out; and the slots that [init] loads from local
    storage (it reads the option from [opts.config]) are exactly the
    slots whose later [set] calls persist (they read it from the merged
    config of the element). *)
Theorem X20_element_of_init (w : World) (k : string)
    (opts : StateElementOptions.t) (e : StateElementData) (w' : World) :
  State_init k opts w = (Normal e, w') ->
  let given := default StateElementConfig.empty (StateElementOptions.config opts) in
  key e = k
  /\ _defaultValue e = StateElementOptions.defaultValue opts
  /\ _type e = typeof (StateElementOptions.defaultValue opts)
  /\ StorageValueType (_type e)
  /\ StateElementConfig.useLocalStorage (element_config e)
     = Some (default false (StateElementConfig.useLocalStorage given))
  /\ StateElementConfig.useEvents (element_config e)
     = Some (default false (StateElementConfig.useEvents given))
  /\ StateElementConfig.onBeforeSet (element_config e)
     = StateElementConfig.onBeforeSet given
  /\ StateElementConfig.useRefetchOnFocus (element_config e)
     = Some (default true (StateElementConfig.useRefetchOnFocus given))
  /\ truthy (StateElementConfig.useLocalStorage (element_config e))
     = requests_persistence opts
  /\ refetches e
     = requests_persistence opts
       && default true (StateElementConfig.useRefetchOnFocus given).
Proof.
  intros Hinit. cbv zeta.
  destruct (State_init_returns _ _ _ _ _ Hinit) as [_ Hty].
  destruct (State_init_elements _ _ _ _ _ Hinit) as (-> & _).
  do 3 (split; [done|]). split; [exact Hty|].
  unfold refetches, requests_persistence, StateElement_fields. simpl.
  destruct (StateElementOptions.config opts) as [[a b c d]|]; simpl; [|done].
  by destruct a as [[]|], b, c, d as [[]|].
Qed.

Lemma X20_witness :
  let opts := element_options (num 123) true true None in
  let e := StateElement_fields "test" opts in
  let given := default StateElementConfig.empty (StateElementOptions.config opts) in
  key e = "test"%string
  /\ _defaultValue e = StateElementOptions.defaultValue opts
  /\ _type e = typeof (StateElementOptions.defaultValue opts)
  /\ StorageValueType (_type e)
  /\ StateElementConfig.useLocalStorage (element_config e)
     = Some (default false (StateElementConfig.useLocalStorage given))
  /\ StateElementConfig.useEvents (element_config e)
     = Some (default false (StateElementConfig.useEvents given))
  /\ StateElementConfig.onBeforeSet (element_config e)
     = StateElementConfig.onBeforeSet given
  /\ StateElementConfig.useRefetchOnFocus (element_config e)
     = Some (default true (StateElementConfig.useRefetchOnFocus given))
  /\ truthy (StateElementConfig.useLocalStorage (element_config e))
     = requests_persistence opts
  /\ refetches e
     = requests_persistence opts
       && default true (StateElementConfig.useRefetchOnFocus given).
Proof.
  cbv zeta.
  apply (X20_element_of_init (new_world ∅ 0) "test"
           (element_options (num 123) true true None)
           (StateElement_fields "test" (element_options (num 123) true true None))
           (snd (State_init "test" (element_options (num 123) true true None)
                   (new_world ∅ 0)))).
  vm_compute. reflexivity.
Defined.

(** ** Listeners and the calls of one [State.set] *)

Lemma announce_calls key value config w w1 :
  listeners w1 = listeners w -> _config w1 = _config w -> calls w1 = calls w ->
  calls (announce key value config w1) =
  calls w ++
    (if truthy (StateElementConfig.useEvents config) then
       delivered key (CustomEvent_detail value) (listeners w)
       ++ (if truthy (StateConfig.useChangeEvent (_config w))
           then delivered "change" (change_detail key value) (listeners w)
           else [])
     else []).
Proof.
  intros Hl Hc Ha. rewrite announce_eq. cbv zeta. simpl.
  unfold events_of_set. rewrite Hl, Hc, Ha.
  destruct (truthy (StateElementConfig.useEvents config)); [|done].
  destruct (truthy (StateConfig.useChangeEvent (_config w))); simpl;
    by rewrite ?app_nil_r.
Qed.

Lemma State_set_calls key value config w :
  fst (State_set key value config w) = Normal tt ->
  calls (snd (State_set key value config w)) =
  calls w ++
    (if truthy (StateElementConfig.useEvents config) then
       delivered key (CustomEvent_detail value) (listeners w)
       ++ (if truthy (StateConfig.useChangeEvent (_config w))
           then delivered "change" (change_detail key value) (listeners w)
           else [])
     else []).
Proof.
  rewrite State_set_unfold. cbv zeta.
  destruct (truthy (StateElementConfig.useLocalStorage config)).
  - destruct (valueToString value); simpl; [|done]. intros _.
    by apply announce_calls.
  - simpl. intros _. by apply announce_calls.
Qed.

(** X21.  What one [State.set] calls.  When the call returns with
    [config.useEvents] on, it has called the listeners registered for
    the key, each once and in the order of their registration, with
    the detail of the per-key event, which is the value, or [null] when
    the value is [undefined]; and after them, when the State has
    aggregate events on, the listeners registered for "change", in the
    order of their registration, with [{ key, value }].  With
    [config.useEvents] off, or when the call throws in its persistence
    step, no listener is called. *)
Theorem X21_set_calls_listeners_in_order (w : World) (key : string)
    (value : JsValue) (config : StateElementConfig.t) :
  let result := State_set key value config w in
  calls (snd result) =
  calls w ++
    match fst result with
    | Normal _ =>
        if truthy (StateElementConfig.useEvents config) then
          delivered key (CustomEvent_detail value) (listeners w)
          ++ (if truthy (StateConfig.useChangeEvent (_config w))
              then delivered "change" (change_detail key value) (listeners w)
              else [])
        else []
    | Throw _ => []
    end.
Proof.
  cbv zeta. pose proof (State_set_calls key value config w) as Hcalls.
  destruct (fst (State_set key value config w)) as [[]|err] eqn:Hout; [auto|].
  clear Hcalls. rewrite State_set_unfold in *. cbv zeta in *.
  destruct (truthy (StateElementConfig.useLocalStorage config)); [|done].
  destruct (valueToString value); [done|]. simpl. by rewrite app_nil_r.
Qed.



(** ** [StateComponent]: binding *)

Lemma Map_get_update_property {A} k k' (v : A) props :
  is_Some (Map_get k' props) ->
  Map_get k (update_property k' v props)
  = if String.eqb k' k then Some v else Map_get k props.
Proof.
  unfold Map_get. induction props as [|[k0 v0] r IH]; simpl.
  - by intros [? ?].
  - destruct (String.eqb_spec k0 k') as [->|Hne]; simpl.
    + intros _. by destruct (String.eqb k' k).
    + intros Hreg. specialize (IH Hreg).
      destruct (String.eqb_spec k0 k) as [->|Hne'].
      * destruct (String.eqb_spec k' k); [congruence | done].
      * done.
Qed.

Lemma Map_get_insert_property {A} k k' (v : A) props :
  Map_get k' props = None ->
  Map_get k (insert_property k' v props)
  = if String.eqb k' k then Some v else Map_get k props.
Proof.
  unfold Map_get. induction props as [|[k0 v0] r IH]; simpl.
  - intros _. by destruct (String.eqb k' k).
  - destruct (String.eqb_spec k0 k') as [->|Hne]; [done|]. intros Hnone.
    specialize (IH Hnone). destruct (stays_before k0 k'); simpl.
    + destruct (String.eqb_spec k0 k) as [->|Hne'].
      * destruct (String.eqb_spec k' k); [congruence | done].
      * done.
    + by destruct (String.eqb k' k).
Qed.

Lemma existsb_Map_get {A} k (props : list (string * A)) :
  existsb (fun p => String.eqb (fst p) k) props = true
  <-> is_Some (Map_get k props).
Proof.
  unfold Map_get. induction props as [|[k0 v0] r IH]; simpl.
  - split; [done | by intros [? ?]].
  - destruct (String.eqb k0 k); simpl; [split; eauto | done].
Qed.

(** [states[k] = e] and reading the own property [k'] afterwards. *)
Lemma assign_state_lookup o k e o' :
  Map_get "__proto__" (own_states o) = None ->
  assign_state o k e = Normal o' ->
  forall k', Map_get k' (own_states o')
             = if String.eqb k k' && negb (String.eqb k "__proto__")
               then Some e else Map_get k' (own_states o).
Proof.
  intros Hproto. unfold assign_state.
  destruct (existsb _ (own_states o)) eqn:Hown.
  - intros [= <-] k'. simpl. apply existsb_Map_get in Hown.
    rewrite Map_get_update_property by done.
    destruct (String.eqb_spec k "__proto__") as [->|Hne].
    + rewrite Hproto in Hown. by destruct Hown.
    + by rewrite andb_true_r.
  - assert (Map_get k (own_states o) = None) as Hnone.
    { destruct (Map_get k (own_states o)) eqn:Hget; [|done].
      assert (existsb (fun p => String.eqb (fst p) k) (own_states o) = true)
        by (apply existsb_Map_get; eauto).
      congruence. }
    destruct (String.eqb_spec k "__proto__") as [->|Hne].
    + intros [= <-] k'. simpl. by rewrite andb_false_r.
    + destruct (states_prototype o);
        [destruct (is_StateElement_getter k); [done|]|];
        intros [= <-] k'; simpl; rewrite Map_get_insert_property by done;
        by rewrite andb_true_r.
Qed.

Lemma assign_state_proto o k e o' :
  Map_get "__proto__" (own_states o) = None ->
  assign_state o k e = Normal o' ->
  Map_get "__proto__" (own_states o') = None.
Proof.
  intros Hproto Hassign. rewrite (assign_state_lookup _ _ _ _ Hproto Hassign).
  by destruct (String.eqb k "__proto__").
Qed.

(** The assignment returns while [states] has the prototype it was
    created with, and under every name that is not a getter of
    StateElement. *)
Lemma assign_state_returns o k e :
  states_prototype o = None \/ is_StateElement_getter k = false ->
  exists o',
    assign_state o k e = Normal o'
    /\ (states_prototype o = None -> k <> "__proto__" -> states_prototype o' = None).
Proof.
  intros Hok. unfold assign_state.
  destruct (existsb _ _); [eexists; split; [reflexivity | by intros]|].
  destruct (String.eqb_spec k "__proto__") as [->|Hne];
    [eexists; split; [reflexivity | by intros _ []]|].
  destruct (states_prototype o) eqn:Hp.
  - destruct Hok as [?|Hget]; [done|]. rewrite Hget. eexists; split; [reflexivity | done].
  - eexists; split; [reflexivity | done].
Qed.

Lemma assign_state_throws o k e err :
  assign_state o k e = Throw err -> err = TypeError.
Proof.
  unfold assign_state. destruct (existsb _ _); [done|].
  destruct (String.eqb k "__proto__"); [done|].
  destruct (states_prototype o); [|done].
  destruct (is_StateElement_getter k); [|done]. by intros [= <-].
Qed.

Lemma assignable_spec keys :
  assignable keys = true ->
  ("__proto__" ∉ keys) \/ Forall (fun k => is_StateElement_getter k = false) keys.
Proof.
  unfold assignable. intros [Hno|Hall]%orb_true_iff.
  - left. intros Hin. apply negb_true_iff in Hno.
    assert (existsb (String.eqb "__proto__") keys = true) as Hex; [|congruence].
    apply existsb_exists. exists "__proto__"%string.
    split; [by apply list_elem_of_In | apply String.eqb_refl].
  - right. apply Forall_forall. intros k Hin.
    rewrite forallb_forall in Hall. apply negb_true_iff, Hall.
    by apply list_elem_of_In.
Qed.

(** One round of the loops: the world after the listener of [k] has
    been added, or not. *)
Lemma bind_keys_cons c overrides k keys states w e states1 :
  Forall (fun entry => key (snd entry) = fst entry) (_elements w) ->
  Map_get k (_elements w) = Some e ->
  assign_state states k e = Normal states1 ->
  exists w1,
    bind_keys c overrides (k :: keys) states w = bind_keys c overrides keys states1 w1
    /\ _elements w1 = _elements w
    /\ w1 = with_listeners
              (listeners w ++ (if overrides then hook_listeners c [k] else [])) w.
Proof.
  intros Hkeys He Hassign.
  pose proof (Map_get_key _ _ _ Hkeys He) as Hk.
  simpl. unfold State_attach, StateElement_addListener. unfold_monad.
  rewrite He, Hassign. destruct overrides; simpl.
  - rewrite Hk. by eexists.
  - exists w. by rewrite app_nil_r, with_listeners_same.
Qed.

(** The loop over a list of keys, when it returns. *)
Lemma bind_keys_returns c overrides keys states w states' w' :
  Forall (fun entry => key (snd entry) = fst entry) (_elements w) ->
  Map_get "__proto__" (own_states states) = None ->
  bind_keys c overrides keys states w = (Normal states', w') ->
  w' = with_listeners
         (listeners w ++ (if overrides then hook_listeners c keys else [])) w
  /\ forall k, Map_get k (own_states states')
               = if existsb (fun k' => String.eqb k' k) keys
                    && negb (String.eqb k "__proto__")
                 then Map_get k (_elements w) else Map_get k (own_states states).
Proof.
  intros Hkeys. revert states w Hkeys.
  induction keys as [|k0 keys IH]; intros states w Hkeys Hproto.
  - simpl. unfold ret. intros [= <- <-]. split; [|done].
    destruct overrides; by rewrite app_nil_r, with_listeners_same.
  - destruct (Map_get k0 (_elements w)) as [e|] eqn:He;
      [|simpl; unfold State_attach; unfold_monad; by rewrite He].
    destruct (assign_state states k0 e) as [states1|err] eqn:Hassign;
      [|simpl; unfold State_attach; unfold_monad; by rewrite He, Hassign].
    destruct (bind_keys_cons c overrides k0 keys states w e states1 Hkeys He Hassign)
      as (w1 & -> & Hel & Hw1).
    intros Hrun. apply IH in Hrun as [-> Hlookup];
      [| by rewrite Hel | by eapply assign_state_proto].
    split.
    + rewrite Hw1. destruct overrides; simpl; [|by rewrite !app_nil_r].
      by rewrite <- app_assoc.
    + intros k. rewrite Hlookup, Hel, (assign_state_lookup _ _ _ _ Hproto Hassign).
      simpl. destruct (String.eqb_spec k0 k) as [->|Hne]; simpl; [|done].
      destruct (String.eqb k "__proto__"); simpl; [by rewrite andb_false_r|].
      rewrite andb_true_r, He. by destruct (existsb _ keys).
Qed.

(** The loop over registered keys returns when no assignment can
    throw. *)
Lemma bind_keys_total c overrides keys states w :
  Forall (fun entry => key (snd entry) = fst entry) (_elements w) ->
  Forall (registered w) keys ->
  (states_prototype states = None /\ "__proto__" ∉ keys)
  \/ Forall (fun k => is_StateElement_getter k = false) keys ->
  exists states' w', bind_keys c overrides keys states w = (Normal states', w').
Proof.
  intros Hkeys. revert states w Hkeys.
  induction keys as [|k0 keys IH]; intros states w Hkeys Hreg Hok.
  - by exists states, w.
  - apply Forall_cons in Hreg as [[e He] Hreg].
    destruct (assign_state_returns states k0 e) as (states1 & Hassign & Hp).
    { destruct Hok as [[? _]|Hall]; [by left | right].
      by apply Forall_cons in Hall as [? _]. }
    destruct (bind_keys_cons c overrides k0 keys states w e states1 Hkeys He Hassign)
      as (w1 & -> & Hel & _).
    apply IH.
    + by rewrite Hel.
    + unfold registered in *. by rewrite Hel.
    + destruct Hok as [[Hnone Hnot]|Hall].
      * left. apply not_elem_of_cons in Hnot as [Hne Hnot]. split; [|done].
        apply Hp; [done | congruence].
      * right. by apply Forall_cons in Hall as [_ ?].
Qed.

(** Over registered keys the loop can only throw the TypeError of an
    assignment. *)
Lemma bind_keys_throws c overrides keys states w err w' :
  Forall (fun entry => key (snd entry) = fst entry) (_elements w) ->
  Forall (registered w) keys ->
  bind_keys c overrides keys states w = (Throw err, w') ->
  err = TypeError.
Proof.
  intros Hkeys. revert states w Hkeys.
  induction keys as [|k0 keys IH]; intros states w Hkeys Hreg; [done|].
  apply Forall_cons in Hreg as [[e He] Hreg].
  destruct (assign_state states k0 e) as [states1|err1] eqn:Hassign.
  - destruct (bind_keys_cons c overrides k0 keys states w e states1 Hkeys He Hassign)
      as (w1 & -> & Hel & _).
    apply IH; [by rewrite Hel|]. unfold registered in *. by rewrite Hel.
  - simpl. unfold State_attach. unfold_monad. rewrite He, Hassign.
    intros [= <- _]. by eapply assign_state_throws.
Qed.

(** The loop over a list of keys up to the first one that is not
    registered. *)
Lemma bind_keys_missing c overrides good missing rest states w :
  Forall (fun entry => key (snd entry) = fst entry) (_elements w) ->
  Forall (registered w) good ->
  (states_prototype states = None /\ "__proto__" ∉ good)
  \/ Forall (fun k => is_StateElement_getter k = false) good ->
  Map_get missing (_elements w) = None ->
  bind_keys c overrides (good ++ missing :: rest) states w
  = (Throw (Error "Element not initialized"),
     with_listeners
       (listeners w ++ (if overrides then hook_listeners c good else [])) w).
Proof.
  intros Hkeys. revert states w Hkeys.
  induction good as [|k0 good IH]; intros states w Hkeys Hreg Hok Hmissing.
  - simpl. unfold State_attach. unfold_monad. rewrite Hmissing.
    destruct overrides; by rewrite app_nil_r, with_listeners_same.
  - apply Forall_cons in Hreg as [[e He] Hreg].
    destruct (assign_state_returns states k0 e) as (states1 & Hassign & Hp).
    { destruct Hok as [[? _]|Hall]; [by left | right].
      by apply Forall_cons in Hall as [? _]. }
    change ((k0 :: good) ++ missing :: rest) with (k0 :: good ++ missing :: rest).
    destruct (bind_keys_cons c overrides k0 (good ++ missing :: rest) states w e
                states1 Hkeys He Hassign) as (w1 & -> & Hel & Hw1).
    rewrite IH.
    + rewrite Hw1. destruct overrides; simpl; [|by rewrite !app_nil_r].
      by rewrite <- app_assoc.
    + by rewrite Hel.
    + unfold registered in *. by rewrite Hel.
    + destruct Hok as [[Hnone Hnot]|Hall].
      * left. apply not_elem_of_cons in Hnot as [Hne Hnot]. split; [|done].
        apply Hp; [done | congruence].
      * right. by apply Forall_cons in Hall as [_ ?].
    + by rewrite Hel.
Qed.

(** The loop over all registered elements is the loop over their
    keys. *)
Lemma bind_all_keys c overrides (l : list (string * StateElementData))
    states events w :
  Forall (fun entry => key (snd entry) = fst entry) l ->
  Forall (fun entry => Map_get (fst entry) (_elements w) = Some (snd entry)) l ->
  bind_all c overrides (map snd l) states events w
  = (match fst (bind_keys c overrides (map fst l) states w) with
     | Normal states' => Normal (states', events ++ map fst l)
     | Throw e => Throw e
     end,
     snd (bind_keys c overrides (map fst l) states w)).
Proof.
  revert states events w.
  induction l as [|[k0 e0] l IH]; intros states events w Hkeys Hget.
  - simpl. unfold ret. by rewrite app_nil_r.
  - apply Forall_cons in Hkeys as [Hk0 Hkeys]. simpl in Hk0.
    apply Forall_cons in Hget as [He0 Hget]. simpl in He0.
    cbn [map fst snd bind_all bind_keys].
    unfold State_attach, StateElement_addListener. unfold_monad.
    rewrite He0, Hk0.
    destruct (assign_state states k0 e0) as [states1|err]; [|done].
    destruct overrides; simpl; rewrite IH by done; by rewrite <- app_assoc.
Qed.

Lemma Map_get_entries {A} (l : list (string * A)) :
  NoDup (map fst l) ->
  Forall (fun entry => Map_get (fst entry) l = Some (snd entry)) l.
Proof.
  induction l as [|[k0 e0] l IH]; [constructor|].
  change (map fst ((k0, e0) :: l)) with (k0 :: map fst l).
  intros [Hfresh Hnodup]%NoDup_cons. constructor.
  - unfold Map_get. simpl. by rewrite String.eqb_refl.
  - eapply Forall_impl; [by apply IH|]. intros [k e] Hget. simpl in *.
    unfold Map_get in *. simpl.
    destruct (String.eqb_spec k0 k) as [->|Hne]; [|done].
    destruct Hfresh. apply Map_get_is_Some. unfold Map_get. by rewrite Hget.
Qed.

Lemma StateComponent_new_log c overrides (bound : list (string * StateElementData) * list string) w :
  (cfg <- get_config ;;
   when (truthy (StateConfig.useLogs cfg))
     (console_log (LogStateComponent (map fst (fst bound)) overrides (snd bound))) ;;
   ret {| component := c; states := fst bound |}) w
  = (Normal {| component := c; states := fst bound |},
     if truthy (StateConfig.useLogs (_config w))
     then with_console
            (console w ++ [LogStateComponent (map fst (fst bound)) overrides (snd bound)]) w
     else w).
Proof. unfold_monad. simpl. by destruct (truthy _). Qed.

(** X23.  A component whose constructor returns for a list of keys
    (any list: keys may repeat) and whose class overrides
    [$onStateChange].
    After any further program that does not construct the component
    again, when [set(v)] returns on an element with events enabled,
    the hook of the component is called once for every time the key of
    the element is listed, with the key and the detail of the per-key
    event (the value the set stored, or [null] when that value is
    [undefined]): twice for a key listed twice, not at all for a key
    that is not listed; and, when the State has aggregate events on,
    once more for every time "change" is listed itself, with the key
    "change" and the aggregate detail. *)
Theorem X23_hook_calls_per_listed_key (c : nat) (w0 : World) (keys : list string)
    (comp : StateComponentData) (w1 : World) (ops : list Op)
    (element : StateElementData) (v : JsValue) :
  owned_listeners c w0 = [] ->
  consistent w0 ->
  StateComponent_new c true (ElementsKeys keys) w0 = (Normal comp, w1) ->
  leaves_alone c ops = true ->
  announced_set element v (run ops w1) ->
  let w := run ops w1 in
  let w' := snd (StateElement_set element v w) in
  exists stored,
    fst (StateElement_get element w') = Normal stored
    /\ received c w' =
       received c w
         ++ repeat (HookCall c (VString (key element)) (CustomEvent_detail stored))
              (occurrences (key element) keys)
         ++ (if truthy (StateConfig.useChangeEvent (_config w0)) then
               repeat (HookCall c (VString "change")
                         (change_detail (key element) stored))
                 (occurrences "change" keys)
             else []).
Proof.
  intros Hnew Hw0 Hcons Hops [Hok Hevents]. cbv zeta.
  destruct (StateComponent_new_listeners _ _ _ _ _ Hw0 Hcons) as [Hl Hc].
  destruct (extends_run ops w1) as (Hc' & _).
  assert (owned_listeners c (run ops w1) = hook_listeners c keys) as Hmine.
  { destruct (quiet_run c ops w1 Hops) as [-> _].
    unfold owned_listeners in *. rewrite Hl, List.filter_app, Hnew. simpl.
    clear. induction keys as [|k keys IH]; simpl; [done|].
    unfold owned at 1. simpl. by rewrite Nat.eqb_refl, IH. }
  assert (forall k detail,
    delivered k detail (hook_listeners c keys)
    = repeat (HookCall c (VString k) detail) (occurrences k keys)) as Hcount.
  { intros k detail. unfold delivered, hook_listeners, occurrences.
    clear. induction keys as [|k' keys IH]; simpl; [done|].
    destruct (String.eqb_spec k' k) as [->|Hne]; simpl; by rewrite IH. }
  destruct (StateElement_set_received c element v _ Hok) as (stored & Hstored & Hrec).
  exists stored. split.
  - unfold StateElement_get, State_get. simpl. by rewrite Hstored.
  - rewrite Hrec, Hmine. f_equal. unfold events_of_set.
    rewrite Hevents, Hc', Hc.
    destruct (truthy (StateConfig.useChangeEvent (_config w0)));
      cbn [flat_map fst snd]; rewrite !Hcount; by rewrite ?app_nil_r.
Qed.

Lemma X23_witness :
  let keys := ["test"%string; "test"%string] in
  let w1 := snd (StateComponent_new 0 true (ElementsKeys keys) world_events) in
  let w := run [OpFocus] w1 in
  let w' := snd (StateElement_set test_element (num 456) w) in
  exists stored,
    fst (StateElement_get test_element w') = Normal stored
    /\ received 0 w' =
       received 0 w
         ++ repeat (HookCall 0 (VString (key test_element)) (CustomEvent_detail stored))
              (occurrences (key test_element) keys)
         ++ (if truthy (StateConfig.useChangeEvent (_config world_events)) then
               repeat (HookCall 0 (VString "change")
                         (change_detail (key test_element) stored))
                 (occurrences "change" keys)
             else []).
Proof.
  cbv zeta.
  apply (X23_hook_calls_per_listed_key 0 world_events ["test"%string; "test"%string]
           {| component := 0;
              states := [("test"%string, test_element)] |}).
  - vm_compute; reflexivity.
  - split; vm_compute; [apply NoDup_singleton | repeat constructor].
  - vm_compute; reflexivity.
  - vm_compute; reflexivity.
  - split; vm_compute; reflexivity.
Defined.

(** A slot whose [onBeforeSet] returns [undefined] stores [undefined].
    The per-key event of the set carries [null], which is what the
    hook of a component bound to the key receives; the aggregate event
    carries [{ key, value: undefined }], and the hook of a component
    bound to no key receives [undefined]. *)
Example hook_receives_null :
  let u := StateElement_fields "u" undefined_options in
  let set_after elements :=
    StateElement_set u (num 1)
      (snd (StateComponent_new 0 true elements world_undefined)) in
  _storage (snd (set_after (ElementsKeys ["u"%string]))) !! "u" = Some VUndefined
  /\ received 0 (snd (set_after (ElementsKeys ["u"%string])))
     = [HookCall 0 (VString "u") VNull]
  /\ received 0 (snd (set_after ElementsAbsent))
     = [HookCall 0 (VString "u") VUndefined].
Proof. vm_compute. done. Qed.

Lemma bind_keys_quiet c keys states w :
  snd (bind_keys c false keys states w) = w.
Proof.
  revert states. induction keys as [|k keys IH]; intros states; simpl; [done|].
  unfold State_attach. unfold_monad.
  destruct (Map_get k (_elements w)) as [e|]; [|done].
  destruct (assign_state states k e); [apply IH | done].
Qed.

Lemma bind_all_quiet c elements states events w :
  snd (bind_all c false elements states events w) = w.
Proof.
  revert states events.
  induction elements as [|e r IH]; intros states events; simpl; [done|].
  unfold_monad. destruct (assign_state states (key e) e); [apply IH | done].
Qed.

Lemma with_console_same w : with_console (console w ++ []) w = w.
Proof. destruct w. unfold with_console. simpl. by rewrite app_nil_r. Qed.

(** The constructor for a list of keys, after its loop. *)
Lemma StateComponent_new_keys c overrides keys w :
  StateComponent_new c overrides (ElementsKeys keys) w
  = match bind_keys c overrides keys empty_states w with
    | (Normal states', w1) =>
        (Normal {| component := c; states := own_states states' |},
         if truthy (StateConfig.useLogs (_config w1))
         then with_console
                (console w1
                   ++ [LogStateComponent (map fst (own_states states')) overrides keys])
                w1
         else w1)
    | (Throw e, w1) => (Throw e, w1)
    end.
Proof.
  unfold StateComponent_new. unfold bind at 1. unfold bind at 1.
  destruct (bind_keys c overrides keys empty_states w) as [[states'|e] w1]; [|done].
  unfold ret at 1.
  by rewrite (StateComponent_new_log c overrides (own_states states', keys)).
Qed.

(** The constructor for [true], after its loop. *)
Lemma StateComponent_new_all c overrides w :
  StateComponent_new c overrides (ElementsBoolean true) w
  = match bind_all c overrides (map snd (_elements w)) empty_states [] w with
    | (Normal bound, w1) =>
        (Normal {| component := c; states := own_states (fst bound) |},
         if truthy (StateConfig.useLogs (_config w1))
         then with_console
                (console w1
                   ++ [LogStateComponent (map fst (own_states (fst bound))) overrides
                         (snd bound)])
                w1
         else w1)
    | (Throw e, w1) => (Throw e, w1)
    end.
Proof.
  unfold StateComponent_new. unfold bind at 1. unfold bind at 1. unfold bind at 1.
  unfold get_elements at 1.
  destruct (bind_all c overrides (map snd (_elements w)) empty_states [] w)
    as [[bound|e] w1]; [|done].
  unfold ret at 1.
  by rewrite (StateComponent_new_log c overrides (own_states (fst bound), snd bound)).
Qed.

Lemma StateComponent_new_quiet c elements w :
  exists entries,
    snd (StateComponent_new c false elements w)
    = with_console (console w ++ entries) w
    /\ (truthy (StateConfig.useLogs (_config w)) = false -> entries = []).
Proof.
  assert (forall bound : list (string * StateElementData) * list string,
    exists entries,
      (if truthy (StateConfig.useLogs (_config w))
       then with_console
              (console w ++ [LogStateComponent (map fst (fst bound)) false (snd bound)]) w
       else w) = with_console (console w ++ entries) w
      /\ (truthy (StateConfig.useLogs (_config w)) = false -> entries = [])) as Hlog.
  { intros bound. destruct (truthy _).
    - eexists. split; [reflexivity | done].
    - exists []. by rewrite with_console_same. }
  destruct elements as [|[]|keys].
  - unfold StateComponent_new. unfold bind at 1. unfold ret at 1.
    rewrite StateComponent_new_log. apply Hlog.
  - rewrite StateComponent_new_all.
    pose proof (bind_all_quiet c (map snd (_elements w)) empty_states [] w) as Hquiet.
    destruct (bind_all c false (map snd (_elements w)) empty_states [] w)
      as [[bound|e] w1]; simpl in Hquiet; subst w1.
    + apply (Hlog (own_states (fst bound), snd bound)).
    + exists []. by rewrite with_console_same.
  - unfold StateComponent_new. unfold bind at 1. unfold ret at 1.
    rewrite StateComponent_new_log. apply Hlog.
  - rewrite StateComponent_new_keys.
    pose proof (bind_keys_quiet c keys empty_states w) as Hquiet.
    destruct (bind_keys c false keys empty_states w) as [[states'|e] w1];
      simpl in Hquiet; subst w1.
    + apply (Hlog (own_states states', keys)).
    + exists []. by rewrite with_console_same.
Qed.

(** X24.  A component whose class does not override [$onStateChange]
    subscribes to nothing.  In every binding mode, and whether the
    constructor returns or throws on a key that is not registered, it
    leaves the State as it was: no listener is registered, nothing is
    stored, dispatched or called; the only trace is the console entry
    of a State with logs on. *)
Theorem X24_component_without_override (c : nat) (elements : ElementsArg)
    (w : World) :
  let w' := snd (StateComponent_new c false elements w) in
  w' = (if truthy (StateConfig.useLogs (_config w))
        then with_console (console w') w else w).
Proof.
  cbv zeta. destruct (StateComponent_new_quiet c elements w) as (entries & -> & Hoff).
  destruct (truthy _); [done|]. rewrite Hoff by done. apply with_console_same.
Qed.

(** The constructor for a list of registered keys: what it leaves when
    it returns, that it returns when no assignment can throw, and that
    it throws nothing but the TypeError of an assignment. *)
Lemma StateComponent_new_registered c overrides keys w :
  Forall (fun entry => key (snd entry) = fst entry) (_elements w) ->
  Forall (registered w) keys ->
  let result := StateComponent_new c overrides (ElementsKeys keys) w in
  (assignable keys = true -> exists comp, fst result = Normal comp)
  /\ (forall comp, fst result = Normal comp ->
        component comp = c
        /\ (forall k, Map_get k (states comp)
                      = if existsb (fun k' => String.eqb k' k) keys
                           && negb (String.eqb k "__proto__")
                        then Map_get k (_elements w) else None)
        /\ listeners (snd result)
           = listeners w ++ (if overrides then hook_listeners c keys else []))
  /\ (forall e, fst result = Throw e -> e = TypeError).
Proof.
  intros Hkeys Hreg. cbv zeta. rewrite StateComponent_new_keys.
  destruct (bind_keys c overrides keys empty_states w) as [[states'|err] w1] eqn:Hrun.
  - apply bind_keys_returns in Hrun as [-> Hlookup]; [|done|done].
    cbn [fst snd]. split; [by eexists|]. split; [|done].
    intros comp [= <-]. cbn [component states].
    split; [done|]. split; [done|]. by destruct (truthy _).
  - cbn [fst snd]. split; [|split; [done|]].
    + intros Hok%assignable_spec.
      destruct (bind_keys_total c overrides keys empty_states w Hkeys Hreg)
        as (states' & w' & Hret); [|congruence].
      destruct Hok as [?|?]; [by left | by right].
    + intros e [= <-]. by eapply bind_keys_throws.
Qed.

(** X25.  A component constructed with a list of keys that are all
    registered.  The constructor returns when ["__proto__"] is not
    listed, or no listed key names a getter of StateElement
    ([defaultValue], [type], [config]); it throws nothing but a
    TypeError.  When it returns, the own properties of [states] are
    the listed keys other than ["__proto__"], each holding the
    registered element of its key (the assignment to ["__proto__"]
    replaces the prototype of [states] and creates no property); and,
    when the class overrides [$onStateChange], one listener per listed
    key has been registered after the listeners that were there, in
    the order of the list. *)
Theorem X25_component_binds_listed_keys (c : nat) (overrides : bool)
    (keys : list string) (w : World) :
  consistent w ->
  Forall (registered w) keys ->
  let result := StateComponent_new c overrides (ElementsKeys keys) w in
  (assignable keys = true -> exists comp, fst result = Normal comp)
  /\ (forall comp, fst result = Normal comp ->
        component comp = c
        /\ (forall k, Map_get k (states comp)
                      = if existsb (fun k' => String.eqb k' k) keys
                           && negb (String.eqb k "__proto__")
                        then Map_get k (_elements w) else None)
        /\ listeners (snd result)
           = listeners w ++ (if overrides then hook_listeners c keys else []))
  /\ (forall e, fst result = Throw e -> e = TypeError).
Proof.
  intros [_ Hkeys] Hreg. by apply StateComponent_new_registered.
Qed.

Lemma X25_witness :
  let keys := ["b"%string; "a"%string] in
  let result := StateComponent_new 0 true (ElementsKeys keys) world_two_slots in
  (assignable keys = true -> exists comp, fst result = Normal comp)
  /\ (forall comp, fst result = Normal comp ->
        component comp = 0%nat
        /\ (forall k, Map_get k (states comp)
                      = if existsb (fun k' => String.eqb k' k) keys
                           && negb (String.eqb k "__proto__")
                        then Map_get k (_elements world_two_slots) else None)
        /\ listeners (snd result)
           = listeners world_two_slots ++ hook_listeners 0 keys)
  /\ (forall e, fst result = Throw e -> e = TypeError).
Proof.
  cbv zeta.
  apply (X25_component_binds_listed_keys 0 true ["b"%string; "a"%string]
           world_two_slots).
  - split; vm_compute; [compute_done | repeat constructor].
  - repeat constructor; vm_compute; eauto.
Defined.

(** X26.  A component constructed with a list that holds a key that is
    not registered, when the keys before it are registered and their
    assignments cannot throw (["__proto__"] is not among them, or none
    of them names a getter of StateElement): the constructor throws
    the unknown-key error of [attach] at the first such key and logs
    nothing; but when the class overrides [$onStateChange], the
    listeners it registered for the keys before that one stay
    registered on the State, and go on calling the hook of the object
    whose construction failed. *)
Theorem X26_component_unregistered_key (c : nat) (overrides : bool)
    (good : list string) (missing : string) (rest : list string) (w : World) :
  consistent w ->
  Forall (registered w) good ->
  assignable good = true ->
  Map_get missing (_elements w) = None ->
  StateComponent_new c overrides (ElementsKeys (good ++ missing :: rest)) w
  = (Throw (Error "Element not initialized"),
     with_listeners
       (listeners w ++ (if overrides then hook_listeners c good else [])) w).
Proof.
  intros [_ Hkeys] Hreg Hok%assignable_spec Hmissing.
  rewrite StateComponent_new_keys.
  rewrite (bind_keys_missing c overrides good missing rest empty_states w); try done.
  destruct Hok as [?|?]; [by left | by right].
Qed.

Lemma X26_witness :
  StateComponent_new 0 true (ElementsKeys (["test"%string] ++ "gone"%string :: []))
    world_events
  = (Throw (Error "Element not initialized"),
     with_listeners
       (listeners world_events ++ hook_listeners 0 ["test"%string]) world_events).
Proof.
  apply (X26_component_unregistered_key 0 true ["test"%string] "gone" [] world_events).
  - split; vm_compute; [apply NoDup_singleton | repeat constructor].
  - repeat constructor; vm_compute; eauto.
  - vm_compute; reflexivity.
  - vm_compute; reflexivity.
Defined.

(** Under [true] the constructor does what it does under the list of
    the registered keys. *)
Lemma StateComponent_new_true c overrides w :
  NoDup (map fst (_elements w)) ->
  Forall (fun entry => key (snd entry) = fst entry) (_elements w) ->
  StateComponent_new c overrides (ElementsBoolean true) w
  = StateComponent_new c overrides (ElementsKeys (map fst (_elements w))) w.
Proof.
  intros Hnodup Hkeys. rewrite StateComponent_new_all, StateComponent_new_keys.
  rewrite (bind_all_keys c overrides (_elements w) empty_states [] w Hkeys
             (Map_get_entries _ Hnodup)).
  by destruct (bind_keys c overrides (map fst (_elements w)) empty_states w)
    as [[states'|e] w1].
Qed.

(** X27.  A component constructed with [true].  The constructor returns
    when ["__proto__"] is not a registered key, or no registered key
    names a getter of StateElement; it throws nothing but a TypeError.
    When it returns, the own properties of [states] are the keys
    registered at that moment other than ["__proto__"], each holding
    the registered element of its key; and, when the class overrides
    [$onStateChange], one listener per registered key has been
    registered, in the order of registration. *)
Theorem X27_component_binds_all (c : nat) (overrides : bool) (w : World) :
  consistent w ->
  let result := StateComponent_new c overrides (ElementsBoolean true) w in
  (assignable (map fst (_elements w)) = true -> exists comp, fst result = Normal comp)
  /\ (forall comp, fst result = Normal comp ->
        component comp = c
        /\ (forall k, Map_get k (states comp)
                      = if String.eqb k "__proto__" then None
                        else Map_get k (_elements w))
        /\ listeners (snd result)
           = listeners w
             ++ (if overrides then hook_listeners c (map fst (_elements w)) else []))
  /\ (forall e, fst result = Throw e -> e = TypeError).
Proof.
  intros [Hnodup Hkeys]. cbv zeta.
  assert (Forall (registered w) (map fst (_elements w))) as Hreg.
  { apply Forall_forall. intros k Hk. by apply Map_get_is_Some. }
  rewrite (StateComponent_new_true c overrides w Hnodup Hkeys).
  destruct (StateComponent_new_registered c overrides (map fst (_elements w)) w
              Hkeys Hreg) as (Hret & Hbound & Hthrow).
  split; [done|]. split; [|done].
  intros comp Hcomp. destruct (Hbound comp Hcomp) as (Hc & Hlookup & Hl).
  split; [done|]. split; [|done].
  intros k. rewrite Hlookup.
  destruct (String.eqb k "__proto__"); simpl; [by rewrite andb_false_r|].
  rewrite andb_true_r.
  destruct (Map_get k (_elements w)) as [e|] eqn:Hget; [|by destruct (existsb _ _)].
  assert (existsb (fun k' => String.eqb k' k) (map fst (_elements w)) = true) as ->;
    [|done].
  apply existsb_exists. exists k. split; [|apply String.eqb_refl].
  apply list_elem_of_In, Map_get_is_Some. by rewrite Hget.
Qed.

Lemma X27_witness :
  let result := StateComponent_new 0 true (ElementsBoolean true) world_two_slots in
  (assignable (map fst (_elements world_two_slots)) = true
   -> exists comp, fst result = Normal comp)
  /\ (forall comp, fst result = Normal comp ->
        component comp = 0%nat
        /\ (forall k, Map_get k (states comp)
                      = if String.eqb k "__proto__" then None
                        else Map_get k (_elements world_two_slots))
        /\ listeners (snd result)
           = listeners world_two_slots
             ++ hook_listeners 0 (map fst (_elements world_two_slots)))
  /\ (forall e, fst result = Throw e -> e = TypeError).
Proof.
  cbv zeta.
  apply (X27_component_binds_all 0 true world_two_slots).
  split; vm_compute; [compute_done | repeat constructor].
Defined.

(** After ["__proto__"] has been bound, binding ["config"] throws: the
    setter of [Object.prototype] has made the element of ["__proto__"]
    the prototype of [states], from which [config] is inherited as a
    getter without setter.  The listener registered for ["__proto__"]
    stays. *)
Example proto_then_config :
  StateComponent_new 0 true (ElementsKeys ["__proto__"%string; "config"%string])
    world_proto
  = (Throw TypeError,
     with_listeners
       (listeners world_proto ++ hook_listeners 0 ["__proto__"%string]) world_proto)
  /\ fst (StateComponent_new 0 true (ElementsBoolean true) world_proto)
     = Throw TypeError.
Proof. split; vm_compute; reflexivity. Qed.

(** In the other order, [config] is an own property by the time the
    prototype is replaced: the constructor returns, and [states] holds
    [config] alone. *)
Example config_then_proto :
  fst (StateComponent_new 0 true
         (ElementsKeys ["config"%string; "__proto__"%string]) world_proto)
  = Normal {| component := 0;
              states := [("config"%string,
                          StateElement_fields "config" (plain (num 0)))] |}.
Proof. vm_compute; reflexivity. Qed.

(** ** [StateComponent.$resetAll] *)

Lemma resets_cleanly_reset e w :
  resets_cleanly e = true ->
  StateElement_reset e w
  = (Normal tt, snd (State_set (key e) (_defaultValue e) (element_config e) w)).
Proof.
  unfold resets_cleanly, StateElement_reset. rewrite StateElement_set_unfold.
  destruct (StateElementConfig.onBeforeSet _); [done|].
  intros [Hkind Hencode]%andb_prop. apply bool_decide_eq_true in Hkind.
  destruct (decide _); [done|].
  pose proof (State_set_outcome (key e) (_defaultValue e) (element_config e) w) as Hout.
  destruct (State_set _ _ _ w) as [[[]|err] w1]; [done|]. simpl in Hout.
  destruct (truthy _); [|done]. simpl in Hencode.
  by destruct (valueToString (_defaultValue e)).
Qed.

(** X28.  [$resetAll] resets the bound slots one after the other, in
    the order of [Object.keys(states)].  When no reset can throw (no
    bound slot has a hook, and the default of every persisted slot can
    be encoded), [$resetAll] returns and afterwards [get()] returns the
    default value on every bound element; the slots that are not bound
    keep their values. *)
Theorem X28_resetAll_restores_defaults (this : StateComponentData) (w : World) :
  Forall (fun s => resets_cleanly (snd s) = true) (states this) ->
  NoDup (map (fun s => key (snd s)) (states this)) ->
  let result := StateComponent_resetAll this w in
  fst result = Normal tt
  /\ Forall (fun s => fst (StateElement_get (snd s) (snd result))
                      = Normal (_defaultValue (snd s))) (states this)
  /\ forall k, k ∉ map (fun s => key (snd s)) (states this) ->
               fst (State_get k (snd result)) = fst (State_get k w).
Proof.
  unfold StateComponent_resetAll. cbv zeta.
  generalize (states this). clear this. intros l. revert w.
  induction l as [|[k0 e] l IH]; intros w Hclean Hnodup.
  - simpl. split; [done|]. split; [constructor | done].
  - apply Forall_cons in Hclean as [He Hclean]. simpl in He.
    change (map (fun s => key (snd s)) ((k0, e) :: l))
      with (key e :: map (fun s : string * StateElementData => key (snd s)) l) in *.
    apply NoDup_cons in Hnodup as [Hfresh Hnodup].
    cbn [for_each snd]. unfold bind at 1 2 3.
    rewrite (resets_cleanly_reset e w He).
    set (w1 := snd (State_set (key e) (_defaultValue e) (element_config e) w)).
    destruct (IH w1 Hclean Hnodup) as (Hok & Hvalues & Hothers).
    split; [done|]. split; [constructor; [|done]|].
    + cbn [snd]. unfold StateElement_get. rewrite (Hothers _ Hfresh).
      subst w1. unfold State_get. simpl.
      by rewrite State_set_storage, lookup_insert_eq.
    + intros k Hk. apply not_elem_of_cons in Hk as [Hne Hk].
      rewrite (Hothers _ Hk). subst w1. unfold State_get. simpl.
      by rewrite State_set_storage, lookup_insert_ne.
Qed.

Lemma X28_witness :
  let this := {| component := 0;
                 states := [("a"%string,
                             StateElement_fields "a"
                               (element_options (VObject []) true false None));
                            ("b"%string,
                             StateElement_fields "b"
                               (element_options (num 1) true false None))] |} in
  let result := StateComponent_resetAll this world_other_tab in
  fst result = Normal tt
  /\ Forall (fun s => fst (StateElement_get (snd s) (snd result))
                      = Normal (_defaultValue (snd s))) (states this)
  /\ forall k, k ∉ map (fun s => key (snd s)) (states this) ->
               fst (State_get k (snd result)) = fst (State_get k world_other_tab).
Proof.
  cbv zeta.
  apply (X28_resetAll_restores_defaults
           {| component := 0;
              states := [("a"%string,
                          StateElement_fields "a"
                            (element_options (VObject []) true false None));
                         ("b"%string,
                          StateElement_fields "b"
                            (element_options (num 1) true false None))] |}
           world_other_tab).
  - repeat constructor.
  - compute_done.
Defined.

(** ** Persistence from one session to the next *)

(** X29.  What one session persists, the next one loads.  Let a
    [State.set] with persistence return for [(key, value)], and let a
    later State find the entry it wrote under its own prefixed key (the
    same local storage, the same prefix).  Then [init(key, opts)] on
    that State, for a slot of the kind of the value that requests
    persistence, starts the slot with the value that [valueFromString]
    decodes from the encoding of [value]: [init] returns and [get(key)]
    returns that value when decoding returns, and [init] throws the
    error of the decoding otherwise.  The default value plays no
    role. *)
Theorem X29_next_session_loads (w : World) (key : string) (value : JsValue)
    (config : StateElementConfig.t) (w2 : World) (opts : StateElementOptions.t) :
  truthy (StateElementConfig.useLocalStorage config) = true ->
  fst (State_set key value config w) = Normal tt ->
  localStorage w2 !! prefixKey (_config w2) key
  = localStorage (snd (State_set key value config w)) !! prefixKey (_config w) key ->
  Map_get key (_elements w2) = None ->
  typeof (StateElementOptions.defaultValue opts) = typeof value ->
  requests_persistence opts = true ->
  match reload value w2 with
  | (Normal v', _) =>
      fst (State_init key opts w2) = Normal (StateElement_fields key opts)
      /\ fst (State_get key (snd (State_init key opts w2))) = Normal v'
  | (Throw e, _) => fst (State_init key opts w2) = Throw e
  end.
Proof.
  intros Hpersist Hok Hshared Hnone Hkind Hreq.
  rewrite State_set_outcome, Hpersist in Hok.
  rewrite State_set_localStorage, Hpersist in Hshared.
  destruct (valueToString value) as [s|] eqn:Hs; [|done].
  rewrite lookup_insert_eq in Hshared.
  assert (StorageValueType (typeof (StateElementOptions.defaultValue opts))) as Hty.
  { rewrite Hkind. split; intros Hbad; unfold valueToString in Hs;
      by rewrite Hbad in Hs. }
  rewrite reload_unfold, Hs.
  rewrite (State_init_unfold _ _ _ Hnone Hty).
  unfold initial_value. rewrite Hreq, Hshared, Hkind.
  destruct (valueFromString s (typeof value) w2) as [[v'|err] w3] eqn:Hdecode;
    [|done].
  destruct (valueToString_decoded _ _ _ _ _ Hdecode) as [t Ht].
  rewrite State_set_init_config, Hreq, Ht. cbv zeta. cbn [fst snd].
  split; [done|]. unfold State_get. cbn [fst].
  destruct (register_fields key opts
    (with_localStorage (<[prefixKey (_config w3) key:=t]> (localStorage w3))
       (with_storage (<[key:=v']> (_storage w3)) w3))) as [-> _].
  simpl. by rewrite lookup_insert_eq.
Qed.

Lemma X29_witness :
  fst (State_init "k" (element_options (VString "d") true false None)
         (world_app {[ "app-k" := "v" ]}))
  = Normal (StateElement_fields "k" (element_options (VString "d") true false None))
  /\ fst (State_get "k"
            (snd (State_init "k" (element_options (VString "d") true false None)
                    (world_app {[ "app-k" := "v" ]}))))
     = Normal (VString "v").
Proof.
  apply (X29_next_session_loads (world_app ∅) "k" (VString "v") persistent
           (world_app {[ "app-k" := "v" ]})
           (element_options (VString "d") true false None)).
  - reflexivity.
  - vm_compute; reflexivity.
  - vm_compute; reflexivity.
  - vm_compute; reflexivity.
  - reflexivity.
  - reflexivity.
Defined.

(** X30.  A persisted boolean always reloads as [true].
    [valueToString] prints a boolean as ["true"] or ["false"], and
    [valueFromString] reads a string under kind boolean with
    [Boolean(value)], which is [false] for the empty string only; so
    the encoding of either boolean decodes to [true], and no string
    that [valueToString] produces for a boolean decodes to [false]. *)
Theorem X30_boolean_reloads_true (b : bool) (w : World) :
  reload (VBoolean b) w = (Normal (VBoolean true), w)
  /\ forall s, valueFromString s TBoolean w = (Normal (VBoolean false), w)
               <-> s = ""%string.
Proof.
  split.
  - rewrite reload_unfold. by destruct b.
  - intros s. simpl. unfold ret, Boolean. split.
    + intros [= Hs]. apply negb_false_iff in Hs. by apply String.eqb_eq in Hs.
    + by intros ->.
Qed.
